(** * y-websocket: last-writer-wins registers and the awareness protocol

    A shallow embedding of
    - [src/crdts/llw-register.ts]  (class [LWWRegister]),
    - the keyed register map        (class [LWWMap]),
    - [src/y-protocols/awareness.js] (class [Awareness]: constructor, timer
      callback, [destroy], [getLocalState], [setLocalState],
      [setLocalStateField], [getStates]; and the functions
      [removeAwarenessStates], [encodeAwarenessUpdate],
      [modifyAwarenessUpdate], [applyAwarenessUpdate]).

    JavaScript numbers that the code uses as counters, clocks, peer ids and
    unix times are modelled by the integers they hold ([Z] for register
    timestamps, [N] for the unsigned quantities that travel as varuints);
    where the code adds 1 to such a number the model adds as a double does
    ([Double.succ]): exactly below 2^53, and with rounding from there on.
    JavaScript [Map]s are finite maps ([gmap]); a mutated object is threaded
    through the functions explicitly, and a function that can throw returns
    the mutated object together with a [Completion].  The listeners of the
    events are outside the model: a function returns the events it emits.
    [time.getUnixTime()] is a parameter of the functions that read it. *)

From Stdlib Require Import ZArith NArith List Bool Lia Ascii String.
From Stdlib.Strings Require Import Byte.
From Stdlib Require Import DecimalN DecimalFacts.
From stdpp Require Import base option gmap strings list fin_maps.

Local Open Scope Z_scope.

(* ===================================================================== *)
(** * Part I: the model *)
(* ===================================================================== *)

(** ** JavaScript values that the code inspects *)

(** The JSON fragment of JavaScript values: what [JSON.parse] can return and
    what an awareness state is made of.  Numbers are integers, strings are
    their UTF-8 byte sequences, an object is its list of own properties. *)
#[local] Unset Elimination Schemes.
Inductive json : Type :=
| JNull
| JBool (b : bool)
| JNum (n : Z)
| JStr (s : string)
| JArr (items : list json)
| JObj (fields : list (string * json)).
#[local] Set Elimination Schemes.

(** JavaScript truthiness, as used by [||] and by [if (x)]. *)
Class Truthy (T : Type) := truthy : T -> bool.

#[export] Instance Truthy_bool : Truthy bool := fun b => b.
#[export] Instance Truthy_number : Truthy Z := fun n => negb (n =? 0).
#[export] Instance Truthy_string : Truthy string :=
  fun s => match s with EmptyString => false | String _ _ => true end.
(** [T | null] and [T | undefined]: the missing value is falsy. *)
#[export] Instance Truthy_nullable {T} `{Truthy T} : Truthy (option T) :=
  fun o => match o with Some v => truthy v | None => false end.
#[export] Instance Truthy_json : Truthy json :=
  fun v => match v with
           | JNull => false
           | JBool b => truthy b
           | JNum n => truthy n
           | JStr s => truthy s
           | JArr _ | JObj _ => true
           end.

(** [v === null] on a parsed JSON value. *)
Definition is_null (v : json) : bool :=
  match v with JNull => true | _ => false end.

(** [m.get(k) || null] where [m] is a [Map] of JSON values. *)
Definition or_null (o : option json) : json :=
  match o with
  | Some v => if truthy v then v else JNull
  | None => JNull
  end.

(** What a call can end with: a normal return or a thrown exception. *)
Inductive Error : Type :=
| TypeError               (* property access on [undefined] *)
| UnexpectedEndOfArray    (* lib0/decoding: a read past the buffer *)
| SyntaxError.            (* [JSON.parse] on a text that is not JSON *)

Inductive Completion (A : Type) : Type :=
| Normal (a : A)
| Throw (e : Error).
Arguments Normal {A} a.
Arguments Throw {A} e.

#[export] Instance Completion_ret : MRet Completion := fun A a => Normal a.
#[export] Instance Completion_bind : MBind Completion :=
  fun A B f c => match c with Normal a => f a | Throw e => Throw e end.

(* --------------------------------------------------------------------- *)
(** ** JSON text: [JSON.stringify] and [JSON.parse] *)
(* --------------------------------------------------------------------- *)

(** Modelled from the spec: the state payload of the wire format is
    "JSON-encoded application state, or the text null".  [JSON.stringify]
    and [JSON.parse] are built into the JavaScript engine and absent from the
    repository's files.  The model prints the compact text (no white space,
    the short escapes, [\u00XX] for the other control characters) and reads
    JSON text with optional white space between tokens.  Fractions,
    exponents and [\u] escapes above U+007F are outside the model. *)

Local Open Scope char_scope.

Definition hex_digit (n : N) : ascii :=
  match n with
  | 0 => "0" | 1 => "1" | 2 => "2" | 3 => "3" | 4 => "4" | 5 => "5" | 6 => "6"
  | 7 => "7" | 8 => "8" | 9 => "9" | 10 => "a" | 11 => "b" | 12 => "c"
  | 13 => "d" | 14 => "e" | _ => "f"
  end%N.

(** How a string literal spells one character. *)
Definition escape_char (c : ascii) : list ascii :=
  if c =? "034" then ["\"; "034"]
  else if c =? "\" then ["\"; "\"]
  else if c =? "008" then ["\"; "b"]
  else if c =? "009" then ["\"; "t"]
  else if c =? "010" then ["\"; "n"]
  else if c =? "012" then ["\"; "f"]
  else if c =? "013" then ["\"; "r"]
  else if (N_of_ascii c <? 32)%N then
    ["\"; "u"; "0"; "0"; hex_digit (N_of_ascii c / 16); hex_digit (N_of_ascii c mod 16)]
  else [c].

Definition JSON_print_string (s : string) : list ascii :=
  "034" :: flat_map escape_char (list_ascii_of_string s) ++ ["034"].

Fixpoint print_uint (d : Decimal.uint) : list ascii :=
  match d with
  | Decimal.Nil => []
  | Decimal.D0 d => "0" :: print_uint d
  | Decimal.D1 d => "1" :: print_uint d
  | Decimal.D2 d => "2" :: print_uint d
  | Decimal.D3 d => "3" :: print_uint d
  | Decimal.D4 d => "4" :: print_uint d
  | Decimal.D5 d => "5" :: print_uint d
  | Decimal.D6 d => "6" :: print_uint d
  | Decimal.D7 d => "7" :: print_uint d
  | Decimal.D8 d => "8" :: print_uint d
  | Decimal.D9 d => "9" :: print_uint d
  end.

Definition JSON_print_number (n : Z) : list ascii :=
  if (n <? 0)%Z then "-" :: print_uint (N.to_uint (Z.abs_N n))
  else print_uint (N.to_uint (Z.to_N n)).

(** The items of an array after the opening bracket, closing bracket
    included. *)
Definition print_items {A} (print : A -> list ascii) : list A -> list ascii :=
  fix go (items : list A) : list ascii :=
    match items with
    | [] => ["]"]
    | [v] => print v ++ ["]"]
    | v :: items' => print v ++ "," :: go items'
    end.

(** The properties of an object after the opening brace, closing brace
    included. *)
Definition print_fields {A} (print : A -> list ascii)
  : list (string * A) -> list ascii :=
  fix go (fields : list (string * A)) : list ascii :=
    match fields with
    | [] => ["}"]
    | [(k, v)] => JSON_print_string k ++ ":" :: print v ++ ["}"]
    | (k, v) :: fields' => JSON_print_string k ++ ":" :: print v ++ "," :: go fields'
    end.

Fixpoint JSON_print (v : json) : list ascii :=
  match v with
  | JNull => ["n"; "u"; "l"; "l"]
  | JBool true => ["t"; "r"; "u"; "e"]
  | JBool false => ["f"; "a"; "l"; "s"; "e"]
  | JNum n => JSON_print_number n
  | JStr s => JSON_print_string s
  | JArr items => "[" :: print_items JSON_print items
  | JObj fields => "{" :: print_fields JSON_print fields
  end.

(** [JSON.stringify(value)] *)
Definition JSON_stringify (v : json) : string :=
  string_of_list_ascii (JSON_print v).

Definition is_ws (c : ascii) : bool :=
  (c =? " ") || (c =? "009") || (c =? "010") || (c =? "013").

Fixpoint skip_ws (s : list ascii) : list ascii :=
  match s with
  | c :: r => if is_ws c then skip_ws r else s
  | [] => []
  end.

Definition digit (c : ascii) : option (Decimal.uint -> Decimal.uint) :=
  if c =? "0" then Some Decimal.D0 else if c =? "1" then Some Decimal.D1
  else if c =? "2" then Some Decimal.D2 else if c =? "3" then Some Decimal.D3
  else if c =? "4" then Some Decimal.D4 else if c =? "5" then Some Decimal.D5
  else if c =? "6" then Some Decimal.D6 else if c =? "7" then Some Decimal.D7
  else if c =? "8" then Some Decimal.D8 else if c =? "9" then Some Decimal.D9
  else None.

Definition is_digit (c : ascii) : bool :=
  match digit c with Some _ => true | None => false end.

Fixpoint read_digits (s : list ascii) : Decimal.uint * list ascii :=
  match s with
  | c :: r =>
      match digit c with
      | Some D => let '(d, r') := read_digits r in (D d, r')
      | None => (Decimal.Nil, s)
      end
  | [] => (Decimal.Nil, [])
  end.

(** An unsigned integer literal: at least one digit, no leading zero. *)
Definition parse_uint (s : list ascii) : option (N * list ascii) :=
  let '(d, r) := read_digits s in
  match d with
  | Decimal.Nil => None
  | _ =>
      if Decimal.uint_beq (Decimal.unorm d) d then Some (N.of_uint d, r) else None
  end.

Definition hex_value (c : ascii) : option N :=
  let n := N_of_ascii c in
  if ((48 <=? n) && (n <=? 57))%N then Some (n - 48)%N
  else if ((97 <=? n) && (n <=? 102))%N then Some (n - 87)%N
  else if ((65 <=? n) && (n <=? 70))%N then Some (n - 55)%N
  else None.

(** The characters of a string literal after its opening quote, up to and
    including the closing quote. *)
Fixpoint parse_chars (s : list ascii) : option (list ascii * list ascii) :=
  match s with
  | [] => None
  | c :: r =>
      if c =? "034" then Some ([], r)
      else if c =? "\" then
        match r with
        | e :: r1 =>
            let plain (x : ascii) :=
              match parse_chars r1 with
              | Some (cs, r') => Some (x :: cs, r')
              | None => None
              end in
            if e =? "034" then plain "034"
            else if e =? "\" then plain "\"
            else if e =? "/" then plain "/"
            else if e =? "b" then plain "008"
            else if e =? "t" then plain "009"
            else if e =? "n" then plain "010"
            else if e =? "f" then plain "012"
            else if e =? "r" then plain "013"
            else if e =? "u" then
              match r1 with
              | h1 :: h2 :: h3 :: h4 :: r2 =>
                  match hex_value h1, hex_value h2, hex_value h3, hex_value h4 with
                  | Some 0%N, Some 0%N, Some a, Some b =>
                      if (a <? 8)%N then
                        match parse_chars r2 with
                        | Some (cs, r') => Some (ascii_of_N (16 * a + b) :: cs, r')
                        | None => None
                        end
                      else None
                  | _, _, _, _ => None
                  end
              | _ => None
              end
            else None
        | [] => None
        end
      else if (N_of_ascii c <? 32)%N then None
      else
        match parse_chars r with
        | Some (cs, r') => Some (c :: cs, r')
        | None => None
        end
  end.

(** [expect lit s]: [s] without its prefix [lit]. *)
Fixpoint expect (lit s : list ascii) : option (list ascii) :=
  match lit, s with
  | [], _ => Some s
  | l :: lit', c :: s' => if l =? c then expect lit' s' else None
  | _ :: _, [] => None
  end.

(** The recursive-descent reader.  [fuel] bounds the nesting; the length of
    the text is always enough. *)
Fixpoint parse_value (fuel : nat) (s : list ascii) {struct fuel}
  : option (json * list ascii) :=
  match fuel with
  | O => None
  | S fuel =>
      match skip_ws s with
      | [] => None
      | c :: r =>
          if is_digit c then
            '(n, r') ← parse_uint (c :: r); Some (JNum (Z.of_N n), r')
          else if c =? "-" then
            '(n, r') ← parse_uint r; Some (JNum (- Z.of_N n), r')
          else if c =? "n" then
            r' ← expect ["u"; "l"; "l"] r; Some (JNull, r')
          else if c =? "t" then
            r' ← expect ["r"; "u"; "e"] r; Some (JBool true, r')
          else if c =? "f" then
            r' ← expect ["a"; "l"; "s"; "e"] r; Some (JBool false, r')
          else if c =? "034" then
            '(cs, r') ← parse_chars r; Some (JStr (string_of_list_ascii cs), r')
          else if c =? "[" then
            match expect ["]"] (skip_ws r) with
            | Some r' => Some (JArr [], r')
            | None => '(vs, r') ← parse_items fuel r; Some (JArr vs, r')
            end
          else if c =? "{" then
            match expect ["}"] (skip_ws r) with
            | Some r' => Some (JObj [], r')
            | None => '(fs, r') ← parse_fields fuel r; Some (JObj fs, r')
            end
          else None
      end
  end
with parse_items (fuel : nat) (s : list ascii) {struct fuel}
  : option (list json * list ascii) :=
  match fuel with
  | O => None
  | S fuel =>
      '(v, r) ← parse_value fuel s;
      match skip_ws r with
      | c :: r' =>
          if c =? "," then '(vs, r'') ← parse_items fuel r'; Some (v :: vs, r'')
          else if c =? "]" then Some ([v], r')
          else None
      | [] => None
      end
  end
with parse_fields (fuel : nat) (s : list ascii) {struct fuel}
  : option (list (string * json) * list ascii) :=
  match fuel with
  | O => None
  | S fuel =>
      match skip_ws s with
      | c :: r =>
          if c =? "034" then
            '(k, r1) ← parse_chars r;
            match skip_ws r1 with
            | c1 :: r2 =>
                if c1 =? ":" then
                  '(v, r3) ← parse_value fuel r2;
                  match skip_ws r3 with
                  | c3 :: r4 =>
                      if c3 =? "," then
                        '(fs, r5) ← parse_fields fuel r4;
                        Some ((string_of_list_ascii k, v) :: fs, r5)
                      else if c3 =? "}" then
                        Some ([(string_of_list_ascii k, v)], r4)
                      else None
                  | [] => None
                  end
                else None
            | [] => None
            end
          else None
      | [] => None
      end
  end.

(** [JSON.parse(text)]: the whole text must be one value. *)
Definition JSON_parse (text : string) : Completion json :=
  let s := list_ascii_of_string text in
  match parse_value (length s) s with
  | Some (v, r) =>
      match skip_ws r with
      | [] => Normal v
      | _ :: _ => Throw SyntaxError
      end
  | None => Throw SyntaxError
  end.

Local Close Scope char_scope.

(* --------------------------------------------------------------------- *)
(** ** lib0: variable-length integers and strings *)
(* --------------------------------------------------------------------- *)

Local Open Scope N_scope.

(** A store into a [Uint8Array] keeps the low eight bits. *)
Definition to_byte (n : N) : byte :=
  default x00 (Byte.of_N (n mod 256)).

(** Modelled from the spec: [encoding.writeVarUint] of lib0 (an external
    package, absent from the repository's files), "little-endian
    variable-length integers": seven bits per byte, least significant group
    first, the top bit set on every byte but the last.  The result is what
    the call appends to the encoder.  [fuel] bounds the iterations of the
    loop. *)
Fixpoint writeVarUint_loop (fuel : nat) (num : N) : list byte :=
  match fuel with
  | S fuel' =>
      if 127 <? num
      then to_byte (N.lor 128 (N.land 127 num)) :: writeVarUint_loop fuel' (num / 128)
      else [to_byte (N.land 127 num)]
  | O => [to_byte (N.land 127 num)]
  end.

Definition writeVarUint (num : N) : list byte :=
  writeVarUint_loop (N.to_nat (N.log2 num)) num.

(** Modelled from the spec: [decoding.readVarUint] of lib0; the decoder is
    the list of bytes not read yet, a read past its end throws ("truncated
    varints" are rejected). *)
Fixpoint readVarUint_loop (arr : list byte) (num mult : N)
  : Completion (N * list byte) :=
  match arr with
  | [] => Throw UnexpectedEndOfArray
  | r :: arr' =>
      let num := num + N.land (Byte.to_N r) 127 * mult in
      if Byte.to_N r <? 128 then Normal (num, arr')
      else readVarUint_loop arr' num (mult * 128)
  end.

Definition readVarUint (arr : list byte) : Completion (N * list byte) :=
  readVarUint_loop arr 0 1.

(** Modelled from the spec: [encoding.writeVarString] of lib0,
    "length-prefixed UTF-8 text"; a string is its UTF-8 bytes. *)
Definition writeVarString (str : string) : list byte :=
  let bytes := list_byte_of_string str in
  writeVarUint (N.of_nat (length bytes)) ++ bytes.

(** Modelled from the spec: [decoding.readVarString] of lib0. *)
Definition readVarString (arr : list byte) : Completion (string * list byte) :=
  '(len, arr') ← readVarUint arr;
  if N.of_nat (length arr') <? len then Throw UnexpectedEndOfArray
  else Normal (string_of_list_byte (take (N.to_nat len) arr'),
               drop (N.to_nat len) arr').

Local Close Scope N_scope.

(* --------------------------------------------------------------------- *)
(** ** JavaScript numbers: [x + 1] *)
(* --------------------------------------------------------------------- *)

Module Double.

(** Below [limit] = 2^53 every integer is a double and [x + 1] is exact. *)
Definition limit : N := 2 ^ 53.

(** [x + 1] and [x++] on a number that holds a non-negative integer: the
    sum of IEEE 754 binary64, rounded to nearest, ties to even.  Below 2^53
    the sum is exact.  From 2^53 up to 2^54 the doubles are the even
    integers, [x + 1] lies halfway between [x] and [x + 2], and the tie goes
    to the one whose significand is even: to [x] when [x] is a multiple of
    4, to [x + 2] otherwise.  From 2^54 on the doubles are 4 or more apart
    and the sum rounds back to [x].  (An odd integer from 2^53 on is no
    double; no number holds it, and it is left as it is.) *)
Definition succ (x : N) : N :=
  (if x <? limit then x + 1
   else if (x <? 2 * limit) && (x mod 4 =? 2) then x + 2
   else x)%N.

(** The same on a number that holds an integer of either sign. *)
Definition succZ (x : Z) : Z :=
  (if (- Z.of_N limit <=? x) && (x <? Z.of_N limit) then x + 1
   else if (- (2 * Z.of_N limit) <=? x) && (x <? 2 * Z.of_N limit) && (x mod 4 =? 2)
        then x + 2
   else x)%Z.

Arguments succ : simpl never.
Arguments succZ : simpl never.

End Double.

(* --------------------------------------------------------------------- *)
(** ** [llw-register.ts] *)
(* --------------------------------------------------------------------- *)

(** [interface IState<T>] *)
Record IState (T : Type) : Type := mkIState {
  peer : string;
  timestamp : Z;
  value : T;
}.
Arguments mkIState {T} peer timestamp value.
Arguments peer {T} _.
Arguments timestamp {T} _.
Arguments value {T} _.

Module LWWRegister.

(** [class LWWRegister<T>]: the read-only [id] and the mutable [state]. *)
Record t (T : Type) : Type := new {
  id : string;
  state : IState T;
}.
Arguments new {T} id state.
Arguments id {T} _.
Arguments state {T} _.

(** [get value()] *)
Definition get_value {T} (r : t T) : T := value (state r).

(** [set(value)] *)
Definition set {T} (r : t T) (v : T) : t T :=
  new (id r) (mkIState (id r) (Double.succZ (timestamp (state r))) v).

(** [merge(state)] *)
Definition merge {T} (r : t T) (remote : IState T) : t T :=
  let remotePeer := peer remote in
  let remoteTimestamp := timestamp remote in
  let localPeer := peer (state r) in
  let localTimestamp := timestamp (state r) in
  if localTimestamp >? remoteTimestamp then r
  else if (localTimestamp =? remoteTimestamp)
          && negb (String.eqb remotePeer localPeer) then r
  else new (id r) remote.

End LWWRegister.

(* --------------------------------------------------------------------- *)
(** ** The keyed register map ([class LWWMap<T>]) *)
(* --------------------------------------------------------------------- *)

Module LWWMap.

(** [private data = new Map<string, LWWRegister<T | null>>()] together with
    the constructor parameter [id].  [None] is the tombstone [null]. *)
Record t (T : Type) : Type := mk {
  id : string;
  data : gmap string (LWWRegister.t (option T));
}.
Arguments mk {T} id data.
Arguments id {T} _.
Arguments data {T} _.

(** [constructor(id, state)]: one register per entry of [state]. *)
Definition new {T} (id : string) (state : gmap string (IState (option T))) : t T :=
  mk id (LWWRegister.new id <$> state).

(** What [obj[key] = ...] leaves of the entries of a [Map] when it fills a
    plain object [{}] with them: one own property per key, except for the
    key [__proto__].  That key names the accessor of [Object.prototype]; the
    assignment calls its setter (which changes the prototype when the
    assigned value is an object or [null], and does nothing otherwise) and
    creates no own property.  The model keeps the own properties, which are
    what [Object.entries], a spread and [JSON.stringify] see; it does not
    follow the prototype. *)
Definition own_properties {V} (entries : gmap string V) : gmap string V :=
  base.delete "__proto__"%string entries.

(** [get value()]: the own properties of the returned object, one for each
    key whose register is not [null]. *)
Definition get_value {T} (m : t T) : gmap string T :=
  omap LWWRegister.get_value (own_properties (data m)).

(** [get state()]: the own properties of the returned object, which are
    what [Object.entries] in the constructor and in [merge] goes through. *)
Definition get_state {T} (m : t T) : gmap string (IState (option T)) :=
  LWWRegister.state <$> own_properties (data m).

(** [merge(state)] *)
Definition merge {T} (m : t T) (state : gmap string (IState (option T))) : t T :=
  mk (id m)
     (base.merge
        (fun local remote =>
           match local, remote with
           | Some l, Some r => Some (LWWRegister.merge l r)
           | None, Some r => Some (LWWRegister.new (id m) r)
           | l, None => l
           end)
        (data m) state).

(** [set(key, value)] *)
Definition set {T} (m : t T) (key : string) (v : T) : t T :=
  match data m !! key with
  | Some register => mk (id m) (<[key := LWWRegister.set register (Some v)]> (data m))
  | None =>
      mk (id m)
         (<[key := LWWRegister.new (id m) (mkIState (id m) 1 (Some v))]> (data m))
  end.

(** [get(key)]: [this.data.get(key)?.value || undefined]; the result [None]
    is [undefined]. *)
Definition get {T} `{Truthy T} (m : t T) (key : string) : option T :=
  match data m !! key with
  | Some register =>
      let v := LWWRegister.get_value register in
      if truthy v then v else None
  | None => None
  end.

(** [delete(key)]: [this.data.get(key)?.set(null)] *)
Definition delete {T} (m : t T) (key : string) : t T :=
  match data m !! key with
  | Some register => mk (id m) (<[key := LWWRegister.set register None]> (data m))
  | None => m
  end.

(** [has(key)]: [this.data.get(key)?.value !== null].  On a missing key the
    optional chain yields [undefined], and [undefined !== null] holds. *)
Definition has {T} (m : t T) (key : string) : bool :=
  match data m !! key with
  | Some register =>
      match LWWRegister.get_value register with Some _ => true | None => false end
  | None => true
  end.

End LWWMap.

(* --------------------------------------------------------------------- *)
(** ** [awareness.js]: the store *)
(* --------------------------------------------------------------------- *)

Local Open Scope N_scope.

Definition outdatedTimeout : N := 30000.

(** [@typedef MetaClientState] *)
Record MetaClientState : Type := mkMeta {
  clock : N;
  lastUpdated : N;
}.

(** The fields of [class Awareness] that the protocol reads and writes:
    [clientID] (taken from [doc.clientID]), [states] and [meta]. *)
Record Awareness : Type := mkAwareness {
  clientID : N;
  states : gmap N json;
  meta : gmap N MetaClientState;
}.

(** The payload of the two notifications, [{ added, updated, removed }]. *)
Record Changes : Type := mkChanges {
  added : list N;
  updated : list N;
  removed : list N;
}.

(** [this.emit(name, [payload, origin])]; the listeners are outside the
    model, a call returns the events it emitted, in order. *)
Inductive Event : Type :=
| Change (payload : Changes) (origin : string)
| Update (payload : Changes) (origin : string).

(** The four local arrays [added], [updated], [filteredUpdated], [removed]
    that [setLocalState] and [applyAwarenessUpdate] fill. *)
Record Classified : Type := mkClassified {
  c_added : list N;
  c_updated : list N;
  c_filteredUpdated : list N;
  c_removed : list N;
}.

Definition no_changes : Classified := mkClassified [] [] [] [].

Definition push_added (c : Classified) (x : N) : Classified :=
  mkClassified (c_added c ++ [x]) (c_updated c) (c_filteredUpdated c) (c_removed c).
Definition push_updated (c : Classified) (x : N) : Classified :=
  mkClassified (c_added c) (c_updated c ++ [x]) (c_filteredUpdated c) (c_removed c).
Definition push_filteredUpdated (c : Classified) (x : N) : Classified :=
  mkClassified (c_added c) (c_updated c) (c_filteredUpdated c ++ [x]) (c_removed c).
Definition push_removed (c : Classified) (x : N) : Classified :=
  mkClassified (c_added c) (c_updated c) (c_filteredUpdated c) (c_removed c ++ [x]).

(** [map.has(key)] on a JavaScript [Map]. *)
Definition Map_has {V} (m : gmap N V) (key : N) : bool :=
  match m !! key with Some _ => true | None => false end.

(** [arr.length > 0] *)
Definition nonempty {A} (l : list A) : bool :=
  match l with [] => false | _ :: _ => true end.

(** Modelled from the spec: [f.equalityDeep] of lib0 (an external package,
    absent from the repository's files), "deep structural equality": equal
    primitives, arrays equal item by item, objects with the same number of
    properties whose every property of the first is equal in the second. *)
Fixpoint equalityDeep (a b : json) {struct a} : bool :=
  match a, b with
  | JNull, JNull => true
  | JBool x, JBool y => Bool.eqb x y
  | JNum x, JNum y => (x =? y)%Z
  | JStr x, JStr y => String.eqb x y
  | JArr xs, JArr ys =>
      (fix items (xs ys : list json) {struct xs} : bool :=
         match xs, ys with
         | [], [] => true
         | x :: xs', y :: ys' => equalityDeep x y && items xs' ys'
         | _, _ => false
         end) xs ys
  | JObj fa, JObj fb =>
      (length fa =? length fb)%nat
      && (fix props (fa : list (string * json)) {struct fa} : bool :=
            match fa with
            | [] => true
            | (key, va) :: fa' =>
                match List.find (fun kv => String.eqb (fst kv) key) fb with
                | Some (_, vb) => equalityDeep va vb && props fa'
                | None => false
                end
            end) fa
  | _, _ => false
  end.

(** [getLocalState()]: [this.states.get(this.clientID) || null] *)
Definition getLocalState (aw : Awareness) : json :=
  or_null (states aw !! clientID aw).

(** [setLocalState(state)]; [now] is what [time.getUnixTime()] returns. *)
Definition setLocalState (aw : Awareness) (state : json) (now : N)
  : Awareness * list Event :=
  let clientID := clientID aw in
  let currLocalMeta := meta aw !! clientID in
  let clock := match currLocalMeta with
               | None => 0
               | Some m => Double.succ (clock m)
               end in
  let prevState := states aw !! clientID in
  let states' := if is_null state
                 then delete clientID (states aw)
                 else <[clientID := state]> (states aw) in
  let meta' := <[clientID := mkMeta clock now]> (meta aw) in
  let c :=
    if is_null state then push_removed no_changes clientID
    else match prevState with
         | None | Some JNull => push_added no_changes clientID
         | Some prev =>
             let c := push_updated no_changes clientID in
             if negb (equalityDeep prev state)
             then push_filteredUpdated c clientID
             else c
         end in
  let change :=
    if nonempty (c_added c) || nonempty (c_filteredUpdated c) || nonempty (c_removed c)
    then [Change (mkChanges (c_added c) (c_filteredUpdated c) (c_removed c)) "local"]
    else [] in
  (mkAwareness clientID states' meta',
   change ++ [Update (mkChanges (c_added c) (c_updated c) (c_removed c)) "local"]).

(** [new Awareness(doc)]: empty maps, then [this.setLocalState({})]. *)
Definition newAwareness (docClientID : N) (now : N) : Awareness :=
  fst (setLocalState (mkAwareness docClientID ∅ ∅) (JObj []) now).

(** The loop of [removeAwarenessStates].  The entry is deleted first; for
    the local client the meta entry is then read ([curMeta.clock] throws on
    [undefined]) and rewritten. *)
Fixpoint removeAwarenessStates_loop (aw : Awareness) (clients : list N)
    (now : N) (removed : list N) : Awareness * Completion (list N) :=
  let localID := clientID aw in
  match clients with
  | [] => (aw, Normal removed)
  | clientID :: rest =>
      if Map_has (states aw) clientID then
        let aw1 := mkAwareness localID (delete clientID (states aw)) (meta aw) in
        if clientID =? localID then
          match meta aw1 !! clientID with
          | Some curMeta =>
              let aw2 :=
                mkAwareness localID (states aw1)
                  (<[clientID := mkMeta (Double.succ (clock curMeta)) now]> (meta aw1)) in
              removeAwarenessStates_loop aw2 rest now (removed ++ [clientID])
          | None => (aw1, Throw TypeError)
          end
        else removeAwarenessStates_loop aw1 rest now (removed ++ [clientID])
      else removeAwarenessStates_loop aw rest now removed
  end.

(** [removeAwarenessStates(awareness, clients, origin)] *)
Definition removeAwarenessStates (aw : Awareness) (clients : list N)
    (origin : string) (now : N) : Awareness * Completion (list Event) :=
  match removeAwarenessStates_loop aw clients now [] with
  | (aw', Normal removed) =>
      (aw',
       Normal (if nonempty removed
               then [Change (mkChanges [] [] removed) origin;
                     Update (mkChanges [] [] removed) origin]
               else []))
  | (aw', Throw e) => (aw', Throw e)
  end.

(** The test of the sweep in the timer callback: a remote peer with a
    [states] entry whose [lastUpdated] is [outdatedTimeout] or more behind
    [now].  The callback meets only peers that have a [meta] entry. *)
Definition outdated (aw : Awareness) (now : N) (clientid : N) : bool :=
  match meta aw !! clientid with
  | Some meta =>
      negb (clientid =? clientID aw)
      && (Z.of_N outdatedTimeout <=? Z.of_N now - Z.of_N (lastUpdated meta))%Z
      && Map_has (states aw) clientid
  | None => false
  end.

(** The callback that the constructor hands to [setInterval].  [order] is
    the order in which [this.meta.forEach] visits the keys: a JavaScript
    [Map] iterates in insertion order, which the finite map does not
    record.  The reads of the clock within one run return the same [now]. *)
Definition checkInterval (aw : Awareness) (order : list N) (now : N)
  : Awareness * Completion (list Event) :=
  let renew : Completion bool :=
    if negb (is_null (getLocalState aw)) then
      match meta aw !! clientID aw with
      | Some meta =>
          Normal (Z.of_N outdatedTimeout / 2
                  <=? Z.of_N now - Z.of_N (lastUpdated meta))%Z
      | None => Throw TypeError
      end
    else Normal false in
  match renew with
  | Normal renew =>
      let '(aw1, renewed) :=
        if renew then setLocalState aw (getLocalState aw) now else (aw, []) in
      let remove := List.filter (outdated aw1 now) order in
      if nonempty remove then
        match removeAwarenessStates aw1 remove "timeout" now with
        | (aw2, Normal evicted) => (aw2, Normal (renewed ++ evicted))
        | (aw2, Throw e) => (aw2, Throw e)
        end
      else (aw1, Normal renewed)
  | Throw e => (aw, Throw e)
  end.

(** [clientMeta === undefined ? 0 : clientMeta.clock] *)
Definition clock_or_zero (clientMeta : option MetaClientState) : N :=
  match clientMeta with
  | None => 0
  | Some m => clock m
  end.

(** [f.equalityDeep(state, prevState)] when [prevState] comes from
    [states.get] and may be [undefined]; [state] is not [null] there. *)
Definition equalityDeep_get (state : json) (prevState : option json) : bool :=
  match prevState with
  | Some prev => equalityDeep state prev
  | None => false
  end.

(** One decoded entry [(clientID, clock, state)] of an update: the body of
    the loop of [applyAwarenessUpdate] after the three reads.  [timestamp]
    is the [time.getUnixTime()] taken before the loop. *)
Definition applyAwarenessUpdate_entry (timestamp : N) (aw : Awareness)
    (c : Classified) (entry : N * N * json) : Awareness * Classified :=
  let localID := clientID aw in
  let '(clientID, clock, state) := entry in
  let clientMeta := meta aw !! clientID in
  let prevState := states aw !! clientID in
  let currClock := clock_or_zero clientMeta in
  if (currClock <? clock)
     || ((currClock =? clock) && is_null state && Map_has (states aw) clientID)
  then
    let '(clock, states') :=
      if is_null state then
        if (clientID =? localID) && negb (is_null (getLocalState aw))
        then (Double.succ clock, states aw)
        else (clock, delete clientID (states aw))
      else (clock, <[clientID := state]> (states aw)) in
    let aw' := mkAwareness localID states'
                 (<[clientID := mkMeta clock timestamp]> (meta aw)) in
    let c' :=
      if negb (bool_decide (is_Some clientMeta)) && negb (is_null state)
      then push_added c clientID
      else if bool_decide (is_Some clientMeta) && is_null state
      then push_removed c clientID
      else if negb (is_null state)
      then
        let c1 := if negb (equalityDeep_get state prevState)
                  then push_filteredUpdated c clientID
                  else c in
        push_updated c1 clientID
      else c in
    (aw', c')
  else (aw, c).

(** The two [emit] calls that end [applyAwarenessUpdate]. *)
Definition applyAwarenessUpdate_emit (c : Classified) (origin : string) : list Event :=
  (if nonempty (c_added c) || nonempty (c_filteredUpdated c) || nonempty (c_removed c)
   then [Change (mkChanges (c_added c) (c_filteredUpdated c) (c_removed c)) origin]
   else [])
  ++
  (if nonempty (c_added c) || nonempty (c_updated c) || nonempty (c_removed c)
   then [Update (mkChanges (c_added c) (c_updated c) (c_removed c)) origin]
   else []).

(* --------------------------------------------------------------------- *)
(** ** [awareness.js]: the wire format *)
(* --------------------------------------------------------------------- *)

(** The body of the loop of [encodeAwarenessUpdate]; [.clock] on a missing
    meta entry throws. *)
Fixpoint encodeAwarenessUpdate_loop (aw : Awareness) (states : gmap N json)
    (clients : list N) : Completion (list byte) :=
  match clients with
  | [] => Normal []
  | clientID :: rest =>
      let state := or_null (states !! clientID) in
      match meta aw !! clientID with
      | Some m =>
          let clock := clock m in
          bytes ← encodeAwarenessUpdate_loop aw states rest;
          Normal (writeVarUint clientID ++ writeVarUint clock
                  ++ writeVarString (JSON_stringify state) ++ bytes)
      | None => Throw TypeError
      end
  end.

(** [encodeAwarenessUpdate(awareness, clients, states)] *)
Definition encodeAwarenessUpdate (aw : Awareness) (clients : list N)
    (states : gmap N json) : Completion (list byte) :=
  let len := N.of_nat (length clients) in
  bytes ← encodeAwarenessUpdate_loop aw states clients;
  Normal (writeVarUint len ++ bytes).

(** [encodeAwarenessUpdate(awareness, clients)]: the third parameter
    defaults to [awareness.states]. *)
Definition encodeAwarenessUpdate_default (aw : Awareness) (clients : list N)
  : Completion (list byte) :=
  encodeAwarenessUpdate aw clients (states aw).

(** The three reads that open the loop bodies of [modifyAwarenessUpdate] and
    [applyAwarenessUpdate]: [clientID], [clock], and the parsed [state]. *)
Definition readEntry (decoder : list byte) : Completion ((N * N * json) * list byte) :=
  '(clientID, decoder) ← readVarUint decoder;
  '(clock, decoder) ← readVarUint decoder;
  '(text, decoder) ← readVarString decoder;
  state ← JSON_parse text;
  Normal ((clientID, clock, state), decoder).

(** The loop of [modifyAwarenessUpdate]. *)
Fixpoint modifyAwarenessUpdate_loop (len : nat) (decoder : list byte)
    (modify : json -> json) : Completion (list byte) :=
  match len with
  | O => Normal []
  | S len' =>
      '((clientID, clock, state), decoder) ← readEntry decoder;
      let modifiedState := modify state in
      bytes ← modifyAwarenessUpdate_loop len' decoder modify;
      Normal (writeVarUint clientID ++ writeVarUint clock
              ++ writeVarString (JSON_stringify modifiedState) ++ bytes)
  end.

(** [modifyAwarenessUpdate(update, modify)] *)
Definition modifyAwarenessUpdate (update : list byte) (modify : json -> json)
  : Completion (list byte) :=
  '(len, decoder) ← readVarUint update;
  bytes ← modifyAwarenessUpdate_loop (N.to_nat len) decoder modify;
  Normal (writeVarUint len ++ bytes).

(** The loop of [applyAwarenessUpdate].  A read that throws leaves the
    entries merged so far in the store. *)
Fixpoint applyAwarenessUpdate_loop (len : nat) (timestamp : N) (aw : Awareness)
    (c : Classified) (decoder : list byte) : Awareness * Completion Classified :=
  match len with
  | O => (aw, Normal c)
  | S len' =>
      match readEntry decoder with
      | Normal (entry, decoder') =>
          let '(aw', c') := applyAwarenessUpdate_entry timestamp aw c entry in
          applyAwarenessUpdate_loop len' timestamp aw' c' decoder'
      | Throw e => (aw, Throw e)
      end
  end.

(** [applyAwarenessUpdate(awareness, update, origin)]; [timestamp] is what
    [time.getUnixTime()] returns. *)
Definition applyAwarenessUpdate (aw : Awareness) (update : list byte)
    (origin : string) (timestamp : N) : Awareness * Completion (list Event) :=
  match readVarUint update with
  | Normal (len, decoder) =>
      match applyAwarenessUpdate_loop (N.to_nat len) timestamp aw no_changes decoder with
      | (aw', Normal c) => (aw', Normal (applyAwarenessUpdate_emit c origin))
      | (aw', Throw e) => (aw', Throw e)
      end
  | Throw e => (aw, Throw e)
  end.

(** The entries that the loop of [applyAwarenessUpdate] reads from an
    update, without the merge: the decoding half of the wire format. *)
Fixpoint decodeAwarenessUpdate_loop (len : nat) (decoder : list byte)
  : Completion (list (N * N * json)) :=
  match len with
  | O => Normal []
  | S len' =>
      '(entry, decoder) ← readEntry decoder;
      entries ← decodeAwarenessUpdate_loop len' decoder;
      Normal (entry :: entries)
  end.

Definition decodeAwarenessUpdate (update : list byte)
  : Completion (list (N * N * json)) :=
  '(len, decoder) ← readVarUint update;
  decodeAwarenessUpdate_loop (N.to_nat len) decoder.

(** The merge of a list of decoded entries, in order. *)
Definition applyEntries (timestamp : N) (aw : Awareness) (c : Classified)
    (entries : list (N * N * json)) : Awareness * Classified :=
  fold_left (fun '(aw, c) entry => applyAwarenessUpdate_entry timestamp aw c entry)
            entries (aw, c).
Arguments applyEntries : simpl never.

(** The entries that the loop gets to read: the reads succeed one after the
    other until the count is reached or a read throws. *)
Fixpoint entries_read (len : nat) (decoder : list byte) : list (N * N * json) :=
  match len with
  | O => []
  | S len' =>
      match readEntry decoder with
      | Normal (entry, decoder') => entry :: entries_read len' decoder'
      | Throw _ => []
      end
  end.

(* --------------------------------------------------------------------- *)
(** ** [awareness.js]: the remaining methods of the class *)
(* --------------------------------------------------------------------- *)

(** [getStates()] *)
Definition getStates (aw : Awareness) : gmap N json := states aw.

(** The object literal [{ ...state, [field]: value }] of
    [setLocalStateField].  An object is the list of its own properties in
    the order in which the language enumerates them: first the keys that
    are array indices, in ascending order, then the other keys in the order
    of their creation. *)

(** An array index: the decimal text, without leading zero, of an integer
    below 2^32 - 1. *)
Definition array_index (key : string) : option N :=
  match parse_uint (list_ascii_of_string key) with
  | Some (n, []) => if n <? 2 ^ 32 - 1 then Some n else None
  | _ => None
  end.

(** The key of the item [i] of an array or of a string. *)
Definition index_key (i : nat) : string :=
  string_of_list_ascii (print_uint (N.to_uint (N.of_nat i))).

Definition has_property (props : list (string * json)) (key : string) : bool :=
  existsb (fun kv => String.eqb (fst kv) key) props.

Fixpoint replace_property (props : list (string * json)) (key : string) (v : json)
  : list (string * json) :=
  match props with
  | [] => []
  | (k, x) :: props' =>
      if String.eqb k key then (k, v) :: props'
      else (k, x) :: replace_property props' key v
  end.

(** A new array index goes before the first key that is no array index or
    is a larger one. *)
Fixpoint insert_index (props : list (string * json)) (i : N) (key : string) (v : json)
  : list (string * json) :=
  match props with
  | [] => [(key, v)]
  | (k, x) :: props' =>
      match array_index k with
      | Some j =>
          if j <? i then (k, x) :: insert_index props' i key v
          else (key, v) :: (k, x) :: props'
      | None => (key, v) :: (k, x) :: props'
      end
  end.

(** [CreateDataProperty(obj, key, v)], which both the spread and the
    computed key [[field]: value] come down to: an existing property gets
    the value and keeps its place, a new one is created.  (No key is special
    here: [__proto__] is an own property like any other.) *)
Definition CreateDataProperty (props : list (string * json)) (key : string) (v : json)
  : list (string * json) :=
  if has_property props key then replace_property props key v
  else match array_index key with
       | Some i => insert_index props i key v
       | None => props ++ [(key, v)]
       end.

(** The own enumerable properties that the spread [...source] copies: the
    properties of an object, the items of an array, the characters of a
    string, nothing of a number or a boolean.  [None]: the string has a
    character beyond ASCII; the spread lists UTF-16 code units, which the
    strings of the model (UTF-8 bytes) do not hold. *)
Definition own_enumerable (source : json) : option (list (string * json)) :=
  match source with
  | JObj fields => Some fields
  | JArr items => Some (imap (fun i item => (index_key i, item)) items)
  | JStr s =>
      let chars := list_ascii_of_string s in
      if forallb (fun c => N_of_ascii c <? 128) chars
      then Some (imap (fun i c => (index_key i, JStr (String c EmptyString))) chars)
      else None
  | JNull | JBool _ | JNum _ => Some []
  end.

(** [{ ...state, [field]: value }] *)
Definition object_literal (state : json) (field : string) (value : json) : option json :=
  props ← own_enumerable state;
  Some (JObj (CreateDataProperty
                (fold_left (fun obj '(key, v) => CreateDataProperty obj key v) props [])
                field value)).

(** [setLocalStateField(field, value)]; [None] when the object literal is
    outside the model. *)
Definition setLocalStateField (aw : Awareness) (field : string) (value : json) (now : N)
  : option (Awareness * list Event) :=
  let state := getLocalState aw in
  if negb (is_null state)
  then literal ← object_literal state field value;
       Some (setLocalState aw literal now)
  else Some (aw, []).

(** What [destroy()] emits: the [destroy] event, then the events of
    [setLocalState(null)]. *)
Inductive Emitted : Type :=
| Destroyed
| Notified (event : Event).

(** [destroy()].  Dropping the listeners ([super.destroy()]) and stopping the
    timer ([clearInterval]) are outside the model: the listeners are not
    modelled and the timer is the caller of [checkInterval]. *)
Definition destroy (aw : Awareness) (now : N) : Awareness * list Emitted :=
  let '(aw', events) := setLocalState aw JNull now in
  (aw', Destroyed :: map Notified events).

(* --------------------------------------------------------------------- *)
(** ** Vocabulary of the statements *)
(* --------------------------------------------------------------------- *)

(** A peer is Online in a store when it has a [states] entry. *)
Definition online (aw : Awareness) (id : N) : Prop :=
  is_Some (states aw !! id).

(** The clock a store knows for a peer; a missing [meta] entry counts as 0. *)
Definition localClock (aw : Awareness) (id : N) : N :=
  clock_or_zero (meta aw !! id).

(** The invariant of the data model: the two maps stay in lockstep, a peer
    with a [states] entry has a [meta] entry. *)
Definition lockstep (aw : Awareness) : Prop :=
  forall id, online aw id -> is_Some (meta aw !! id).

(** When an entry of a remote update is accepted, in the words of the
    protocol: the remote clock is newer, or it is the same clock, the remote
    state is [null] and the peer is Online. *)
Definition accepts (aw : Awareness) (entry : N * N * json) : Prop :=
  let '(id, remoteClock, remoteState) := entry in
  (localClock aw id < remoteClock
   \/ (localClock aw id = remoteClock /\ remoteState = JNull /\ online aw id))%N.

(** Acceptance is decidable. *)
#[local] Instance json_null_dec (v : json) : Decision (v = JNull).
Proof. destruct v; (by left) || (by right). Defined.

#[local] Instance accepts_dec aw entry : Decision (accepts aw entry).
Proof.
  destruct entry as [[id remoteClock] remoteState]. unfold accepts, online. apply _.
Defined.

(** The tuple that an update carries for a peer of a store. *)
Definition wire_entry (aw : Awareness) (states : gmap N json) (id : N)
  : N * N * json :=
  (id, localClock aw id, or_null (states !! id)).

(** A store with an empty object, a nested object and an Offline peer:
    client 1 after it heard of peer 2 (a nested state, clock 4) and of the
    removal of peer 3 (clock 2). *)
Definition sample_store : Awareness :=
  fst (applyEntries 9 (newAwareness 1 0) no_changes
         [(2, 4, JObj [("a"%string, JObj [("b"%string, JArr [JNum 1; JNull])])]);
          (3, 2, JNull)]).

(** A text is delimited when it does not go on with a digit: a number that
    ends where such a text starts is read whole. *)
Definition delimited (rest : list ascii) : Prop :=
  match rest with
  | [] => True
  | c :: _ => digit c = None
  end.

(** A value reads back: its printed text, followed by a delimited text, is
    read as the value and leaves what follows. *)
Definition reads_back (v : json) : Prop :=
  forall fuel rest,
    (length (JSON_print v) <= fuel)%nat -> delimited rest ->
    parse_value fuel (JSON_print v ++ rest) = Some (v, rest).

(** One operation on a store: a call of a method of the class, of one of
    the exported functions, or a run of the timer callback. *)
Inductive step (aw : Awareness) : Awareness -> Prop :=
| step_setLocalState state now :
    step aw (fst (setLocalState aw state now))
| step_setLocalStateField field value now result :
    setLocalStateField aw field value now = Some result ->
    step aw (fst result)
| step_destroy now :
    step aw (fst (destroy aw now))
| step_checkInterval order now :
    step aw (fst (checkInterval aw order now))
| step_removeAwarenessStates clients origin now :
    step aw (fst (removeAwarenessStates aw clients origin now))
| step_applyAwarenessUpdate update origin timestamp :
    step aw (fst (applyAwarenessUpdate aw update origin timestamp)).

(** A JSON value as a JavaScript program holds it: no object has the same
    key twice. *)
Fixpoint unique_keys (v : json) : Prop :=
  match v with
  | JArr items =>
      (fix all (items : list json) : Prop :=
         match items with
         | [] => True
         | item :: items' => unique_keys item /\ all items'
         end) items
  | JObj fields =>
      NoDup (map fst fields)
      /\ (fix all (fields : list (string * json)) : Prop :=
            match fields with
            | [] => True
            | (_, value) :: fields' => unique_keys value /\ all fields'
            end) fields
  | _ => True
  end.

(** The bytes that the loops of [encodeAwarenessUpdate] and
    [modifyAwarenessUpdate] write for one entry, and the update that carries
    a list of entries. *)
Definition writeEntry (entry : N * N * json) : list byte :=
  let '(clientID, clock, state) := entry in
  writeVarUint clientID ++ writeVarUint clock ++ writeVarString (JSON_stringify state).

Definition writeUpdate (entries : list (N * N * json)) : list byte :=
  writeVarUint (N.of_nat (length entries)) ++ flat_map writeEntry entries.

(** Every register of a map carries the id of the map. *)
Definition registers_signed {T} (m : LWWMap.t T) : Prop :=
  forall key register,
    LWWMap.data m !! key = Some register -> LWWRegister.id register = LWWMap.id m.

(** Two entries are versions of different things when they name different
    peers or carry different clocks. *)
Definition distinct_versions (e1 e2 : N * N * json) : Prop :=
  e1.1.1 <> e2.1.1 \/ e1.1.2 <> e2.1.2.

(** The stores a program can hold: what the constructor returns, and what
    the operations make of it. *)
Inductive reachable : Awareness -> Prop :=
| reachable_new docClientID now : reachable (newAwareness docClientID now)
| reachable_step aw aw' : reachable aw -> step aw aw' -> reachable aw'.

(** A store grows into another: the same local client, every peer that had
    a [meta] entry keeps one, and no clock goes down. *)
Definition grows (aw aw' : Awareness) : Prop :=
  clientID aw' = clientID aw
  /\ forall id,
      (is_Some (meta aw !! id) -> is_Some (meta aw' !! id))
      /\ (localClock aw id <= localClock aw' id)%N.

(** The test of the renewal in the timer callback: the local state is not
    [null] and the local [lastUpdated] is half of [outdatedTimeout] or more
    behind [now]. *)
Definition renewal_due (aw : Awareness) (now : N) : bool :=
  negb (is_null (getLocalState aw))
  && match meta aw !! clientID aw with
     | Some meta =>
         (Z.of_N outdatedTimeout / 2 <=? Z.of_N now - Z.of_N (lastUpdated meta))%Z
     | None => false
     end.

(** The clocks of a store: [meta] without the times of arrival. *)
Definition clocks (aw : Awareness) : gmap N N := clock <$> meta aw.

(** Two stores show the same: the same local client, the same [states] and
    the same clocks; the times of arrival may differ. *)
Definition same_view (aw aw' : Awareness) : Prop :=
  clientID aw = clientID aw' /\ states aw = states aw' /\ clocks aw = clocks aw'.

(** The entries that [applyAwarenessUpdate] gets to merge from an update:
    those it reads before the count is reached or a read throws. *)
Definition entries_of (update : list byte) : list (N * N * json) :=
  match readVarUint update with
  | Normal (len, decoder) => entries_read (N.to_nat len) decoder
  | Throw _ => []
  end.

(** An entry is settled in a store when merging it again shows nothing new:
    the store rejects it, or it is a removal of the local client, which
    keeps its state, at the clock the store holds and from which the double
    sum does not move. *)
Definition settled (aw : Awareness) (entry : N * N * json) : Prop :=
  ~ accepts aw entry
  \/ (entry.1.1 = clientID aw /\ entry.2 = JNull /\ getLocalState aw <> JNull
      /\ localClock aw (clientID aw) = entry.1.2
      /\ Double.succ entry.1.2 = entry.1.2).

(** The two map entries of a peer, and what the loop body of
    [applyAwarenessUpdate] makes of them for a peer other than the local
    client: the branch [clock++] is out of reach there. *)
Definition cell (aw : Awareness) (id : N) : option json * option MetaClientState :=
  (states aw !! id, meta aw !! id).

Definition cell_merge (timestamp : N) (c : option json * option MetaClientState)
    (remoteClock : N) (remoteState : json) : option json * option MetaClientState :=
  if (clock_or_zero c.2 <? remoteClock)%N
     || ((clock_or_zero c.2 =? remoteClock)%N && is_null remoteState
         && bool_decide (is_Some c.1))
  then (if is_null remoteState then None else Some remoteState,
        Some (mkMeta remoteClock timestamp))
  else c.

(** The test of [cell_merge], in the words of [accepts]. *)
Definition cell_accepts (c : option json * option MetaClientState)
    (remoteClock : N) (remoteState : json) : Prop :=
  (clock_or_zero c.2 < remoteClock
   \/ (clock_or_zero c.2 = remoteClock /\ remoteState = JNull /\ is_Some c.1))%N.

#[local] Instance cell_accepts_dec c remoteClock remoteState :
  Decision (cell_accepts c remoteClock remoteState).
Proof. unfold cell_accepts. apply _. Defined.

(** The entries of an update name remote peers only, and any two of them
    are the same entry or versions of different things. *)
Definition remote_versions (aw : Awareness) (entries : list (N * N * json)) : Prop :=
  (forall e, e ∈ entries -> e.1.1 <> clientID aw)
  /\ (forall e1 e2, e1 ∈ entries -> e2 ∈ entries -> e1 = e2 \/ distinct_versions e1 e2).

(* ===================================================================== *)
(** * Part II: properties *)
(* ===================================================================== *)

(* --------------------------------------------------------------------- *)
(** ** [x + 1] on doubles *)
(* --------------------------------------------------------------------- *)

Lemma Double_succ_exact (x : N) : (x < Double.limit -> Double.succ x = x + 1)%N.
Proof.
  intros Hlt. unfold Double.succ. by rewrite (proj2 (N.ltb_lt _ _) Hlt).
Qed.

Lemma Double_succ_le (x : N) : (x <= Double.succ x)%N.
Proof.
  unfold Double.succ. destruct (x <? Double.limit)%N; [lia|].
  destruct (_ && _); lia.
Qed.

Lemma Double_succ_pos (x : N) : (0 < Double.succ x)%N.
Proof.
  unfold Double.succ. destruct (N.ltb_spec x Double.limit) as [Hlt|Hge]; [lia|].
  assert (0 < Double.limit)%N by (by vm_compute).
  destruct (_ && _); lia.
Qed.

(** Where the sum is not above [x], [x] is 2^53 or more. *)
Lemma Double_succ_stuck (x : N) : (Double.succ x <= x -> Double.limit <= x)%N.
Proof.
  unfold Double.succ. destruct (N.ltb_spec x Double.limit) as [Hlt|Hge]; lia.
Qed.

Lemma Double_succ_limit : Double.succ Double.limit = Double.limit.
Proof. by vm_compute. Qed.

Lemma Double_succZ_exact (x : Z) :
  (- Z.of_N Double.limit <= x < Z.of_N Double.limit -> Double.succZ x = x + 1)%Z.
Proof.
  intros [Hlo Hhi]. unfold Double.succZ.
  by rewrite (proj2 (Z.leb_le _ _) Hlo), (proj2 (Z.ltb_lt _ _) Hhi).
Qed.

Lemma Double_succZ_le (x : Z) : (x <= Double.succZ x)%Z.
Proof.
  unfold Double.succZ. destruct (_ && _); [lia|]. destruct (_ && _); lia.
Qed.

(** The sums around 2^53, as a JavaScript console prints them. *)
Example Double_succ_samples :
  (Double.succ 0 = 1
   /\ Double.succ 9007199254740991 = 9007199254740992
   /\ Double.succ 9007199254740992 = 9007199254740992
   /\ Double.succ 9007199254740994 = 9007199254740996
   /\ Double.succ 9007199254740996 = 9007199254740996
   /\ Double.succ 18014398509481984 = 18014398509481984)%N
  /\ (Double.succZ (-9007199254740992) = -9007199254740991
      /\ Double.succZ (-9007199254740994) = -9007199254740992
      /\ Double.succZ (-9007199254740996) = -9007199254740996
      /\ Double.succZ 9007199254740992 = 9007199254740992)%Z.
Proof. by vm_compute. Qed.

(* --------------------------------------------------------------------- *)
(** ** The register *)
(* --------------------------------------------------------------------- *)

Section RegisterFacts.
Context {T : Type}.
Implicit Types (r : LWWRegister.t T) (remote : IState T).

Lemma merge_id r remote :
  LWWRegister.id (LWWRegister.merge r remote) = LWWRegister.id r.
Proof.
  unfold LWWRegister.merge.
  destruct (_ >? _)%Z; [done|]. by destruct (_ && _).
Qed.

Lemma merge_rejects_older r remote :
  (timestamp (LWWRegister.state r) > timestamp remote)%Z ->
  LWWRegister.merge r remote = r.
Proof.
  intros Hgt. unfold LWWRegister.merge.
  destruct (Z.gtb_spec (timestamp (LWWRegister.state r)) (timestamp remote)); [done|lia].
Qed.

Lemma merge_rejects_tie r remote :
  timestamp (LWWRegister.state r) = timestamp remote ->
  peer (LWWRegister.state r) <> peer remote ->
  LWWRegister.merge r remote = r.
Proof.
  intros Heq Hne. unfold LWWRegister.merge.
  destruct (_ >? _)%Z; [done|].
  rewrite Heq, Z.eqb_refl. simpl.
  destruct (String.eqb_spec (peer remote) (peer (LWWRegister.state r))); [|done].
  congruence.
Qed.

Lemma merge_adopts r remote :
  (timestamp (LWWRegister.state r) < timestamp remote)%Z
  \/ (timestamp (LWWRegister.state r) = timestamp remote
      /\ peer (LWWRegister.state r) = peer remote) ->
  LWWRegister.merge r remote = LWWRegister.new (LWWRegister.id r) remote.
Proof.
  intros Hcase. unfold LWWRegister.merge.
  destruct (Z.gtb_spec (timestamp (LWWRegister.state r)) (timestamp remote)) as [Hgt|_].
  { destruct Hcase as [?|[? _]]; lia. }
  destruct (Z.eqb_spec (timestamp (LWWRegister.state r)) (timestamp remote)) as [Heq|Hne];
    simpl; [|done].
  destruct Hcase as [?|[_ Hpeer]]; [lia|].
  by rewrite Hpeer, String.eqb_refl.
Qed.

Lemma merge_merge r remote :
  LWWRegister.merge (LWWRegister.merge r remote) remote = LWWRegister.merge r remote.
Proof.
  destruct (Z.lt_trichotomy (timestamp (LWWRegister.state r)) (timestamp remote))
    as [Hlt|[Heq|Hgt]].
  - rewrite (merge_adopts r) by auto.
    rewrite merge_adopts; [done|simpl; by right].
  - destruct (decide (peer (LWWRegister.state r) = peer remote)) as [Hp|Hp].
    + rewrite (merge_adopts r) by auto.
      rewrite merge_adopts; [done|simpl; by right].
    + rewrite (merge_rejects_tie r) by auto. by apply merge_rejects_tie.
  - rewrite (merge_rejects_older r) by lia. apply merge_rejects_older. lia.
Qed.

End RegisterFacts.

(** C3. [LWWRegister.merge] follows the last-writer-wins rule: a larger local
    timestamp keeps the local state; equal timestamps with different peers
    keep the local state; in the remaining cases (smaller local timestamp,
    or equal timestamp and equal peer) the state becomes the remote state.
    The register's [id] never changes. *)
Theorem LWWRegister_merge_rule {T} (r : LWWRegister.t T) (remote : IState T) :
  let local := LWWRegister.state r in
  let r' := LWWRegister.merge r remote in
  LWWRegister.id r' = LWWRegister.id r
  /\ ((timestamp local > timestamp remote)%Z -> LWWRegister.state r' = local)
  /\ (timestamp local = timestamp remote -> peer local <> peer remote ->
      LWWRegister.state r' = local)
  /\ ((timestamp local < timestamp remote)%Z
      \/ (timestamp local = timestamp remote /\ peer local = peer remote) ->
      LWWRegister.state r' = remote).
Proof.
  cbv zeta. split; [apply merge_id|]. repeat split.
  - intros H. by rewrite merge_rejects_older.
  - intros H1 H2. by rewrite merge_rejects_tie.
  - intros H. by rewrite merge_adopts.
Qed.

(** The three cases of C3 at concrete registers. *)
Lemma LWWRegister_merge_rule_witness :
  let bob5 := LWWRegister.new "bob" (mkIState "bob" 5 "b") in
  LWWRegister.state (LWWRegister.merge bob5 (mkIState "alice" 4 "a")) = mkIState "bob" 5 "b"
  /\ LWWRegister.state (LWWRegister.merge bob5 (mkIState "alice" 5 "a")) = mkIState "bob" 5 "b"
  /\ LWWRegister.state (LWWRegister.merge bob5 (mkIState "alice" 6 "a")) = mkIState "alice" 6 "a"
  /\ LWWRegister.state (LWWRegister.merge bob5 (mkIState "bob" 5 "c")) = mkIState "bob" 5 "c".
Proof.
  cbv zeta.
  pose (bob5 := LWWRegister.new "bob" (mkIState "bob" 5%Z "b")).
  split; [|split; [|split]].
  - destruct (LWWRegister_merge_rule bob5 (mkIState "alice" 4%Z "a")) as (_ & Hgt & _ & _).
    apply Hgt. simpl. lia.
  - destruct (LWWRegister_merge_rule bob5 (mkIState "alice" 5%Z "a")) as (_ & _ & Htie & _).
    apply Htie; simpl; [lia|discriminate].
  - destruct (LWWRegister_merge_rule bob5 (mkIState "alice" 6%Z "a")) as (_ & _ & _ & Hlt).
    apply Hlt. simpl. left. lia.
  - destruct (LWWRegister_merge_rule bob5 (mkIState "bob" 5%Z "c")) as (_ & _ & _ & Heq).
    apply Heq. simpl. right. split; [lia|done].
Defined.

(* --------------------------------------------------------------------- *)
(** ** The keyed register map *)
(* --------------------------------------------------------------------- *)

Section MapFacts.
Context {T : Type} `{Truthy T}.
Implicit Types (m : LWWMap.t T) (key : string) (v : T).

(** What [has] computes: a missing key counts as present. *)
Lemma has_spec m key :
  LWWMap.has m key = true <->
  LWWMap.data m !! key = None
  \/ exists register v, LWWMap.data m !! key = Some register
                        /\ LWWRegister.get_value register = Some v.
Proof.
  unfold LWWMap.has. destruct (LWWMap.data m !! key) as [register|]; [|by intuition].
  destruct (LWWRegister.get_value register) as [w|] eqn:Hv; split.
  - intros _. right. by exists register, w.
  - done.
  - done.
  - intros [|(register' & w & [= <-] & Hw)]; congruence.
Qed.

(** What [get] computes: the stored value when it is truthy. *)
Lemma get_spec m key v :
  LWWMap.get m key = Some v <->
  exists register, LWWMap.data m !! key = Some register
                   /\ LWWRegister.get_value register = Some v
                   /\ truthy v = true.
Proof.
  unfold LWWMap.get. destruct (LWWMap.data m !! key) as [register|].
  2:{ split; [done|]. by intros (register & ? & _). }
  destruct (LWWRegister.get_value register) as [w|] eqn:Hv; cbn.
  - destruct (truthy w) eqn:Hw; split.
    + intros [= ->]. by exists register.
    + intros (register' & [= <-] & Hv' & _). congruence.
    + done.
    + intros (register' & [= <-] & Hv' & Ht). congruence.
  - split; [done|]. intros (register' & [= <-] & Hv' & _). congruence.
Qed.

Lemma set_lookup m key v :
  exists register, LWWMap.data (LWWMap.set m key v) !! key = Some register
                   /\ LWWRegister.get_value register = Some v.
Proof.
  unfold LWWMap.set. destruct (LWWMap.data m !! key) as [register|]; cbn;
    rewrite lookup_insert_eq; eauto.
Qed.

Lemma get_value_set m key v :
  key <> "__proto__"%string ->
  LWWMap.get_value (LWWMap.set m key v) !! key = Some v.
Proof.
  intros Hkey. destruct (set_lookup m key v) as (register & Hr & Hv).
  unfold LWWMap.get_value, LWWMap.own_properties.
  rewrite lookup_omap, lookup_delete_ne, Hr by done. done.
Qed.

Lemma get_set_falsy m key v :
  truthy v = false -> LWWMap.get (LWWMap.set m key v) key = None.
Proof.
  intros Hv. destruct (LWWMap.get _ _) as [w|] eqn:Hget; [|done].
  apply get_spec in Hget as (register & Hr & Hw & Htrue).
  destruct (set_lookup m key v) as (register' & Hr' & Hv').
  congruence.
Qed.

End MapFacts.

(** C5, evaluated on the code: on a map that was built empty, [has] answers
    [true] for every key, although no entry exists for it. *)
Theorem LWWMap_has_never_set_key (id key : string) :
  LWWMap.data (LWWMap.new (T:=Z) id ∅) !! key = None
  /\ LWWMap.has (LWWMap.new (T:=Z) id ∅) key = true.
Proof.
  unfold LWWMap.has, LWWMap.new. cbn. by rewrite fmap_empty, lookup_empty.
Qed.

(** C6, evaluated on the code: after [set("k", 0)] the key exists, is not a
    tombstone and is listed by [value], yet [get("k")] returns [undefined]. *)
Theorem LWWMap_get_drops_falsy_value :
  let m := LWWMap.set (LWWMap.new (T:=Z) "alice" ∅) "k" 0%Z in
  LWWMap.get_value m !! "k" = Some 0%Z
  /\ LWWMap.has m "k" = true
  /\ LWWMap.get m "k" = None.
Proof.
  cbv zeta. split; [by apply get_value_set|]. split.
  - apply has_spec. right. destruct (set_lookup (LWWMap.new (T:=Z) "alice" ∅) "k" 0%Z)
      as (register & Hr & Hv). eauto.
  - by apply get_set_falsy.
Qed.

(* --------------------------------------------------------------------- *)
(** ** The awareness store *)
(* --------------------------------------------------------------------- *)

Local Open Scope N_scope.

Lemma Map_has_true {V} (m : gmap N V) key : Map_has m key = true <-> is_Some (m !! key).
Proof.
  unfold Map_has. destruct (m !! key) as [v|]; split; intros Hx.
  - by exists v.
  - done.
  - done.
  - by destruct Hx as [v Hv].
Qed.

Lemma Map_has_false {V} (m : gmap N V) key : Map_has m key = false <-> m !! key = None.
Proof. unfold Map_has. by destruct (m !! key). Qed.

Lemma is_null_true v : is_null v = true <-> v = JNull.
Proof. by destruct v. Qed.

Lemma is_null_false v : is_null v = false <-> v <> JNull.
Proof. by destruct v. Qed.

(** *** [setLocalState] *)

Lemma setLocalState_clientID aw state now :
  clientID (fst (setLocalState aw state now)) = clientID aw.
Proof. done. Qed.

Lemma setLocalState_meta aw state now :
  meta (fst (setLocalState aw state now)) !! clientID aw
  = Some (mkMeta (match meta aw !! clientID aw with
                  | None => 0
                  | Some m => Double.succ (clock m)
                  end) now).
Proof. cbn. by rewrite lookup_insert_eq. Qed.

Lemma setLocalState_null_offline aw now :
  states (fst (setLocalState aw JNull now)) !! clientID aw = None.
Proof. cbn. by rewrite lookup_delete_eq. Qed.

Lemma setLocalState_online aw state now :
  state <> JNull ->
  states (fst (setLocalState aw state now)) !! clientID aw = Some state.
Proof.
  intros Hs. cbn. apply is_null_false in Hs. rewrite Hs. by rewrite lookup_insert_eq.
Qed.

Lemma setLocalState_lockstep aw state now :
  lockstep aw -> lockstep (fst (setLocalState aw state now)).
Proof.
  intros Hinv id. unfold online. cbn.
  destruct (decide (id = clientID aw)) as [->|Hne].
  - intros _. rewrite lookup_insert_eq. eauto.
  - rewrite lookup_insert_ne by done.
    destruct (is_null state).
    + rewrite lookup_delete_ne by done. apply Hinv.
    + rewrite lookup_insert_ne by done. apply Hinv.
Qed.

Lemma newAwareness_lockstep docClientID now : lockstep (newAwareness docClientID now).
Proof.
  apply setLocalState_lockstep. intros id [v Hv]. cbn in Hv.
  by rewrite lookup_empty in Hv.
Qed.



(** *** [removeAwarenessStates] *)

(** Once the local client is Offline, the loop leaves [meta] alone, keeps the
    local client Offline, returns normally and only extends [removed]. *)
Lemma removeAwarenessStates_loop_offline aw clients now removed :
  states aw !! clientID aw = None ->
  exists aw' removed',
    removeAwarenessStates_loop aw clients now removed = (aw', Normal (removed ++ removed'))
    /\ clientID aw' = clientID aw
    /\ meta aw' = meta aw
    /\ states aw' !! clientID aw = None.
Proof.
  revert aw removed. induction clients as [|id rest IH]; intros aw removed Hoff; cbn.
  { exists aw, []. by rewrite app_nil_r. }
  destruct (Map_has (states aw) id) eqn:Hhas; [|by apply IH].
  destruct (N.eqb_spec id (clientID aw)) as [->|Hne].
  { apply Map_has_true in Hhas as [v Hv]. congruence. }
  destruct (IH (mkAwareness (clientID aw) (delete id (states aw)) (meta aw))
               (removed ++ [id])) as (aw' & removed' & Hloop & Hid & Hmeta & Hst).
  { cbn. by rewrite lookup_delete_ne. }
  exists aw', (id :: removed'). rewrite Hloop.
  by rewrite <- app_assoc.
Qed.

(** While the local client is Online with a [meta] entry and is listed, the
    loop returns normally, lists it in [removed], deletes its [states] entry
    and bumps its clock once. *)
Lemma removeAwarenessStates_loop_online aw clients now removed v m :
  states aw !! clientID aw = Some v ->
  meta aw !! clientID aw = Some m ->
  clientID aw ∈ clients ->
  exists aw' removed',
    removeAwarenessStates_loop aw clients now removed = (aw', Normal (removed ++ removed'))
    /\ clientID aw' = clientID aw
    /\ clientID aw ∈ removed'
    /\ states aw' !! clientID aw = None
    /\ meta aw' !! clientID aw = Some (mkMeta (Double.succ (clock m)) now).
Proof.
  revert aw removed. induction clients as [|id rest IH]; intros aw removed Hv Hm Hin.
  { by apply elem_of_nil in Hin. }
  cbn. destruct (N.eqb_spec id (clientID aw)) as [->|Hne].
  - assert (Map_has (states aw) (clientID aw) = true) as ->
      by (apply Map_has_true; eauto).
    rewrite Hm.
    destruct (removeAwarenessStates_loop_offline
                (mkAwareness (clientID aw) (delete (clientID aw) (states aw))
                   (<[clientID aw := mkMeta (Double.succ (clock m)) now]> (meta aw)))
                rest now (removed ++ [clientID aw]))
      as (aw' & removed' & Hloop & Hid & Hmeta & Hst).
    { cbn. by rewrite lookup_delete_eq. }
    exists aw', (clientID aw :: removed'). rewrite Hloop.
    cbn in Hid, Hmeta, Hst. rewrite <- app_assoc. repeat split; try done.
    + apply elem_of_cons. by left.
    + rewrite Hmeta. by rewrite lookup_insert_eq.
  - apply elem_of_cons in Hin as [Heq|Hin]; [congruence|].
    destruct (Map_has (states aw) id) eqn:Hhas.
    + destruct (IH (mkAwareness (clientID aw) (delete id (states aw)) (meta aw))
                   (removed ++ [id])) as (aw' & removed' & Hloop & Hid & Hrem & Hst & Hmeta);
        cbn; try done.
      { by rewrite lookup_delete_ne. }
      exists aw', (id :: removed'). rewrite Hloop. cbn in *.
      rewrite <- app_assoc. repeat split; try done.
      apply elem_of_cons. by right.
    + by apply IH.
Qed.

(** In a store in lockstep an Online peer has a [meta] entry, whose clock is
    the local clock. *)
Lemma lockstep_online_meta aw id :
  lockstep aw -> online aw id ->
  exists m, meta aw !! id = Some m /\ localClock aw id = clock m.
Proof.
  intros Hinv Hon. destruct (Hinv id Hon) as [m Hm]. exists m.
  unfold localClock. by rewrite Hm.
Qed.

(** C1, as the code has it. When [removeAwarenessStates] is called with a
    list that includes the local client while the local client is Online,
    the call returns normally, the local [states] entry is deleted like any
    other listed entry (the local client is reported in [removed]), and in
    addition the local meta clock becomes the double sum of the clock and 1,
    which is the clock plus 1 while the clock is below 2^53, and
    [lastUpdated] is set to the current time. *)
Theorem removeAwarenessStates_local_client
    (aw : Awareness) (clients : list N) (origin : string) (now : N) :
  lockstep aw ->
  online aw (clientID aw) ->
  clientID aw ∈ clients ->
  exists aw' removed,
    removeAwarenessStates aw clients origin now
    = (aw', Normal [Change (mkChanges [] [] removed) origin;
                    Update (mkChanges [] [] removed) origin])
    /\ clientID aw ∈ removed
    /\ states aw' !! clientID aw = None
    /\ meta aw' !! clientID aw
       = Some (mkMeta (Double.succ (localClock aw (clientID aw))) now)
    /\ (localClock aw (clientID aw) < Double.limit ->
        meta aw' !! clientID aw
        = Some (mkMeta (localClock aw (clientID aw) + 1) now)).
Proof.
  intros Hinv Hon Hin.
  destruct (lockstep_online_meta aw _ Hinv Hon) as (m & Hm & Hclock).
  destruct Hon as [v Hv].
  destruct (removeAwarenessStates_loop_online aw clients now [] v m Hv Hm Hin)
    as (aw' & removed & Hloop & Hid & Hrem & Hst & Hmeta).
  exists aw', removed. unfold removeAwarenessStates. rewrite Hloop. cbn.
  destruct removed as [|x removed]; [by apply elem_of_nil in Hrem|].
  cbn. rewrite Hclock. split; [done|]. split; [done|]. split; [done|].
  split; [done|]. intros Hlt. by rewrite Hmeta, Double_succ_exact.
Qed.

(** C1 at a concrete store: the local client 1, just constructed, asked to
    remove itself. *)
Lemma removeAwarenessStates_local_client_witness :
  exists aw' removed,
    removeAwarenessStates (newAwareness 1 0) [1] "timeout" 5
    = (aw', Normal [Change (mkChanges [] [] removed) "timeout";
                    Update (mkChanges [] [] removed) "timeout"])
    /\ 1 ∈ removed
    /\ states aw' !! 1 = None
    /\ meta aw' !! 1 = Some (mkMeta (Double.succ (localClock (newAwareness 1 0) 1)) 5)
    /\ (localClock (newAwareness 1 0) 1 < Double.limit ->
        meta aw' !! 1 = Some (mkMeta (localClock (newAwareness 1 0) 1 + 1) 5)).
Proof.
  apply (removeAwarenessStates_local_client (newAwareness 1 0) [1] "timeout" 5).
  - apply newAwareness_lockstep.
  - exists (JObj []). reflexivity.
  - apply list_elem_of_singleton. reflexivity.
Defined.

(** C1 as the claim words it fails: the local client is Online and listed,
    and after the call its [states] entry is gone. *)
Lemma removeAwarenessStates_clears_local_entry :
  let aw := newAwareness 1 0 in
  online aw (clientID aw)
  /\ clientID aw ∈ [1]
  /\ ~ online (fst (removeAwarenessStates aw [1] "timeout" 5)) (clientID aw).
Proof.
  cbv zeta. split; [|split].
  - exists (JObj []). reflexivity.
  - apply list_elem_of_singleton. reflexivity.
  - intros [v Hv]. vm_compute in Hv. discriminate.
Qed.

(** *** One entry of [applyAwarenessUpdate] *)

(** The test at the head of the loop body is the acceptance condition. *)
Lemma accept_test_spec aw id remoteClock remoteState :
  (clock_or_zero (meta aw !! id) <? remoteClock)
  || ((clock_or_zero (meta aw !! id) =? remoteClock) && is_null remoteState
      && Map_has (states aw) id) = true
  <-> accepts aw (id, remoteClock, remoteState).
Proof.
  unfold accepts, localClock, online.
  rewrite orb_true_iff, !andb_true_iff, N.ltb_lt, N.eqb_eq, is_null_true, Map_has_true.
  tauto.
Qed.

Lemma applyAwarenessUpdate_entry_rejected timestamp aw c entry :
  ~ accepts aw entry ->
  applyAwarenessUpdate_entry timestamp aw c entry = (aw, c).
Proof.
  destruct entry as [[id remoteClock] remoteState]. intros Hrej.
  unfold applyAwarenessUpdate_entry.
  destruct (_ || _) eqn:Htest; [|done].
  by apply accept_test_spec in Htest.
Qed.

(** An accepted entry that carries a state stores it. *)
Lemma applyAwarenessUpdate_entry_state timestamp aw c id remoteClock remoteState :
  accepts aw (id, remoteClock, remoteState) ->
  remoteState <> JNull ->
  fst (applyAwarenessUpdate_entry timestamp aw c (id, remoteClock, remoteState))
  = mkAwareness (clientID aw) (<[id := remoteState]> (states aw))
                (<[id := mkMeta remoteClock timestamp]> (meta aw)).
Proof.
  intros Hacc Hstate. apply accept_test_spec in Hacc. apply is_null_false in Hstate.
  unfold applyAwarenessUpdate_entry. rewrite Hacc, Hstate. done.
Qed.

(** An accepted removal of the local client, while it has a local state,
    keeps [states] and stores the double sum of the remote clock and 1. *)
Lemma applyAwarenessUpdate_entry_protected timestamp aw c remoteClock :
  accepts aw (clientID aw, remoteClock, JNull) ->
  getLocalState aw <> JNull ->
  fst (applyAwarenessUpdate_entry timestamp aw c (clientID aw, remoteClock, JNull))
  = mkAwareness (clientID aw) (states aw)
                (<[clientID aw := mkMeta (Double.succ remoteClock) timestamp]> (meta aw)).
Proof.
  intros Hacc Hlocal. apply accept_test_spec in Hacc. apply is_null_false in Hlocal.
  unfold applyAwarenessUpdate_entry. rewrite Hacc, Hlocal, N.eqb_refl. done.
Qed.

(** Every other accepted removal deletes the [states] entry. *)
Lemma applyAwarenessUpdate_entry_removed timestamp aw c id remoteClock :
  accepts aw (id, remoteClock, JNull) ->
  id <> clientID aw \/ getLocalState aw = JNull ->
  fst (applyAwarenessUpdate_entry timestamp aw c (id, remoteClock, JNull))
  = mkAwareness (clientID aw) (delete id (states aw))
                (<[id := mkMeta remoteClock timestamp]> (meta aw)).
Proof.
  intros Hacc Hcase. apply accept_test_spec in Hacc.
  unfold applyAwarenessUpdate_entry. rewrite Hacc. cbn.
  destruct Hcase as [Hne|Hnull].
  - apply N.eqb_neq in Hne. by rewrite Hne.
  - apply is_null_true in Hnull. rewrite Hnull. cbn. by rewrite andb_false_r.
Qed.

Lemma applyAwarenessUpdate_entry_clientID timestamp aw c entry :
  clientID (fst (applyAwarenessUpdate_entry timestamp aw c entry)) = clientID aw.
Proof.
  destruct entry as [[id remoteClock] remoteState].
  unfold applyAwarenessUpdate_entry.
  destruct (_ || _); [|done].
  destruct (is_null remoteState); [|done].
  by destruct (_ && _).
Qed.

(** An entry only touches the two map entries of its own peer. *)
Lemma applyAwarenessUpdate_entry_frame timestamp aw c id remoteClock remoteState other :
  other <> id ->
  let aw' := fst (applyAwarenessUpdate_entry timestamp aw c (id, remoteClock, remoteState)) in
  states aw' !! other = states aw !! other /\ meta aw' !! other = meta aw !! other.
Proof.
  intros Hne. cbv zeta. unfold applyAwarenessUpdate_entry.
  destruct (_ || _); [|done].
  destruct (is_null remoteState); [destruct (_ && _)|]; cbn;
    rewrite ?lookup_insert_ne, ?lookup_delete_ne by done; done.
Qed.

Lemma applyAwarenessUpdate_entry_lockstep timestamp aw c entry :
  lockstep aw -> lockstep (fst (applyAwarenessUpdate_entry timestamp aw c entry)).
Proof.
  destruct entry as [[id remoteClock] remoteState]. intros Hinv other.
  destruct (decide (other = id)) as [->|Hne].
  - unfold online, applyAwarenessUpdate_entry.
    destruct (_ || _); [|apply Hinv].
    destruct (is_null remoteState); [destruct (_ && _)|]; cbn;
      rewrite !lookup_insert_eq; eauto.
  - unfold online.
    destruct (applyAwarenessUpdate_entry_frame timestamp aw c id remoteClock remoteState
                other Hne) as [-> ->].
    apply Hinv.
Qed.

Lemma getLocalState_online aw :
  getLocalState aw <> JNull -> online aw (clientID aw).
Proof.
  unfold getLocalState, or_null, online.
  destruct (states aw !! clientID aw) as [v|]; [eauto|done].
Qed.

Lemma accepts_clock_le aw id remoteClock remoteState :
  accepts aw (id, remoteClock, remoteState) -> localClock aw id <= remoteClock.
Proof. intros [Hlt|[Heq _]]; lia. Qed.

(** An accepted removal of a peer without [meta] entry is not classified. *)
Lemma applyAwarenessUpdate_entry_unclassified timestamp aw c id remoteClock :
  meta aw !! id = None ->
  snd (applyAwarenessUpdate_entry timestamp aw c (id, remoteClock, JNull)) = c.
Proof.
  intros Hmeta. unfold applyAwarenessUpdate_entry. rewrite Hmeta.
  destruct (_ || _); [|done]. cbn.
  by destruct (_ && _).
Qed.




(** C9. An accepted remote entry [(id, clock, null)] for a peer that had no
    [meta] entry (a clock above 0 is what got it accepted) creates the
    [meta] entry with the remote clock, and adds the peer to none of
    [added], [updated], [filteredUpdated], [removed]: the events that the
    call emits are the ones it would emit without this entry. *)
Theorem applyAwarenessUpdate_unknown_peer_removal
    (timestamp : N) (aw : Awareness) (c : Classified) (id remoteClock : N) :
  lockstep aw ->
  meta aw !! id = None ->
  accepts aw (id, remoteClock, JNull) ->
  let aw' := fst (applyAwarenessUpdate_entry timestamp aw c (id, remoteClock, JNull)) in
  let c' := snd (applyAwarenessUpdate_entry timestamp aw c (id, remoteClock, JNull)) in
  0 < remoteClock
  /\ meta aw' !! id = Some (mkMeta remoteClock timestamp)
  /\ states aw' !! id = None
  /\ c' = c
  /\ (forall origin, applyAwarenessUpdate_emit c' origin = applyAwarenessUpdate_emit c origin).
Proof.
  intros Hinv Hmeta Hacc. cbv zeta.
  assert (states aw !! id = None) as Hoff.
  { destruct (states aw !! id) as [v|] eqn:Hv; [|done].
    destruct (Hinv id) as [m Hm]; [by exists v|congruence]. }
  assert (id <> clientID aw \/ getLocalState aw = JNull) as Hcase.
  { destruct (decide (id = clientID aw)) as [->|Hne]; [right|by left].
    unfold getLocalState. by rewrite Hoff. }
  rewrite applyAwarenessUpdate_entry_removed by done.
  rewrite applyAwarenessUpdate_entry_unclassified by done. cbn.
  rewrite lookup_insert_eq, lookup_delete_eq. repeat split; try done.
  destruct Hacc as [Hlt|(_ & _ & [v Hv])]; [|congruence].
  unfold localClock in Hlt. rewrite Hmeta in Hlt. cbn in Hlt. lia.
Qed.

(** C9 at a concrete store: client 1 hears for the first time of peer 2,
    through the removal [(2, 3, null)]. *)
Lemma applyAwarenessUpdate_unknown_peer_removal_witness :
  let aw := newAwareness 1 0 in
  let aw' := fst (applyAwarenessUpdate_entry 9 aw no_changes (2, 3, JNull)) in
  let c' := snd (applyAwarenessUpdate_entry 9 aw no_changes (2, 3, JNull)) in
  0 < 3
  /\ meta aw' !! 2 = Some (mkMeta 3 9)
  /\ states aw' !! 2 = None
  /\ c' = no_changes
  /\ (forall origin, applyAwarenessUpdate_emit c' origin
                     = applyAwarenessUpdate_emit no_changes origin).
Proof.
  apply (applyAwarenessUpdate_unknown_peer_removal 9 (newAwareness 1 0) no_changes 2 3).
  - apply newAwareness_lockstep.
  - reflexivity.
  - left. reflexivity.
Defined.

(** *** A whole update *)

Lemma applyEntries_cons timestamp aw c entry entries :
  applyEntries timestamp aw c (entry :: entries)
  = applyEntries timestamp
      (fst (applyAwarenessUpdate_entry timestamp aw c entry))
      (snd (applyAwarenessUpdate_entry timestamp aw c entry)) entries.
Proof.
  unfold applyEntries. cbn. by destruct (applyAwarenessUpdate_entry timestamp aw c entry).
Qed.

(** The store after the loop is the merge of the entries it read, whether or
    not a later read threw. *)
Lemma applyAwarenessUpdate_loop_store len timestamp aw c decoder :
  fst (applyAwarenessUpdate_loop len timestamp aw c decoder)
  = fst (applyEntries timestamp aw c (entries_read len decoder)).
Proof.
  revert aw c decoder. induction len as [|len IH]; intros aw c decoder; cbn; [done|].
  destruct (readEntry decoder) as [[entry decoder']|e]; [|done].
  rewrite applyEntries_cons.
  destruct (applyAwarenessUpdate_entry timestamp aw c entry) as [aw' c']. apply IH.
Qed.

Lemma decodeAwarenessUpdate_loop_entries_read len decoder entries :
  decodeAwarenessUpdate_loop len decoder = Normal entries ->
  entries_read len decoder = entries.
Proof.
  revert decoder entries. induction len as [|len IH]; intros decoder entries; cbn.
  { by intros [= <-]. }
  destruct (readEntry decoder) as [[entry decoder']|e]; cbn; [|done].
  destruct (decodeAwarenessUpdate_loop len decoder') as [entries'|e] eqn:Hrest; cbn; [|done].
  intros [= <-]. f_equal. by apply IH.
Qed.

(** When all the reads succeed the loop returns normally. *)
Lemma applyAwarenessUpdate_loop_decode len timestamp aw c decoder entries :
  decodeAwarenessUpdate_loop len decoder = Normal entries ->
  applyAwarenessUpdate_loop len timestamp aw c decoder
  = (fst (applyEntries timestamp aw c entries),
     Normal (snd (applyEntries timestamp aw c entries))).
Proof.
  revert aw c decoder entries.
  induction len as [|len IH]; intros aw c decoder entries; cbn.
  { by intros [= <-]. }
  destruct (readEntry decoder) as [[entry decoder']|e]; cbn; [|done].
  destruct (decodeAwarenessUpdate_loop len decoder') as [entries'|e] eqn:Hrest; cbn; [|done].
  intros [= <-]. rewrite applyEntries_cons.
  destruct (applyAwarenessUpdate_entry timestamp aw c entry) as [aw' c']. by apply IH.
Qed.

(** [applyAwarenessUpdate] on an update that decodes: the merge of the
    decoded entries, then the two notifications; no exception. *)
Lemma applyAwarenessUpdate_decode aw update origin timestamp entries :
  decodeAwarenessUpdate update = Normal entries ->
  applyAwarenessUpdate aw update origin timestamp
  = (fst (applyEntries timestamp aw no_changes entries),
     Normal (applyAwarenessUpdate_emit
               (snd (applyEntries timestamp aw no_changes entries)) origin)).
Proof.
  unfold decodeAwarenessUpdate, applyAwarenessUpdate.
  destruct (readVarUint update) as [[len decoder]|e]; cbn; [|done].
  intros Hdec. by rewrite (applyAwarenessUpdate_loop_decode _ _ _ _ _ _ Hdec).
Qed.

(** The store after [applyAwarenessUpdate], for every update. *)
Lemma applyAwarenessUpdate_store aw update origin timestamp :
  fst (applyAwarenessUpdate aw update origin timestamp)
  = match readVarUint update with
    | Normal (len, decoder) =>
        fst (applyEntries timestamp aw no_changes (entries_read (N.to_nat len) decoder))
    | Throw _ => aw
    end.
Proof.
  unfold applyAwarenessUpdate.
  destruct (readVarUint update) as [[len decoder]|e]; [|done].
  rewrite <- applyAwarenessUpdate_loop_store.
  by destruct (applyAwarenessUpdate_loop _ _ _ _ _) as [aw' [c'|e]].
Qed.

(** *** Idempotence of the merge *)

Lemma same_view_refl aw : same_view aw aw.
Proof. done. Qed.

Lemma same_view_trans aw1 aw2 aw3 :
  same_view aw1 aw2 -> same_view aw2 aw3 -> same_view aw1 aw3.
Proof. intros (? & ? & ?) (? & ? & ?). repeat split; congruence. Qed.

Lemma same_view_sym aw1 aw2 : same_view aw1 aw2 -> same_view aw2 aw1.
Proof. intros (? & ? & ?). repeat split; congruence. Qed.

Lemma same_view_localClock aw aw' id :
  same_view aw aw' -> localClock aw id = localClock aw' id.
Proof.
  intros (_ & _ & Hclocks). unfold localClock.
  assert (clocks aw !! id = clocks aw' !! id) as Hlookup by by rewrite Hclocks.
  unfold clocks in Hlookup. rewrite !lookup_fmap in Hlookup.
  destruct (meta aw !! id), (meta aw' !! id); cbn in *; congruence.
Qed.

(** The cases of an accepted entry. *)
Lemma applyAwarenessUpdate_entry_accepted timestamp aw c id remoteClock remoteState :
  accepts aw (id, remoteClock, remoteState) ->
  let aw' := fst (applyAwarenessUpdate_entry timestamp aw c (id, remoteClock, remoteState)) in
  (remoteState <> JNull
   /\ aw' = mkAwareness (clientID aw) (<[id := remoteState]> (states aw))
              (<[id := mkMeta remoteClock timestamp]> (meta aw)))
  \/ (remoteState = JNull /\ id = clientID aw /\ getLocalState aw <> JNull
      /\ aw' = mkAwareness (clientID aw) (states aw)
                 (<[id := mkMeta (Double.succ remoteClock) timestamp]> (meta aw)))
  \/ (remoteState = JNull /\ (id <> clientID aw \/ getLocalState aw = JNull)
      /\ aw' = mkAwareness (clientID aw) (delete id (states aw))
                 (<[id := mkMeta remoteClock timestamp]> (meta aw))).
Proof.
  intros Hacc. cbv zeta.
  destruct (decide (remoteState = JNull)) as [->|Hstate].
  - destruct (decide (id = clientID aw /\ getLocalState aw <> JNull)) as [[-> Hlocal]|Hno].
    + right. left. by rewrite applyAwarenessUpdate_entry_protected.
    + right. right.
      assert (id <> clientID aw \/ getLocalState aw = JNull) as Hcase.
      { destruct (decide (id = clientID aw)); [|by left].
        destruct (decide (getLocalState aw = JNull)); [by right|]. by destruct Hno. }
      by rewrite applyAwarenessUpdate_entry_removed.
  - left. by rewrite applyAwarenessUpdate_entry_state.
Qed.

(** A store that rejects an entry keeps rejecting it whatever is merged. *)
Lemma rejected_preserved timestamp aw c entry other :
  ~ accepts aw entry ->
  ~ accepts (fst (applyAwarenessUpdate_entry timestamp aw c other)) entry.
Proof.
  destruct entry as [[id remoteClock] remoteState].
  destruct other as [[id' remoteClock'] remoteState'].
  intros Hrej.
  destruct (decide (id = id')) as [<-|Hne].
  2:{ unfold accepts, localClock, online in *.
      destruct (applyAwarenessUpdate_entry_frame timestamp aw c id' remoteClock'
                  remoteState' id Hne) as [-> ->]. done. }
  destruct (decide (accepts aw (id, remoteClock', remoteState'))) as [Hacc|Hrej'].
  2:{ by rewrite applyAwarenessUpdate_entry_rejected. }
  assert (remoteClock <= localClock aw id) as Hle.
  { apply N.le_ngt. intros Hlt. apply Hrej. by left. }
  pose proof (accepts_clock_le _ _ _ _ Hacc) as Hle'.
  destruct (applyAwarenessUpdate_entry_accepted timestamp aw c _ _ _ Hacc)
    as [(Hstate & ->)|[(-> & -> & Hlocal & ->)|(-> & Hcase & ->)]];
    unfold accepts, localClock at 1 2, online; cbn;
    rewrite ?lookup_insert_eq, ?lookup_delete_eq; cbn.
  - intros [Hlt|(Heq & Hnull & _)]; [lia|].
    (* the clocks are all equal, so the accepted entry was a removal *)
    destruct Hacc as [Hlt'|(_ & Hnull' & _)]; [|done].
    apply Hrej. left. lia.
  - pose proof (Double_succ_le remoteClock') as Hsucc.
    intros [Hlt|(Heq & Hnull & Hon)]; [lia|].
    apply Hrej. right. split; [lia|done].
  - intros [Hlt|(_ & _ & [v Hv])]; [lia|done].
Qed.

Lemma applyEntries_rejected timestamp aw c entries :
  Forall (fun entry => ~ accepts aw entry) entries ->
  applyEntries timestamp aw c entries = (aw, c).
Proof.
  induction 1 as [|entry entries Hrej _ IH]; [done|].
  rewrite applyEntries_cons, applyAwarenessUpdate_entry_rejected by done. apply IH.
Qed.

Lemma rejected_preserved_entries timestamp aw c entry entries :
  ~ accepts aw entry ->
  ~ accepts (fst (applyEntries timestamp aw c entries)) entry.
Proof.
  revert aw c. induction entries as [|other entries IH]; intros aw c Hrej; [done|].
  rewrite applyEntries_cons. by apply IH, rejected_preserved.
Qed.

(** Merging a settled entry shows nothing new. *)
Lemma settled_view timestamp aw c entry :
  settled aw entry ->
  same_view (fst (applyAwarenessUpdate_entry timestamp aw c entry)) aw.
Proof.
  destruct entry as [[id remoteClock] remoteState].
  intros [Hrej|(Hid & Hnull & Hlocal & Hclock & Hstuck)].
  { rewrite applyAwarenessUpdate_entry_rejected by done. apply same_view_refl. }
  cbn in Hid, Hnull, Hclock, Hstuck. subst id remoteState.
  destruct (decide (accepts aw (clientID aw, remoteClock, JNull))) as [Hacc|Hrej].
  2:{ rewrite applyAwarenessUpdate_entry_rejected by done. apply same_view_refl. }
  rewrite applyAwarenessUpdate_entry_protected by done.
  split; [done|]. split; [done|]. unfold clocks. cbn.
  rewrite fmap_insert. cbn. rewrite Hstuck. apply insert_id.
  rewrite lookup_fmap. unfold localClock in Hclock.
  destruct (meta aw !! clientID aw) as [m|]; cbn in *; [by rewrite Hclock|].
  pose proof (Double_succ_pos remoteClock). lia.
Qed.

(** After an entry is merged, it is settled. *)
Lemma applyAwarenessUpdate_entry_then_settled timestamp aw c entry :
  settled (fst (applyAwarenessUpdate_entry timestamp aw c entry)) entry.
Proof.
  destruct entry as [[id remoteClock] remoteState].
  destruct (decide (accepts aw (id, remoteClock, remoteState))) as [Hacc|Hrej].
  2:{ rewrite applyAwarenessUpdate_entry_rejected by done. by left. }
  destruct (applyAwarenessUpdate_entry_accepted timestamp aw c _ _ _ Hacc)
    as [(Hstate & ->)|[(-> & -> & Hlocal & ->)|(-> & Hcase & ->)]].
  - left. unfold accepts, localClock. cbn. rewrite lookup_insert_eq. cbn.
    intros [Hlt|(_ & Hnull & _)]; [lia|done].
  - destruct (decide (Double.succ remoteClock = remoteClock)) as [Hstuck|Hmoves].
    + right. cbn. unfold localClock. cbn. rewrite lookup_insert_eq. cbn.
      repeat split; done.
    + left. unfold accepts, localClock. cbn. rewrite lookup_insert_eq. cbn.
      pose proof (Double_succ_le remoteClock). intros [Hlt|(Heq & _)]; lia.
  - left. unfold accepts, localClock, online. cbn.
    rewrite lookup_insert_eq, lookup_delete_eq. cbn.
    intros [Hlt|(_ & _ & [v Hv])]; [lia|done].
Qed.

(** A settled entry stays settled whatever is merged. *)
Lemma settled_preserved timestamp aw c entry other :
  settled aw entry ->
  settled (fst (applyAwarenessUpdate_entry timestamp aw c other)) entry.
Proof.
  intros [Hrej|(Hid & Hnull & Hlocal & Hclock & Hstuck)].
  { left. by apply rejected_preserved. }
  destruct entry as [[id remoteClock] remoteState].
  cbn in Hid, Hnull, Hclock, Hstuck. subst id remoteState.
  destruct other as [[id' remoteClock'] remoteState'].
  destruct (decide (accepts aw (id', remoteClock', remoteState'))) as [Hacc|Hrej'].
  2:{ rewrite applyAwarenessUpdate_entry_rejected by done. right. by repeat split. }
  destruct (decide (id' = clientID aw)) as [->|Hne].
  2:{ right. cbn [fst snd]. rewrite applyAwarenessUpdate_entry_clientID.
      unfold getLocalState, localClock. rewrite applyAwarenessUpdate_entry_clientID.
      assert (clientID aw <> id') as Hne' by done.
      destruct (applyAwarenessUpdate_entry_frame timestamp aw c id' remoteClock'
                  remoteState' (clientID aw) Hne') as [-> ->].
      by repeat split. }
  pose proof (accepts_clock_le _ _ _ _ Hacc) as Hle.
  destruct (applyAwarenessUpdate_entry_accepted timestamp aw c _ _ _ Hacc)
    as [(Hstate & ->)|[(-> & _ & _ & ->)|(-> & [?|Hoff] & ->)]]; try done.
  - left. unfold accepts, localClock. cbn. rewrite lookup_insert_eq. cbn.
    destruct Hacc as [Hlt|(_ & ? & _)]; [|done].
    intros [?|(? & _)]; lia.
  - pose proof (Double_succ_le remoteClock') as Hsucc.
    destruct (decide (Double.succ remoteClock' = remoteClock)) as [Heq|Hneq].
    + right. cbn. unfold localClock. cbn. rewrite lookup_insert_eq. cbn.
      by repeat split.
    + left. unfold accepts, localClock. cbn. rewrite lookup_insert_eq. cbn.
      intros [?|(? & _)]; lia.
Qed.

Lemma settled_preserved_entries timestamp aw c entry entries :
  settled aw entry -> settled (fst (applyEntries timestamp aw c entries)) entry.
Proof.
  revert aw c. induction entries as [|other entries IH]; intros aw c Hsettled; [done|].
  rewrite applyEntries_cons. by apply IH, settled_preserved.
Qed.

(** After a list of entries is merged, each of them is settled. *)
Lemma applyEntries_then_settled timestamp aw c entries :
  Forall (settled (fst (applyEntries timestamp aw c entries))) entries.
Proof.
  revert aw c. induction entries as [|entry entries IH]; intros aw c; [constructor|].
  rewrite applyEntries_cons. constructor; [|apply IH].
  apply settled_preserved_entries, applyAwarenessUpdate_entry_then_settled.
Qed.

(** Merging settled entries shows nothing new. *)
Lemma applyEntries_settled_view timestamp aw c entries :
  Forall (settled aw) entries ->
  same_view (fst (applyEntries timestamp aw c entries)) aw.
Proof.
  revert aw c. induction entries as [|entry entries IH]; intros aw c Hall.
  { apply same_view_refl. }
  apply Forall_cons in Hall as [Hentry Hall]. rewrite applyEntries_cons.
  eapply same_view_trans; [apply IH|by apply settled_view].
  eapply Forall_impl; [exact Hall|]. intros e He. by apply settled_preserved.
Qed.

(** A settled entry with a clock below 2^53 is a rejected one. *)
Lemma settled_rejected aw entry :
  entry.1.2 < Double.limit -> settled aw entry -> ~ accepts aw entry.
Proof.
  intros Hlt [Hrej|(_ & _ & _ & _ & Hstuck)]; [done|].
  assert (Double.limit <= entry.1.2) by (apply Double_succ_stuck; lia). lia.
Qed.

(** Replaying entries shows nothing new; with clocks below 2^53 it changes
    nothing and classifies nothing. *)
Lemma applyEntries_idempotent_view timestamp timestamp' aw c c' entries :
  same_view
    (fst (applyEntries timestamp' (fst (applyEntries timestamp aw c entries)) c' entries))
    (fst (applyEntries timestamp aw c entries)).
Proof. apply applyEntries_settled_view, applyEntries_then_settled. Qed.

Lemma applyEntries_idempotent timestamp timestamp' aw c c' entries :
  Forall (fun entry => entry.1.2 < Double.limit) entries ->
  applyEntries timestamp' (fst (applyEntries timestamp aw c entries)) c' entries
  = (fst (applyEntries timestamp aw c entries), c').
Proof.
  intros Hbelow. apply applyEntries_rejected.
  pose proof (applyEntries_then_settled timestamp aw c entries) as Hsettled.
  apply Forall_forall. intros e He.
  apply settled_rejected; [by eapply Forall_forall in Hbelow|by eapply Forall_forall in Hsettled].
Qed.

Lemma applyAwarenessUpdate_entries_of aw update origin timestamp :
  fst (applyAwarenessUpdate aw update origin timestamp)
  = fst (applyEntries timestamp aw no_changes (entries_of update)).
Proof.
  rewrite applyAwarenessUpdate_store. unfold entries_of.
  by destruct (readVarUint update) as [[len decoder]|e].
Qed.

Lemma decodeAwarenessUpdate_entries_of update entries :
  decodeAwarenessUpdate update = Normal entries -> entries_of update = entries.
Proof.
  unfold decodeAwarenessUpdate, entries_of.
  destruct (readVarUint update) as [[len decoder]|e]; cbn; [|done].
  apply decodeAwarenessUpdate_loop_entries_read.
Qed.

(** Replaying an update shows nothing new; when the clocks it carries are
    below 2^53 the replay changes nothing, and when the update decodes it
    emits no event. *)
Lemma applyAwarenessUpdate_replay_view aw update origin timestamp origin' timestamp' :
  same_view
    (fst (applyAwarenessUpdate (fst (applyAwarenessUpdate aw update origin timestamp))
            update origin' timestamp'))
    (fst (applyAwarenessUpdate aw update origin timestamp)).
Proof. rewrite !applyAwarenessUpdate_entries_of. apply applyEntries_idempotent_view. Qed.

Lemma applyAwarenessUpdate_replay aw update origin timestamp origin' timestamp' :
  Forall (fun entry => entry.1.2 < Double.limit) (entries_of update) ->
  fst (applyAwarenessUpdate (fst (applyAwarenessUpdate aw update origin timestamp))
         update origin' timestamp')
  = fst (applyAwarenessUpdate aw update origin timestamp).
Proof.
  intros Hbelow. rewrite !applyAwarenessUpdate_entries_of.
  by rewrite applyEntries_idempotent.
Qed.

Lemma applyAwarenessUpdate_replay_silent aw update origin timestamp origin' timestamp'
    entries :
  decodeAwarenessUpdate update = Normal entries ->
  Forall (fun entry => entry.1.2 < Double.limit) entries ->
  snd (applyAwarenessUpdate (fst (applyAwarenessUpdate aw update origin timestamp))
         update origin' timestamp')
  = Normal [].
Proof.
  intros Hdec Hbelow. rewrite !(applyAwarenessUpdate_decode _ _ _ _ _ Hdec). cbn.
  by rewrite applyEntries_idempotent.
Qed.

(** C7. Idempotence. Merging the same state into a register twice in a row
    leaves the register as merging it once does; applying the same update
    to a store twice leaves [states] and the [meta] clocks as applying it
    once does, for every update buffer, every origin and every time of
    arrival. When every clock that the update carries is below 2^53 the
    whole store, times of arrival included, is as after the first time. *)
Theorem merge_idempotent :
  (forall (T : Type) (r : LWWRegister.t T) (s : IState T),
      LWWRegister.merge (LWWRegister.merge r s) s = LWWRegister.merge r s)
  /\ (forall (aw : Awareness) (update : list byte)
             (origin origin' : string) (timestamp timestamp' : N),
         let once := fst (applyAwarenessUpdate aw update origin timestamp) in
         let twice := fst (applyAwarenessUpdate once update origin' timestamp') in
         states twice = states once
         /\ clocks twice = clocks once
         /\ (forall id, localClock twice id = localClock once id)
         /\ (Forall (fun entry => entry.1.2 < Double.limit) (entries_of update) ->
             meta twice = meta once /\ twice = once)).
Proof.
  split; [intros T r s; apply merge_merge|].
  intros aw update origin origin' timestamp timestamp'. cbv zeta.
  pose proof (applyAwarenessUpdate_replay_view aw update origin timestamp origin'
                timestamp') as Hview.
  split; [apply Hview|]. split; [apply Hview|].
  split; [intros id; by apply same_view_localClock|].
  intros Hbelow. by rewrite applyAwarenessUpdate_replay.
Qed.

(** At the clock 2^53 a replay does move the time of arrival. Client 1
    holds the state [{}]; the removal [(1, 2^53, null)] is accepted each
    time it is applied, and each time [lastUpdated] is stamped anew and the
    client is reported as removed. *)
Example applyAwarenessUpdate_replay_at_limit :
  let update := writeUpdate [(1, 9007199254740992, JNull)] in
  let once := fst (applyAwarenessUpdate (newAwareness 1 0) update "remote" 10) in
  let twice := fst (applyAwarenessUpdate once update "remote" 20) in
  meta once !! 1 = Some (mkMeta 9007199254740992 10)
  /\ meta twice !! 1 = Some (mkMeta 9007199254740992 20)
  /\ snd (applyAwarenessUpdate once update "remote" 20)
     = Normal [Change (mkChanges [] [] [1]) "remote";
               Update (mkChanges [] [] [1]) "remote"].
Proof. by vm_compute. Qed.

(** C4. An entry [(id, remoteClock, remoteState)] is accepted exactly when
    the local clock (0 without [meta] entry) is below the remote clock, or
    equals it while the remote state is [null] and the peer has a [states]
    entry. An accepted entry rewrites [meta] for the peer with the arrival
    time and stores or deletes the state; a rejected entry leaves the store
    and the classification as they were. Neither raises: on an update
    whose entries decode, [applyAwarenessUpdate] returns normally. *)
Theorem applyAwarenessUpdate_accepts_iff
    (timestamp : N) (aw : Awareness) (c : Classified)
    (id remoteClock : N) (remoteState : json) :
  let entry := (id, remoteClock, remoteState) in
  let aw' := fst (applyAwarenessUpdate_entry timestamp aw c entry) in
  let c' := snd (applyAwarenessUpdate_entry timestamp aw c entry) in
  let accepted :=
    localClock aw id < remoteClock
    \/ (localClock aw id = remoteClock /\ remoteState = JNull
        /\ is_Some (states aw !! id)) in
  (accepted ->
     (exists storedClock,
         meta aw' !! id = Some (mkMeta storedClock timestamp)
         /\ (storedClock = remoteClock \/ storedClock = Double.succ remoteClock))
     /\ (remoteState <> JNull -> states aw' !! id = Some remoteState)
     /\ (remoteState = JNull ->
         states aw' !! id = None
         \/ (id = clientID aw /\ states aw' = states aw)))
  /\ (~ accepted -> aw' = aw /\ c' = c)
  /\ (aw' <> aw -> accepted)
  /\ (forall update entries origin,
         decodeAwarenessUpdate update = Normal entries ->
         exists events,
           snd (applyAwarenessUpdate aw update origin timestamp) = Normal events).
Proof.
  cbv zeta. change (localClock aw id < remoteClock
                    \/ (localClock aw id = remoteClock /\ remoteState = JNull
                        /\ is_Some (states aw !! id)))
    with (accepts aw (id, remoteClock, remoteState)).
  split; [|split; [|split]].
  - intros Hacc. destruct (decide (remoteState = JNull)) as [->|Hstate].
    + destruct (decide (id = clientID aw /\ getLocalState aw <> JNull))
        as [[-> Hlocal]|Hno].
      * rewrite applyAwarenessUpdate_entry_protected by done. cbn.
        rewrite lookup_insert_eq. split; [eauto|]. split; [done|]. intros _. by right.
      * rewrite applyAwarenessUpdate_entry_removed; [|done|].
        -- cbn. rewrite lookup_insert_eq, lookup_delete_eq.
           split; [eauto|]. split; [done|]. intros _. by left.
        -- destruct (decide (id = clientID aw)); [|by left].
           destruct (decide (getLocalState aw = JNull)); [by right|]. by destruct Hno.
    + rewrite applyAwarenessUpdate_entry_state by done. cbn.
      rewrite !lookup_insert_eq. split; [eauto|]. split; done.
  - intros Hrej. by rewrite applyAwarenessUpdate_entry_rejected.
  - intros Hchanged. destruct (decide (accepts aw (id, remoteClock, remoteState)))
      as [Hacc|Hrej]; [done|].
    by rewrite applyAwarenessUpdate_entry_rejected in Hchanged.
  - intros update entries origin Hdec.
    rewrite (applyAwarenessUpdate_decode _ _ _ _ _ Hdec). cbn. eauto.
Qed.

(** C4 at a concrete store: client 1 (clock 0) accepts a first state of
    peer 2 at clock 3 and rejects a state for itself at its own clock 0. *)
Lemma applyAwarenessUpdate_accepts_iff_witness :
  let aw := newAwareness 1 0 in
  states (fst (applyAwarenessUpdate_entry 9 aw no_changes (2, 3, JObj []))) !! 2
  = Some (JObj [])
  /\ fst (applyAwarenessUpdate_entry 9 aw no_changes (1, 0, JObj [])) = aw
  /\ snd (applyAwarenessUpdate_entry 9 aw no_changes (1, 0, JObj [])) = no_changes.
Proof.
  cbv zeta. split.
  - destruct (applyAwarenessUpdate_accepts_iff 9 (newAwareness 1 0) no_changes 2 3 (JObj []))
      as (Hacc & _).
    destruct Hacc as (_ & Hstate & _); [left; reflexivity|].
    apply Hstate. discriminate.
  - destruct (applyAwarenessUpdate_accepts_iff 9 (newAwareness 1 0) no_changes 1 0 (JObj []))
      as (_ & Hrej & _).
    apply Hrej. intros [Hlt|(_ & Hnull & _)]; [|discriminate].
    vm_compute in Hlt. discriminate.
Defined.

(* --------------------------------------------------------------------- *)
(** ** The wire format *)
(* --------------------------------------------------------------------- *)

(** *** Variable-length integers *)

Lemma to_byte_to_N n : n < 256 -> Byte.to_N (to_byte n) = n.
Proof.
  intros Hn. unfold to_byte. rewrite N.mod_small by done.
  destruct (Byte.of_N n) as [b|] eqn:Hb.
  - cbn. by apply Byte.to_of_N.
  - exfalso. pose proof (Byte.to_of_N_option_map n) as Hmap.
    rewrite Hb in Hmap. cbn in Hmap.
    destruct (N.leb_spec n 255); [done|lia].
Qed.

Lemma land_127 n : N.land n 127 = n mod 128.
Proof. change 127 with (N.ones 7). by rewrite N.land_ones. Qed.

Lemma lor_128_small n : n < 128 -> N.lor 128 n = 128 + n.
Proof.
  intros Hn.
  assert (N.land 128 n = 0) as Hdisjoint.
  { change 128 with (2 ^ 7).
    apply N.bits_inj. intros k. rewrite N.land_spec, N.bits_0, N.pow2_bits_eqb.
    destruct (N.eqb_spec 7 k) as [<-|Hk]; [|apply andb_false_l].
    rewrite andb_true_l. destruct (N.eq_dec n 0) as [->|Hn0]; [done|].
    apply N.bits_above_log2. apply N.log2_lt_pow2; lia. }
  rewrite <- N.lxor_lor by done. symmetry. by apply N.add_nocarry_lxor.
Qed.

(** The last byte of a varuint: seven bits, top bit clear. *)
Lemma readVarUint_loop_last num rest acc mult :
  num <= 127 ->
  readVarUint_loop (to_byte (N.land 127 num) :: rest) acc mult
  = Normal (acc + num * mult, rest).
Proof.
  intros Hnum. cbn -[N.land]. rewrite N.land_comm, land_127, N.mod_small by lia.
  rewrite to_byte_to_N by lia. rewrite land_127, N.mod_small by lia.
  destruct (N.ltb_spec num 128); [done|lia].
Qed.

Lemma readVarUint_loop_writeVarUint_loop fuel num rest acc mult :
  N.log2 num <= N.of_nat fuel ->
  readVarUint_loop (writeVarUint_loop fuel num ++ rest) acc mult
  = Normal (acc + num * mult, rest).
Proof.
  revert num acc mult.
  induction fuel as [|fuel IH]; intros num acc mult Hfuel.
  - apply readVarUint_loop_last. destruct (N.eq_dec num 0) as [->|Hn0]; [lia|].
    assert (num < 2 ^ 1); [apply N.log2_lt_pow2; lia|]. cbn in *. lia.
  - cbn -[N.div N.land N.lor]. destruct (N.ltb_spec 127 num) as [Hbig|Hsmall].
    2:{ apply readVarUint_loop_last. lia. }
    cbn -[N.div N.land N.lor].
    rewrite (N.land_comm 127), land_127.
    pose proof (N.mod_upper_bound num 128 ltac:(lia)) as Hmod.
    pose proof (N.div_mod num 128 ltac:(lia)) as Hnum.
    assert (N.log2 (num / 128) <= N.of_nat fuel) as Hlog.
    { change 128 with (2 ^ 7). rewrite <- N.shiftr_div_pow2, N.log2_shiftr. lia. }
    set (low := num mod 128) in *. set (high := num / 128) in *.
    clearbody low high.
    rewrite lor_128_small by done.
    rewrite to_byte_to_N by lia.
    rewrite land_127.
    replace ((128 + low) mod 128) with low.
    2:{ apply N.mod_unique with (q := 1); lia. }
    destruct (N.ltb_spec (128 + low) 128); [lia|].
    rewrite IH by done. f_equal. f_equal. nia.
Qed.

Lemma readVarUint_writeVarUint num rest :
  readVarUint (writeVarUint num ++ rest) = Normal (num, rest).
Proof.
  unfold readVarUint, writeVarUint.
  rewrite readVarUint_loop_writeVarUint_loop by lia. f_equal. f_equal. lia.
Qed.

(** *** Length-prefixed strings *)

Lemma readVarString_writeVarString str rest :
  readVarString (writeVarString str ++ rest) = Normal (str, rest).
Proof.
  unfold readVarString, writeVarString.
  rewrite <- app_assoc, readVarUint_writeVarUint. cbn.
  rewrite length_app.
  destruct (N.ltb_spec (N.of_nat (length (list_byte_of_string str) + length rest))
              (N.of_nat (length (list_byte_of_string str)))) as [Hlt|_]; [lia|].
  rewrite Nat2N.id, take_app_length, drop_app_length.
  by rewrite string_of_list_byte_of_string.
Qed.

(** *** JSON text *)

Local Open Scope char_scope.

(** Induction on [json] with the items of arrays and objects. *)
Lemma json_ind (P : json -> Prop) :
  P JNull ->
  (forall b, P (JBool b)) ->
  (forall n, P (JNum n)) ->
  (forall s, P (JStr s)) ->
  (forall items, Forall P items -> P (JArr items)) ->
  (forall fields, Forall (fun kv => P (snd kv)) fields -> P (JObj fields)) ->
  forall v, P v.
Proof.
  intros Hnull Hbool Hnum Hstr Harr Hobj.
  fix IH 1. intros [ | b | n | s | items | fields ].
  - exact Hnull.
  - apply Hbool.
  - apply Hnum.
  - apply Hstr.
  - apply Harr. induction items as [|v items IHitems]; constructor; [apply IH|done].
  - apply Hobj. induction fields as [|[k v] fields IHfields]; constructor; [apply IH|done].
Qed.

Lemma parse_chars_escape_char c rest :
  parse_chars (escape_char c ++ rest)
  = match parse_chars rest with
    | Some (cs, r') => Some (c :: cs, r')
    | None => None
    end.
Proof.
  destruct c as [[] [] [] [] [] [] [] []]; reflexivity.
Qed.

Lemma parse_chars_flat_map l rest :
  parse_chars (flat_map escape_char l ++ "034" :: rest) = Some (l, rest).
Proof.
  induction l as [|c l IH]; [done|].
  cbn [flat_map]. rewrite <- app_assoc, parse_chars_escape_char, IH. done.
Qed.

Lemma parse_chars_print_string s rest :
  exists tl, JSON_print_string s ++ rest = "034" :: tl
             /\ parse_chars tl = Some (list_ascii_of_string s, rest).
Proof.
  exists (flat_map escape_char (list_ascii_of_string s) ++ "034" :: rest). split.
  - unfold JSON_print_string. cbn. by rewrite <- app_assoc.
  - apply parse_chars_flat_map.
Qed.

Lemma read_digits_print_uint d rest :
  delimited rest -> read_digits (print_uint d ++ rest) = (d, rest).
Proof.
  intros Hrest. induction d; cbn; try (by rewrite IHd).
  destruct rest as [|c rest]; [done|]. cbn in *. by rewrite Hrest.
Qed.

Lemma unorm_to_uint n : Decimal.unorm (N.to_uint n) = N.to_uint n.
Proof.
  rewrite <- (DecimalN.Unsigned.of_to n) at 2.
  rewrite DecimalN.Unsigned.to_of. done.
Qed.

Lemma to_uint_nonnil n : N.to_uint n <> Decimal.Nil.
Proof. rewrite <- unorm_to_uint. apply unorm_nonnil. Qed.

Lemma parse_uint_print_uint n rest :
  delimited rest ->
  parse_uint (print_uint (N.to_uint n) ++ rest) = Some (n, rest).
Proof.
  intros Hrest. unfold parse_uint. rewrite read_digits_print_uint by done.
  pose proof (to_uint_nonnil n) as Hnil.
  rewrite unorm_to_uint, Decimal.internal_uint_dec_lb by done.
  rewrite DecimalN.Unsigned.of_to.
  by destruct (N.to_uint n).
Qed.

Lemma print_uint_head d :
  d <> Decimal.Nil -> exists c tl, print_uint d = c :: tl /\ is_digit c = true.
Proof. destruct d; [done|..]; intros _; eexists _, _; split; reflexivity. Qed.

Lemma is_digit_not_ws c : is_digit c = true -> is_ws c = false.
Proof. destruct c as [[] [] [] [] [] [] [] []]; done. Qed.

Lemma is_digit_not_bracket c : is_digit c = true -> (c =? "]") = false.
Proof. destruct c as [[] [] [] [] [] [] [] []]; done. Qed.

(** The first character of a printed value starts a token and does not
    close an array. *)
Lemma JSON_print_head v :
  exists c tl, JSON_print v = c :: tl /\ is_ws c = false /\ (c =? "]") = false.
Proof.
  destruct v as [ | [] | n | s | items | fields ]; try (eexists _, _; by split).
  cbn. unfold JSON_print_number. destruct (n <? 0)%Z; [eexists _, _; by split|].
  destruct (print_uint_head _ (to_uint_nonnil (Z.to_N n))) as (c & tl & -> & Hc).
  exists c, tl. split; [done|]. split; [by apply is_digit_not_ws|by apply is_digit_not_bracket].
Qed.

Lemma skip_ws_token c tl : is_ws c = false -> skip_ws (c :: tl) = c :: tl.
Proof. intros Hc. cbn. by rewrite Hc. Qed.

Lemma parse_value_S fuel s :
  parse_value (S fuel) s
  = match skip_ws s with
    | [] => None
    | c :: r =>
        if is_digit c then
          '(n, r') ← parse_uint (c :: r); Some (JNum (Z.of_N n), r')
        else if c =? "-" then
          '(n, r') ← parse_uint r; Some (JNum (- Z.of_N n), r')
        else if c =? "n" then
          r' ← expect ["u"; "l"; "l"] r; Some (JNull, r')
        else if c =? "t" then
          r' ← expect ["r"; "u"; "e"] r; Some (JBool true, r')
        else if c =? "f" then
          r' ← expect ["a"; "l"; "s"; "e"] r; Some (JBool false, r')
        else if c =? "034" then
          '(cs, r') ← parse_chars r; Some (JStr (string_of_list_ascii cs), r')
        else if c =? "[" then
          match expect ["]"] (skip_ws r) with
          | Some r' => Some (JArr [], r')
          | None => '(vs, r') ← parse_items fuel r; Some (JArr vs, r')
          end
        else if c =? "{" then
          match expect ["}"] (skip_ws r) with
          | Some r' => Some (JObj [], r')
          | None => '(fs, r') ← parse_fields fuel r; Some (JObj fs, r')
          end
        else None
    end.
Proof. reflexivity. Qed.

Lemma parse_items_S fuel s :
  parse_items (S fuel) s
  = '(v, r) ← parse_value fuel s;
    match skip_ws r with
    | c :: r' =>
        if c =? "," then '(vs, r'') ← parse_items fuel r'; Some (v :: vs, r'')
        else if c =? "]" then Some ([v], r')
        else None
    | [] => None
    end.
Proof. reflexivity. Qed.

Lemma parse_fields_S fuel s :
  parse_fields (S fuel) s
  = match skip_ws s with
    | c :: r =>
        if c =? "034" then
          '(k, r1) ← parse_chars r;
          match skip_ws r1 with
          | c1 :: r2 =>
              if c1 =? ":" then
                '(v, r3) ← parse_value fuel r2;
                match skip_ws r3 with
                | c3 :: r4 =>
                    if c3 =? "," then
                      '(fs, r5) ← parse_fields fuel r4;
                      Some ((string_of_list_ascii k, v) :: fs, r5)
                    else if c3 =? "}" then
                      Some ([(string_of_list_ascii k, v)], r4)
                    else None
                | [] => None
                end
              else None
          | [] => None
          end
        else None
    | [] => None
    end.
Proof. reflexivity. Qed.

Lemma parse_items_print_items items fuel rest :
  Forall reads_back items -> items <> [] ->
  (length (print_items JSON_print items) <= fuel)%nat ->
  parse_items fuel (print_items JSON_print items ++ rest) = Some (items, rest).
Proof.
  intros Hitems. revert fuel.
  induction Hitems as [|v items Hv Hitems IH]; intros fuel Hne Hfuel; [done|].
  destruct fuel as [|fuel].
  { destruct items; cbn in Hfuel; rewrite ?length_app in Hfuel; cbn in Hfuel; lia. }
  rewrite parse_items_S.
  destruct items as [|v' items].
  - cbn [print_items] in *. rewrite length_app in Hfuel. cbn in Hfuel.
    rewrite <- app_assoc. rewrite Hv by (done || lia). cbn. done.
  - change (print_items JSON_print (v :: v' :: items))
      with (JSON_print v ++ "," :: print_items JSON_print (v' :: items)) in *.
    rewrite length_app in Hfuel. cbn [length] in Hfuel.
    rewrite <- app_assoc. rewrite Hv by (done || lia).
    cbn [mbind option_bind skip_ws is_ws app]. cbn -[print_items parse_items].
    rewrite IH by (done || lia). done.
Qed.

Lemma parse_fields_print_fields fields fuel rest :
  Forall (fun kv => reads_back (snd kv)) fields -> fields <> [] ->
  (length (print_fields JSON_print fields) <= fuel)%nat ->
  parse_fields fuel (print_fields JSON_print fields ++ rest) = Some (fields, rest).
Proof.
  intros Hfields. revert fuel.
  induction Hfields as [|[k v] fields Hv Hfields IH]; intros fuel Hne Hfuel; [done|].
  cbn [snd] in Hv.
  destruct fuel as [|fuel].
  { destruct fields; cbn in Hfuel; lia. }
  rewrite parse_fields_S.
  destruct fields as [|kv' fields].
  - change (print_fields JSON_print [(k, v)])
      with (JSON_print_string k ++ ":" :: JSON_print v ++ ["}"]) in *.
    rewrite !length_app in Hfuel. cbn [length] in Hfuel. rewrite length_app in Hfuel.
    rewrite <- app_assoc.
    destruct (parse_chars_print_string k ((":" :: JSON_print v ++ ["}"]) ++ rest))
      as (tl & -> & Hkey).
    cbn -[parse_value JSON_print parse_chars]. rewrite Hkey.
    cbn -[parse_value JSON_print]. rewrite <- !app_assoc.
    rewrite Hv by (done || lia). cbn.
    by rewrite string_of_list_ascii_of_string.
  - change (print_fields JSON_print ((k, v) :: kv' :: fields))
      with (JSON_print_string k ++ ":" :: JSON_print v
            ++ "," :: print_fields JSON_print (kv' :: fields)) in *.
    rewrite !length_app in Hfuel. cbn [length] in Hfuel. rewrite length_app in Hfuel.
    cbn [length] in Hfuel.
    rewrite <- app_assoc.
    destruct (parse_chars_print_string k
                ((":" :: JSON_print v ++ "," :: print_fields JSON_print (kv' :: fields))
                 ++ rest)) as (tl & -> & Hkey).
    cbn -[parse_value JSON_print print_fields parse_fields parse_chars]. rewrite Hkey.
    cbn -[parse_value JSON_print print_fields parse_fields]. rewrite <- !app_assoc.
    rewrite Hv by (done || lia).
    cbn -[print_fields parse_fields].
    rewrite IH by (done || lia). cbn.
    by rewrite string_of_list_ascii_of_string.
Qed.

Lemma print_items_head items :
  items <> [] ->
  exists c tl, print_items JSON_print items = c :: tl
               /\ is_ws c = false /\ (c =? "]") = false.
Proof.
  destruct items as [|v items]; [done|]. intros _.
  destruct (JSON_print_head v) as (c & tl & Hv & Hc).
  destruct items; cbn [print_items]; rewrite Hv; eexists _, _; by split.
Qed.

Lemma reads_back_all v : reads_back v.
Proof.
  induction v as [ | b | n | s | items IH | fields IH ] using json_ind;
    intros fuel rest Hfuel Hrest.
  - do 4 (destruct fuel as [|fuel]; [cbn in Hfuel; lia|]). reflexivity.
  - destruct b; do 4 (destruct fuel as [|fuel]; [cbn in Hfuel; lia|]); reflexivity.
  - cbn [JSON_print] in *. unfold JSON_print_number in *.
    destruct (Z.ltb_spec n 0) as [Hneg|Hpos].
    + destruct fuel as [|fuel]; [cbn in Hfuel; lia|].
      rewrite parse_value_S. cbn -[parse_uint].
      rewrite parse_uint_print_uint by done. cbn.
      rewrite N2Z.inj_abs_N. do 3 f_equal. lia.
    + destruct (print_uint_head _ (to_uint_nonnil (Z.to_N n))) as (c & tl & Hprint & Hc).
      destruct fuel as [|fuel]; [rewrite Hprint in Hfuel; cbn in Hfuel; lia|].
      rewrite parse_value_S. rewrite Hprint at 1. cbn [app].
      rewrite skip_ws_token by (by apply is_digit_not_ws). rewrite Hc.
      change (c :: tl ++ rest) with ((c :: tl) ++ rest). rewrite <- Hprint.
      rewrite parse_uint_print_uint by done. cbn.
      rewrite Z2N.id by done. done.
  - destruct fuel as [|fuel]; [cbn in Hfuel; lia|].
    rewrite parse_value_S. cbn [JSON_print].
    destruct (parse_chars_print_string s rest) as (tl & -> & Hbody).
    cbn -[parse_chars]. rewrite Hbody. cbn.
    by rewrite string_of_list_ascii_of_string.
  - destruct fuel as [|fuel]; [cbn in Hfuel; lia|].
    cbn [JSON_print length] in Hfuel.
    rewrite parse_value_S. cbn [JSON_print app].
    rewrite skip_ws_token by done. cbn [is_digit digit Ascii.eqb Bool.eqb].
    cbn -[print_items parse_items skip_ws expect].
    destruct (decide (items = [])) as [->|Hne]; [done|].
    destruct (print_items_head items Hne) as (c & tl & Hprint & Hws & Hclose).
    rewrite Hprint at 1. cbn [app]. rewrite skip_ws_token by done.
    cbn [expect]. rewrite Ascii.eqb_sym, Hclose.
    rewrite parse_items_print_items by (done || lia). done.
  - destruct fuel as [|fuel]; [cbn in Hfuel; lia|].
    cbn [JSON_print length] in Hfuel.
    rewrite parse_value_S. cbn [JSON_print app].
    rewrite skip_ws_token by done.
    cbn -[print_fields parse_fields skip_ws expect].
    destruct (decide (fields = [])) as [->|Hne]; [done|].
    assert (exists tl, print_fields JSON_print fields = "034" :: tl) as [tl Hprint].
    { destruct fields as [|[k v] fields]; [done|].
      destruct fields; cbn; eauto. }
    rewrite Hprint at 1. cbn [app]. rewrite skip_ws_token by done.
    cbn [expect]. change ("}" =? "034") with false. cbv iota.
    rewrite parse_fields_print_fields by (done || lia). done.
Qed.

(** The text round trip: [JSON.parse(JSON.stringify(v))] is [v]. *)
Lemma JSON_parse_stringify v : JSON_parse (JSON_stringify v) = Normal v.
Proof.
  unfold JSON_parse, JSON_stringify.
  rewrite list_ascii_of_string_of_list_ascii.
  rewrite <- (app_nil_r (JSON_print v)) at 2.
  rewrite reads_back_all; done.
Qed.

Local Close Scope char_scope.

(** *** Updates *)

Lemma readEntry_written clientID clock state rest :
  readEntry (writeVarUint clientID ++ writeVarUint clock
             ++ writeVarString (JSON_stringify state) ++ rest)
  = Normal ((clientID, clock, state), rest).
Proof.
  unfold readEntry. rewrite readVarUint_writeVarUint. cbn.
  rewrite readVarUint_writeVarUint. cbn.
  rewrite readVarString_writeVarString. cbn.
  by rewrite JSON_parse_stringify.
Qed.

Lemma decodeAwarenessUpdate_loop_encoded aw states clients :
  Forall (fun id => is_Some (meta aw !! id)) clients ->
  exists bytes,
    encodeAwarenessUpdate_loop aw states clients = Normal bytes
    /\ forall rest,
        decodeAwarenessUpdate_loop (length clients) (bytes ++ rest)
        = Normal (map (wire_entry aw states) clients).
Proof.
  induction 1 as [|id clients [m Hm] _ (bytes & Henc & Hdec)]; cbn.
  { by exists []. }
  rewrite Hm, Henc. cbn. eexists. split; [done|]. intros rest.
  rewrite <- !app_assoc, readEntry_written. cbn.
  rewrite Hdec. cbn. unfold wire_entry at 2, localClock. by rewrite Hm.
Qed.

(** What an encoded update decodes to, for every store: the state of a
    tuple is [states.get(id) || null]. *)
Lemma decodeAwarenessUpdate_encoded aw clients states :
  Forall (fun id => is_Some (meta aw !! id)) clients ->
  exists update,
    encodeAwarenessUpdate aw clients states = Normal update
    /\ decodeAwarenessUpdate update = Normal (map (wire_entry aw states) clients).
Proof.
  intros Hmeta.
  destruct (decodeAwarenessUpdate_loop_encoded aw states clients Hmeta)
    as (bytes & Henc & Hdec).
  unfold encodeAwarenessUpdate. rewrite Henc. cbn. eexists. split; [done|].
  unfold decodeAwarenessUpdate. rewrite readVarUint_writeVarUint. cbn.
  rewrite Nat2N.id. rewrite <- (app_nil_r bytes). apply Hdec.
Qed.

Lemma or_null_truthy (o : option json) :
  (forall state, o = Some state -> truthy state = true) ->
  or_null o = default JNull o.
Proof.
  intros Htruthy. destruct o as [state|]; [|done]. cbn.
  by rewrite (Htruthy state).
Qed.

(** C8, as the code has it. For every store and every list of peer ids that
    all have a [meta] entry and whose [states] entries are truthy (as every
    object is, the empty object and nested objects included),
    [encodeAwarenessUpdate] returns a buffer, and decoding that buffer
    yields exactly one tuple per id, in list order: the id, that peer's meta
    clock, and as state the peer's [states] entry, or [null] when the peer
    has no [states] entry. [applyAwarenessUpdate] on the buffer merges
    exactly these tuples and does not throw. *)
Theorem encodeAwarenessUpdate_round_trip
    (aw : Awareness) (clients : list N) (states : gmap N json) :
  Forall (fun id => is_Some (meta aw !! id)) clients ->
  Forall (fun id => forall state, states !! id = Some state -> truthy state = true)
         clients ->
  let tuples :=
    map (fun id => (id, localClock aw id, default JNull (states !! id))) clients in
  exists update,
    encodeAwarenessUpdate aw clients states = Normal update
    /\ decodeAwarenessUpdate update = Normal tuples
    /\ forall receiver origin timestamp,
        applyAwarenessUpdate receiver update origin timestamp
        = (fst (applyEntries timestamp receiver no_changes tuples),
           Normal (applyAwarenessUpdate_emit
                     (snd (applyEntries timestamp receiver no_changes tuples))
                     origin)).
Proof.
  intros Hmeta Htruthy. cbv zeta.
  destruct (decodeAwarenessUpdate_encoded aw clients states Hmeta)
    as (update & Henc & Hdec).
  assert (map (wire_entry aw states) clients
          = map (fun id => (id, localClock aw id, default JNull (states !! id))) clients)
    as Htuples.
  { apply map_ext_Forall. eapply Forall_impl; [exact Htruthy|].
    intros id Hid. unfold wire_entry. cbn. by rewrite or_null_truthy. }
  rewrite Htuples in Hdec.
  exists update. split; [done|]. split; [done|].
  intros receiver origin timestamp. by apply applyAwarenessUpdate_decode.
Qed.

(** C8 at [sample_store], for the ids 2, 1, 3 in this order: a nested
    object, the empty object, and a peer without [states] entry. *)
Lemma encodeAwarenessUpdate_round_trip_witness :
  let tuples :=
    map (fun id => (id, localClock sample_store id,
                    default JNull (states sample_store !! id))) [2; 1; 3] in
  exists update,
    encodeAwarenessUpdate sample_store [2; 1; 3] (states sample_store) = Normal update
    /\ decodeAwarenessUpdate update = Normal tuples
    /\ forall receiver origin timestamp,
        applyAwarenessUpdate receiver update origin timestamp
        = (fst (applyEntries timestamp receiver no_changes tuples),
           Normal (applyAwarenessUpdate_emit
                     (snd (applyEntries timestamp receiver no_changes tuples))
                     origin)).
Proof.
  apply (encodeAwarenessUpdate_round_trip sample_store [2; 1; 3] (states sample_store)).
  - repeat constructor; eexists; vm_compute; reflexivity.
  - repeat constructor; intros state Hstate; vm_compute in Hstate;
      injection Hstate as <- || discriminate Hstate; reflexivity.
Defined.

(** The tuples of the witness, spelled out. *)
Example sample_store_tuples :
  map (fun id => (id, localClock sample_store id,
                  default JNull (states sample_store !! id))) [2; 1; 3]
  = [(2, 4, JObj [("a"%string, JObj [("b"%string, JArr [JNum 1; JNull])])]);
     (1, 0, JObj []);
     (3, 2, JNull)].
Proof. vm_compute. reflexivity. Qed.

(** C8 as the claim words it fails on a falsy state. Client 1 receives the
    update [(2, 1, 0)] (one entry: id 2, clock 1, the JSON text 0). Its
    [states] entry for peer 2 is then the number 0, with a [meta] entry; the
    update it encodes for peer 2 decodes to the state [null], not 0. *)
Lemma encodeAwarenessUpdate_falsy_state_as_null :
  let aw := fst (applyAwarenessUpdate (newAwareness 1 0)
                   [x01; x02; x01; x01; x30]%byte "remote" 9) in
  states aw !! 2 = Some (JNum 0)
  /\ meta aw !! 2 = Some (mkMeta 1 9)
  /\ (update ← encodeAwarenessUpdate aw [2] (states aw); decodeAwarenessUpdate update)
     = Normal [(2, 1, JNull)].
Proof. vm_compute. repeat split. Qed.

(** [modifyAwarenessUpdate] rewrites the states and keeps ids and clocks. *)
Lemma modifyAwarenessUpdate_loop_decoded len decoder modify entries :
  decodeAwarenessUpdate_loop len decoder = Normal entries ->
  exists bytes,
    modifyAwarenessUpdate_loop len decoder modify = Normal bytes
    /\ forall rest,
        decodeAwarenessUpdate_loop len (bytes ++ rest)
        = Normal (map (fun '(clientID, clock, state) => (clientID, clock, modify state))
                      entries).
Proof.
  revert decoder entries. induction len as [|len IH]; intros decoder entries; cbn.
  { intros [= <-]. by exists []. }
  destruct (readEntry decoder) as [[[[clientID clock] state] decoder']|e]; cbn; [|done].
  destruct (decodeAwarenessUpdate_loop len decoder') as [entries'|e] eqn:Hrest; cbn; [|done].
  intros [= <-]. destruct (IH _ _ Hrest) as (bytes & -> & Hdec). cbn.
  eexists. split; [done|]. intros rest.
  rewrite <- !app_assoc, readEntry_written. cbn. by rewrite Hdec.
Qed.

(** [modifyAwarenessUpdate] on an update that decodes returns an update that
    decodes to the same entries, in the same order, with the ids and the
    clocks as they were and every state replaced by [modify state]. *)
Lemma modifyAwarenessUpdate_decoded update modify entries :
  decodeAwarenessUpdate update = Normal entries ->
  exists update',
    modifyAwarenessUpdate update modify = Normal update'
    /\ decodeAwarenessUpdate update'
       = Normal (map (fun '(clientID, clock, state) => (clientID, clock, modify state))
                     entries).
Proof.
  unfold decodeAwarenessUpdate, modifyAwarenessUpdate.
  destruct (readVarUint update) as [[len decoder]|e]; cbn; [|done].
  intros Hdec.
  destruct (modifyAwarenessUpdate_loop_decoded _ _ modify _ Hdec) as (bytes & -> & Hdec').
  cbn. eexists. split; [done|].
  rewrite readVarUint_writeVarUint. cbn.
  rewrite <- (app_nil_r bytes). apply Hdec'.
Qed.

(* --------------------------------------------------------------------- *)
(** ** Further properties of the register and the map *)
(* --------------------------------------------------------------------- *)

(** Monotonicity: [set] stores the double sum of the timestamp and 1, which
    is the timestamp plus 1 while the timestamp is between -2^53 and 2^53
    and is never below the timestamp, and signs the state with the
    register's own id; [merge] never lowers the timestamp. *)
Theorem LWWRegister_timestamp_monotone {T} (r : LWWRegister.t T) (v : T)
    (remote : IState T) :
  timestamp (LWWRegister.state (LWWRegister.set r v))
  = Double.succZ (timestamp (LWWRegister.state r))
  /\ (timestamp (LWWRegister.state r)
      <= timestamp (LWWRegister.state (LWWRegister.set r v)))%Z
  /\ ((- Z.of_N Double.limit <= timestamp (LWWRegister.state r) < Z.of_N Double.limit)%Z ->
      timestamp (LWWRegister.state (LWWRegister.set r v))
      = (timestamp (LWWRegister.state r) + 1)%Z)
  /\ peer (LWWRegister.state (LWWRegister.set r v)) = LWWRegister.id r
  /\ (timestamp (LWWRegister.state r)
      <= timestamp (LWWRegister.state (LWWRegister.merge r remote)))%Z.
Proof.
  split; [done|]. split; [apply Double_succZ_le|].
  split; [apply Double_succZ_exact|]. split; [done|].
  unfold LWWRegister.merge.
  destruct (Z.gtb_spec (timestamp (LWWRegister.state r)) (timestamp remote)); [lia|].
  destruct (_ && _); cbn; lia.
Qed.

(** Convergence under distinct timestamps: two registers that merge each
    other's state end with the same state, the one with the larger
    timestamp. *)
Theorem LWWRegister_merge_converges {T} (a b : LWWRegister.t T) :
  timestamp (LWWRegister.state a) <> timestamp (LWWRegister.state b) ->
  let a' := LWWRegister.merge a (LWWRegister.state b) in
  let b' := LWWRegister.merge b (LWWRegister.state a) in
  LWWRegister.state a' = LWWRegister.state b'
  /\ timestamp (LWWRegister.state a')
     = Z.max (timestamp (LWWRegister.state a)) (timestamp (LWWRegister.state b)).
Proof.
  intros Hne. cbv zeta.
  destruct (Z.lt_trichotomy (timestamp (LWWRegister.state a))
              (timestamp (LWWRegister.state b))) as [Hlt|[Heq|Hgt]]; [|done|].
  - rewrite (merge_adopts a) by auto. rewrite (merge_rejects_older b) by lia.
    cbn. split; [done|lia].
  - rewrite (merge_rejects_older a) by lia. rewrite (merge_adopts b) by auto.
    cbn. split; [done|lia].
Qed.

Lemma LWWRegister_merge_converges_witness :
  let a := LWWRegister.new "alice" (mkIState "alice" 3 "a") in
  let b := LWWRegister.new "bob" (mkIState "bob" 5 "b") in
  let a' := LWWRegister.merge a (LWWRegister.state b) in
  let b' := LWWRegister.merge b (LWWRegister.state a) in
  LWWRegister.state a' = LWWRegister.state b'
  /\ timestamp (LWWRegister.state a')
     = Z.max (timestamp (LWWRegister.state a)) (timestamp (LWWRegister.state b)).
Proof.
  apply (LWWRegister_merge_converges
           (LWWRegister.new "alice" (mkIState "alice" 3%Z "a"))
           (LWWRegister.new "bob" (mkIState "bob" 5%Z "b"))).
  cbn. lia.
Defined.

(** Under a tie between different peers each register keeps its own state:
    the two replicas do not converge. *)
Example LWWRegister_tie_diverges :
  let a := LWWRegister.new "alice" (mkIState "alice" 5 "a") in
  let b := LWWRegister.new "bob" (mkIState "bob" 5 "b") in
  LWWRegister.state (LWWRegister.merge a (LWWRegister.state b)) = mkIState "alice" 5 "a"
  /\ LWWRegister.state (LWWRegister.merge b (LWWRegister.state a)) = mkIState "bob" 5 "b".
Proof. split; reflexivity. Qed.

(** Tombstones: [delete] on an existing key keeps the register with the
    value [null], signed by the map and stamped with the double sum of the
    old timestamp and 1 (the old timestamp plus 1 between -2^53 and 2^53);
    the key is hidden from [value], is listed with the tombstone in [state]
    unless it is the key [__proto__], and is hidden from the [value] of a
    fresh map that merged that state. *)
Theorem LWWMap_delete_tombstone {T} (m : LWWMap.t T) (key : string)
    (register : LWWRegister.t (option T)) :
  LWWMap.data m !! key = Some register ->
  let m' := LWWMap.delete m key in
  let tombstone :=
    mkIState (LWWRegister.id register)
             (Double.succZ (timestamp (LWWRegister.state register))) None in
  LWWMap.data m' !! key = Some (LWWRegister.new (LWWRegister.id register) tombstone)
  /\ ((- Z.of_N Double.limit <= timestamp (LWWRegister.state register)
       < Z.of_N Double.limit)%Z ->
      timestamp tombstone = (timestamp (LWWRegister.state register) + 1)%Z)
  /\ LWWMap.get_value m' !! key = None
  /\ LWWMap.get_state m' !! key
     = (if decide (key = "__proto__"%string) then None else Some tombstone)
  /\ forall id,
      LWWMap.get_value (LWWMap.merge (LWWMap.new id ∅) (LWWMap.get_state m')) !! key
      = None.
Proof.
  intros Hkey. cbv zeta. unfold LWWMap.delete. rewrite Hkey.
  unfold LWWMap.get_value, LWWMap.get_state, LWWMap.own_properties, LWWMap.merge,
    LWWMap.new. cbn.
  split; [by rewrite lookup_insert_eq|]. split; [apply Double_succZ_exact|].
  rewrite lookup_omap, lookup_fmap.
  destruct (decide (key = "__proto__"%string)) as [->|Hne].
  - rewrite !lookup_delete_eq. cbn. split; [done|]. split; [done|]. intros id.
    by rewrite lookup_omap, lookup_delete_eq.
  - rewrite !lookup_delete_ne, !lookup_insert_eq by done. cbn.
    split; [done|]. split; [done|]. intros id.
    rewrite lookup_omap, lookup_delete_ne, lookup_merge, fmap_empty, lookup_empty,
      lookup_fmap, lookup_delete_ne, lookup_insert_eq by done.
    done.
Qed.

Lemma LWWMap_delete_tombstone_witness :
  let m := LWWMap.set (LWWMap.new (T:=Z) "alice" ∅) "k" 7%Z in
  let m' := LWWMap.delete m "k" in
  let tombstone := mkIState "alice" (Double.succZ 1) None in
  LWWMap.data m' !! "k" = Some (LWWRegister.new "alice" tombstone)
  /\ ((- Z.of_N Double.limit <= 1 < Z.of_N Double.limit)%Z ->
      timestamp tombstone = (1 + 1)%Z)
  /\ LWWMap.get_value m' !! "k" = None
  /\ LWWMap.get_state m' !! "k"
     = (if decide ("k"%string = "__proto__"%string) then None else Some tombstone)
  /\ forall id,
      LWWMap.get_value (LWWMap.merge (LWWMap.new id ∅) (LWWMap.get_state m')) !! "k"
      = None.
Proof.
  apply (LWWMap_delete_tombstone
           (LWWMap.set (LWWMap.new (T:=Z) "alice" ∅) "k" 7%Z) "k"
           (LWWRegister.new "alice" (mkIState "alice" 1%Z (Some 7%Z)))).
  reflexivity.
Defined.

(* --------------------------------------------------------------------- *)
(** ** Further properties of the awareness store *)
(* --------------------------------------------------------------------- *)

(** In a store in lockstep the loop of [removeAwarenessStates] returns
    normally; afterwards no listed peer has a [states] entry, the other
    [states] entries are as before, and so is [meta] for every peer but the
    local client; [removed] gains the listed peers that were Online. *)
Lemma removeAwarenessStates_loop_spec aw clients now removed :
  lockstep aw ->
  exists aw' removed',
    removeAwarenessStates_loop aw clients now removed = (aw', Normal removed')
    /\ clientID aw' = clientID aw
    /\ lockstep aw'
    /\ (forall id, states aw' !! id
                   = if decide (id ∈ clients) then None else states aw !! id)
    /\ (forall id, id <> clientID aw -> meta aw' !! id = meta aw !! id)
    /\ (forall id, id ∈ removed' <-> id ∈ removed \/ (id ∈ clients /\ online aw id)).
Proof.
  revert aw removed. induction clients as [|id0 rest IH]; intros aw removed Hinv.
  { exists aw, removed. repeat split; try done.
    - by left.
    - intros [?|[Hin _]]; [done|]. by apply elem_of_nil in Hin. }
  assert (forall (aw1 : Awareness) removed1,
             clientID aw1 = clientID aw ->
             lockstep aw1 ->
             states aw1 = delete id0 (states aw) ->
             (forall id, id <> clientID aw -> meta aw1 !! id = meta aw !! id) ->
             (forall id, id ∈ removed1
                         <-> id ∈ removed \/ (id = id0 /\ online aw id0)) ->
             exists aw' removed',
               removeAwarenessStates_loop aw1 rest now removed1 = (aw', Normal removed')
               /\ clientID aw' = clientID aw
               /\ lockstep aw'
               /\ (forall id, states aw' !! id
                              = if decide (id ∈ id0 :: rest) then None
                                else states aw !! id)
               /\ (forall id, id <> clientID aw -> meta aw' !! id = meta aw !! id)
               /\ (forall id, id ∈ removed'
                              <-> id ∈ removed \/ (id ∈ id0 :: rest /\ online aw id)))
    as Hstep.
  { intros aw1 removed1 Hid1 Hinv1 Hst1 Hmeta1 Hrem1.
    destruct (IH aw1 removed1 Hinv1)
      as (aw' & removed' & Hloop & Hid & Hinv' & Hst & Hmeta & Hrem).
    exists aw', removed'. split; [done|]. split; [congruence|]. split; [done|].
    split; [|split].
    - intros id. rewrite Hst, Hst1.
      destruct (decide (id = id0)) as [->|Hne].
      + rewrite lookup_delete_eq.
        rewrite (decide_True (P := id0 ∈ id0 :: rest)) by (apply elem_of_cons; by left).
        by destruct (decide (id0 ∈ rest)).
      + rewrite lookup_delete_ne by done.
        destruct (decide (id ∈ rest)) as [Hin|Hnin].
        * by rewrite decide_True by (apply elem_of_cons; by right).
        * rewrite decide_False; [done|]. by intros [?|?]%elem_of_cons.
    - intros id Hne. rewrite Hmeta by congruence. by apply Hmeta1.
    - intros id. rewrite Hrem, Hrem1. unfold online. rewrite Hst1. split.
      + intros [[Hin|[-> Hon]]|[Hin Hon]].
        * by left.
        * right. split; [apply elem_of_cons; by left|done].
        * right. split; [apply elem_of_cons; by right|].
          destruct (decide (id = id0)) as [->|Hne].
          -- rewrite lookup_delete_eq in Hon. by destruct Hon.
          -- by rewrite lookup_delete_ne in Hon.
      + intros [Hin|[Hin Hon]]; [by left; left|].
        destruct (decide (id = id0)) as [->|Hne]; [by left; right|].
        right. apply elem_of_cons in Hin as [?|Hin]; [done|].
        split; [done|]. by rewrite lookup_delete_ne. }
  cbn. destruct (Map_has (states aw) id0) eqn:Hhas.
  - assert (forall id, id ∈ removed ++ [id0]
                       <-> id ∈ removed \/ (id = id0 /\ online aw id0)) as Hrem1.
    { intros id. rewrite elem_of_app, list_elem_of_singleton.
      apply Map_has_true in Hhas. unfold online. tauto. }
    destruct (N.eqb_spec id0 (clientID aw)) as [->|Hne].
    + apply Map_has_true in Hhas. destruct (Hinv _ Hhas) as [m Hm]. rewrite Hm.
      apply Hstep; cbn; try done.
      * intros id [v Hv]. cbn in *.
        destruct (decide (id = clientID aw)) as [->|Hne'].
        -- by rewrite lookup_delete_eq in Hv.
        -- rewrite lookup_delete_ne in Hv by done. rewrite lookup_insert_ne by done.
           apply Hinv. by exists v.
      * intros id Hne'. by rewrite lookup_insert_ne.
    + apply Hstep; cbn; try done.
      intros id [v Hv]. cbn in *.
      destruct (decide (id = id0)) as [->|Hne'].
      * by rewrite lookup_delete_eq in Hv.
      * rewrite lookup_delete_ne in Hv by done. apply Hinv. by exists v.
  - apply Map_has_false in Hhas. apply Hstep; try done.
    + by rewrite delete_id.
    + intros id. unfold online. rewrite Hhas. split; [by left|].
      intros [?|[_ [v Hv]]]; done.
Qed.

Lemma applyEntries_lockstep timestamp aw c entries :
  lockstep aw -> lockstep (fst (applyEntries timestamp aw c entries)).
Proof.
  revert aw c. induction entries as [|entry entries IH]; intros aw c Hinv; [done|].
  rewrite applyEntries_cons. by apply IH, applyAwarenessUpdate_entry_lockstep.
Qed.

(** The invariant of the data model. The constructor establishes the
    lockstep of [states] and [meta], and [setLocalState],
    [removeAwarenessStates] and [applyAwarenessUpdate] preserve it (the
    latter also when the update is cut short by a decoding error). *)
Theorem lockstep_invariant :
  (forall docClientID now, lockstep (newAwareness docClientID now))
  /\ (forall aw state now,
         lockstep aw -> lockstep (fst (setLocalState aw state now)))
  /\ (forall aw clients origin now,
         lockstep aw -> lockstep (fst (removeAwarenessStates aw clients origin now)))
  /\ (forall aw update origin timestamp,
         lockstep aw -> lockstep (fst (applyAwarenessUpdate aw update origin timestamp))).
Proof.
  split; [apply newAwareness_lockstep|].
  split; [apply setLocalState_lockstep|]. split.
  - intros aw clients origin now Hinv.
    destruct (removeAwarenessStates_loop_spec aw clients now [] Hinv)
      as (aw' & removed' & Hloop & _ & Hinv' & _).
    unfold removeAwarenessStates. by rewrite Hloop.
  - intros aw update origin timestamp Hinv. rewrite applyAwarenessUpdate_store.
    destruct (readVarUint update) as [[len decoder]|e]; [|done].
    by apply applyEntries_lockstep.
Qed.

(** Eviction of remote peers. In a store in lockstep, a call of
    [removeAwarenessStates] returns normally; a listed peer other than the
    local client ends without [states] entry and with its [meta] entry
    untouched, and an unlisted peer keeps its [states] entry. *)
Theorem removeAwarenessStates_remote_peers
    (aw : Awareness) (clients : list N) (origin : string) (now : N) (id : N) :
  lockstep aw ->
  id <> clientID aw ->
  let aw' := fst (removeAwarenessStates aw clients origin now) in
  (exists events, snd (removeAwarenessStates aw clients origin now) = Normal events)
  /\ meta aw' !! id = meta aw !! id
  /\ (id ∈ clients -> states aw' !! id = None)
  /\ (id ∉ clients -> states aw' !! id = states aw !! id).
Proof.
  intros Hinv Hne. cbv zeta.
  destruct (removeAwarenessStates_loop_spec aw clients now [] Hinv)
    as (aw' & removed' & Hloop & _ & _ & Hst & Hmeta & _).
  unfold removeAwarenessStates. rewrite Hloop. cbn.
  split; [eauto|]. split; [by apply Hmeta|].
  split; intros Hin; rewrite Hst; by destruct (decide (id ∈ clients)).
Qed.

Lemma removeAwarenessStates_remote_peers_witness :
  let aw' := fst (removeAwarenessStates sample_store [2] "timeout" 50) in
  (exists events, snd (removeAwarenessStates sample_store [2] "timeout" 50) = Normal events)
  /\ meta aw' !! 2 = meta sample_store !! 2
  /\ (2 ∈ [2] -> states aw' !! 2 = None)
  /\ (2 ∉ [2] -> states aw' !! 2 = states sample_store !! 2).
Proof.
  apply (removeAwarenessStates_remote_peers sample_store [2] "timeout" 50 2).
  - apply applyEntries_lockstep, newAwareness_lockstep.
  - discriminate.
Defined.

(** [modifyAwarenessUpdate] at the update [(7, 1, {x:1})], with a [modify]
    that blanks every state. *)
Lemma modifyAwarenessUpdate_decoded_witness :
  exists update',
    modifyAwarenessUpdate
      [x01; x07; x01; x07; x7b; x22; x78; x22; x3a; x31; x7d]%byte (fun _ => JObj [])
    = Normal update'
    /\ decodeAwarenessUpdate update'
       = Normal (map (fun '(clientID, clock, state) => (clientID, clock, JObj []))
                     [(7, 1, JObj [("x"%string, JNum 1)])]).
Proof.
  apply (modifyAwarenessUpdate_decoded
           [x01; x07; x01; x07; x7b; x22; x78; x22; x3a; x31; x7d]%byte
           (fun _ => JObj []) [(7, 1, JObj [("x"%string, JNum 1)])]).
  vm_compute. reflexivity.
Defined.

(** The first end-to-end scenario. Peer 7 sets the local state [{x:1}], its
    clock becomes 1; the update it encodes for itself is the one entry
    [(7, 1, {x:1})]; peer 9 applies it with origin [remote] and ends with
    that state and clock for peer 7, a [change] and an [update] event with
    [added = [7]]. *)
Theorem scenario_first_state :
  let A := fst (setLocalState (newAwareness 7 100) (JObj [("x"%string, JNum 1)]) 200) in
  let B := newAwareness 9 100 in
  meta A !! 7 = Some (mkMeta 1 200)
  /\ encodeAwarenessUpdate A [7] (states A)
     = Normal [x01; x07; x01; x07; x7b; x22; x78; x22; x3a; x31; x7d]%byte
  /\ decodeAwarenessUpdate [x01; x07; x01; x07; x7b; x22; x78; x22; x3a; x31; x7d]%byte
     = Normal [(7, 1, JObj [("x"%string, JNum 1)])]
  /\ (let B' := fst (applyAwarenessUpdate B
                       [x01; x07; x01; x07; x7b; x22; x78; x22; x3a; x31; x7d]%byte
                       "remote" 300) in
      states B' !! 7 = Some (JObj [("x"%string, JNum 1)])
      /\ meta B' !! 7 = Some (mkMeta 1 300))
  /\ snd (applyAwarenessUpdate B
            [x01; x07; x01; x07; x7b; x22; x78; x22; x3a; x31; x7d]%byte "remote" 300)
     = Normal [Change (mkChanges [7] [] []) "remote";
               Update (mkChanges [7] [] []) "remote"].
Proof. vm_compute. repeat split. Qed.

(** The second end-to-end scenario. Peer 7 sets [{x:1}] twice: the second
    call bumps the clock, reports the peer in [updated] of the [update]
    event and emits no [change] event. *)
Theorem scenario_same_state_twice :
  let A := fst (setLocalState (newAwareness 7 100) (JObj [("x"%string, JNum 1)]) 200) in
  meta (fst (setLocalState A (JObj [("x"%string, JNum 1)]) 250)) !! 7
  = Some (mkMeta 2 250)
  /\ snd (setLocalState A (JObj [("x"%string, JNum 1)]) 250)
     = [Update (mkChanges [] [7] []) "local"].
Proof. vm_compute. repeat split. Qed.

(** *** The timer callback *)

Lemma setLocalState_frame aw state now id :
  id <> clientID aw ->
  states (fst (setLocalState aw state now)) !! id = states aw !! id
  /\ meta (fst (setLocalState aw state now)) !! id = meta aw !! id.
Proof.
  intros Hne. cbn. rewrite lookup_insert_ne by done.
  destruct (is_null state); [by rewrite lookup_delete_ne|by rewrite lookup_insert_ne].
Qed.

(** Awareness timeout. In a store in lockstep, a run of the timer callback
    returns normally; a remote peer that is Online and whose [lastUpdated]
    is [outdatedTimeout] or more behind the current time ends without
    [states] entry, keeps its [meta] entry, and is reported in [removed] of
    a [change] and an [update] event with origin [timeout]. *)
Theorem checkInterval_evicts_outdated_peer
    (aw : Awareness) (order : list N) (now : N) (id : N) (m : MetaClientState) :
  lockstep aw ->
  id ∈ order ->
  id <> clientID aw ->
  online aw id ->
  meta aw !! id = Some m ->
  (Z.of_N outdatedTimeout <= Z.of_N now - Z.of_N (lastUpdated m))%Z ->
  exists aw' events removed,
    checkInterval aw order now = (aw', Normal events)
    /\ states aw' !! id = None
    /\ meta aw' !! id = Some m
    /\ id ∈ removed
    /\ Change (mkChanges [] [] removed) "timeout" ∈ events
    /\ Update (mkChanges [] [] removed) "timeout" ∈ events.
Proof.
  intros Hinv Horder Hne Hon Hm Hold. unfold checkInterval.
  (* the renewal of the local state *)
  assert (exists renew,
             (if negb (is_null (getLocalState aw)) then
                match meta aw !! clientID aw with
                | Some meta =>
                    Normal (Z.of_N outdatedTimeout / 2
                            <=? Z.of_N now - Z.of_N (lastUpdated meta))%Z
                | None => Throw TypeError
                end
              else Normal false) = Normal renew) as [renew ->].
  { destruct (is_null (getLocalState aw)) eqn:Hlocal; cbn; [eauto|].
    apply is_null_false, getLocalState_online in Hlocal.
    destruct (Hinv _ Hlocal) as [m' ->]. eauto. }
  set (step := if renew then setLocalState aw (getLocalState aw) now else (aw, [])).
  assert (clientID step.1 = clientID aw /\ lockstep step.1
          /\ states step.1 !! id = states aw !! id
          /\ meta step.1 !! id = meta aw !! id) as (Hid1 & Hinv1 & Hst1 & Hm1).
  { subst step. destruct renew; [|done].
    split; [done|]. split; [by apply setLocalState_lockstep|].
    by apply setLocalState_frame. }
  destruct step as [aw1 renewed]. cbn [fst] in *.
  assert (id ∈ List.filter (outdated aw1 now) order) as Hremove.
  { apply list_elem_of_In, filter_In. split; [by apply list_elem_of_In|].
    unfold outdated. rewrite Hm1, Hm, Hid1.
    rewrite (proj2 (N.eqb_neq _ _) Hne), (proj2 (Z.leb_le _ _) Hold).
    cbn [negb andb]. apply Map_has_true. unfold online in Hon. by rewrite Hst1. }
  destruct (List.filter (outdated aw1 now) order) as [|id0 remove] eqn:Hfilter.
  { by apply elem_of_nil in Hremove. }
  cbn [nonempty]. unfold removeAwarenessStates.
  destruct (removeAwarenessStates_loop_spec aw1 (id0 :: remove) now [] Hinv1)
    as (aw2 & removed & -> & _ & _ & Hst2 & Hm2 & Hrem2).
  assert (id ∈ removed) as Hremoved.
  { apply Hrem2. right. split; [done|]. unfold online in *. by rewrite Hst1. }
  destruct removed as [|id1 removed]; [by apply elem_of_nil in Hremoved|].
  cbn [nonempty]. eexists aw2, _, (id1 :: removed). split; [done|].
  split; [|split; [|split; [done|split]]].
  - rewrite Hst2. by rewrite decide_True.
  - rewrite Hm2 by congruence. by rewrite Hm1.
  - apply elem_of_app. right. apply elem_of_cons. by left.
  - apply elem_of_app. right. apply elem_of_cons. right. apply elem_of_cons. by left.
Qed.

(** The sweep at [sample_store], 30000 time units after peer 2 was last
    heard of (at time 9). *)
Lemma checkInterval_evicts_outdated_peer_witness :
  exists aw' events removed,
    checkInterval sample_store [1; 2; 3] 30009 = (aw', Normal events)
    /\ states aw' !! 2 = None
    /\ meta aw' !! 2 = Some (mkMeta 4 9)
    /\ 2 ∈ removed
    /\ Change (mkChanges [] [] removed) "timeout" ∈ events
    /\ Update (mkChanges [] [] removed) "timeout" ∈ events.
Proof.
  apply (checkInterval_evicts_outdated_peer sample_store [1; 2; 3] 30009 2 (mkMeta 4 9)).
  - apply applyEntries_lockstep, newAwareness_lockstep.
  - apply elem_of_cons. right. apply elem_of_cons. by left.
  - discriminate.
  - eexists. vm_compute. reflexivity.
  - vm_compute. reflexivity.
  - vm_compute. discriminate.
Defined.

(* --------------------------------------------------------------------- *)
(** ** The register and the map as replicated data *)
(* --------------------------------------------------------------------- *)

Section ReplicaFacts.
Context {T : Type}.
Implicit Types (r : LWWRegister.t T) (m : LWWMap.t T) (key : string).

(** The case analysis of [merge] on the two timestamps and peers. *)
Ltac merge_cases :=
  unfold LWWRegister.merge; cbn;
  repeat match goal with
         | |- context [(?a >? ?b)%Z] => destruct (Z.gtb_spec a b)
         | |- context [(?a =? ?b)%Z] => destruct (Z.eqb_spec a b)
         | |- context [String.eqb ?a ?b] => destruct (String.eqb_spec a b)
         | _ => progress cbn
         end.

Lemma merge_own_state r : LWWRegister.merge r (LWWRegister.state r) = r.
Proof. rewrite merge_adopts; [by destruct r|by right]. Qed.

Lemma merge_timestamp_max r (remote : IState T) :
  timestamp (LWWRegister.state (LWWRegister.merge r remote))
  = Z.max (timestamp (LWWRegister.state r)) (timestamp remote).
Proof. merge_cases; lia. Qed.

(** Two registers with different timestamps, or with the same state, agree
    after each merged the state of the other. *)
Lemma merge_swap_state (a b : LWWRegister.t T) :
  timestamp (LWWRegister.state a) <> timestamp (LWWRegister.state b)
  \/ LWWRegister.state a = LWWRegister.state b ->
  LWWRegister.state (LWWRegister.merge a (LWWRegister.state b))
  = LWWRegister.state (LWWRegister.merge b (LWWRegister.state a)).
Proof.
  intros [Hne|Heq].
  - merge_cases; done || lia.
  - rewrite <- Heq, merge_own_state, Heq, merge_own_state. done.
Qed.

Lemma get_value_of_state m :
  LWWMap.get_value m = omap value (LWWMap.get_state m).
Proof.
  apply map_eq. intros key. unfold LWWMap.get_value, LWWMap.get_state.
  rewrite !lookup_omap, lookup_fmap.
  by destruct (LWWMap.own_properties (LWWMap.data m) !! key).
Qed.

Lemma lookup_data_merge m (state : gmap string (IState (option T))) key :
  LWWMap.data (LWWMap.merge m state) !! key
  = match LWWMap.data m !! key, state !! key with
    | Some l, Some remote => Some (LWWRegister.merge l remote)
    | None, Some remote => Some (LWWRegister.new (LWWMap.id m) remote)
    | l, None => l
    end.
Proof.
  unfold LWWMap.merge. cbn. rewrite lookup_merge.
  by destruct (LWWMap.data m !! key), (state !! key).
Qed.

(** The older of two states may arrive first or last. *)
Lemma merge_two_older_first r (s1 s2 : IState T) :
  (timestamp s1 < timestamp s2)%Z ->
  LWWRegister.merge (LWWRegister.merge r s1) s2
  = LWWRegister.merge (LWWRegister.merge r s2) s1.
Proof.
  intros Hlt.
  assert (LWWRegister.merge (LWWRegister.merge r s2) s1 = LWWRegister.merge r s2) as ->.
  { apply merge_rejects_older. rewrite merge_timestamp_max. lia. }
  destruct (Z.lt_total (timestamp (LWWRegister.state r)) (timestamp s2))
    as [Hnew|[Htie|Hold]].
  - rewrite (merge_adopts r s2) by auto.
    rewrite merge_adopts, merge_id; [done|]. left. rewrite merge_timestamp_max. lia.
  - by rewrite (merge_rejects_older r s1) by lia.
  - by rewrite (merge_rejects_older r s1) by lia.
Qed.

End ReplicaFacts.

(** The state of a register after two merges does not depend on the order
    in which two states with different timestamps arrive, and its timestamp
    is the largest of the three. *)
Theorem LWWRegister_merge_order_independent {T}
    (r : LWWRegister.t T) (s1 s2 : IState T) :
  timestamp s1 <> timestamp s2 ->
  LWWRegister.merge (LWWRegister.merge r s1) s2
  = LWWRegister.merge (LWWRegister.merge r s2) s1
  /\ timestamp (LWWRegister.state (LWWRegister.merge (LWWRegister.merge r s1) s2))
     = Z.max (timestamp (LWWRegister.state r)) (Z.max (timestamp s1) (timestamp s2)).
Proof.
  intros Hne. split; [|rewrite !merge_timestamp_max; lia].
  destruct (Z.lt_total (timestamp s1) (timestamp s2)) as [Hlt|[Heq|Hgt]]; [|done|].
  - by apply merge_two_older_first.
  - symmetry. by apply merge_two_older_first.
Qed.

Lemma LWWRegister_merge_order_independent_witness :
  let r := LWWRegister.new "bob" (mkIState "bob" 5 "b") in
  let s1 := mkIState "alice" 7 "a" in
  let s2 := mkIState "carol" 6 "c" in
  LWWRegister.merge (LWWRegister.merge r s1) s2
  = LWWRegister.merge (LWWRegister.merge r s2) s1
  /\ timestamp (LWWRegister.state (LWWRegister.merge (LWWRegister.merge r s1) s2))
     = Z.max (timestamp (LWWRegister.state r)) (Z.max (timestamp s1) (timestamp s2)).
Proof.
  apply (LWWRegister_merge_order_independent
           (LWWRegister.new "bob" (mkIState "bob" 5%Z "b"))
           (mkIState "alice" 7%Z "a") (mkIState "carol" 6%Z "c")).
  cbn. lia.
Defined.

(** The flaw of the tie-break. Two registers with equal timestamps and
    different peers each keep their own state when they merge the state of
    the other, however often: with different values they never agree. *)
Theorem LWWRegister_tie_never_converges {T} (a b : LWWRegister.t T) :
  timestamp (LWWRegister.state a) = timestamp (LWWRegister.state b) ->
  peer (LWWRegister.state a) <> peer (LWWRegister.state b) ->
  LWWRegister.merge a (LWWRegister.state b) = a
  /\ LWWRegister.merge b (LWWRegister.state a) = b
  /\ (value (LWWRegister.state a) <> value (LWWRegister.state b) ->
      LWWRegister.get_value (LWWRegister.merge a (LWWRegister.state b))
      <> LWWRegister.get_value (LWWRegister.merge b (LWWRegister.state a))).
Proof.
  intros Hts Hpeer.
  rewrite (merge_rejects_tie a), (merge_rejects_tie b) by (done || congruence).
  done.
Qed.

Lemma LWWRegister_tie_never_converges_witness :
  let a := LWWRegister.new "alice" (mkIState "alice" 5 "a") in
  let b := LWWRegister.new "bob" (mkIState "bob" 5 "b") in
  LWWRegister.merge a (LWWRegister.state b) = a
  /\ LWWRegister.merge b (LWWRegister.state a) = b
  /\ (value (LWWRegister.state a) <> value (LWWRegister.state b) ->
      LWWRegister.get_value (LWWRegister.merge a (LWWRegister.state b))
      <> LWWRegister.get_value (LWWRegister.merge b (LWWRegister.state a))).
Proof.
  apply (LWWRegister_tie_never_converges
           (LWWRegister.new "alice" (mkIState "alice" 5%Z "a"))
           (LWWRegister.new "bob" (mkIState "bob" 5%Z "b"))).
  - reflexivity.
  - discriminate.
Defined.

Lemma set_data_ne {T} (m : LWWMap.t T) key (v : T) k :
  k <> key -> LWWMap.data (LWWMap.set m key v) !! k = LWWMap.data m !! k.
Proof.
  intros Hne. unfold LWWMap.set.
  destruct (LWWMap.data m !! key); cbn; by rewrite lookup_insert_ne.
Qed.

Lemma delete_data {T} (m : LWWMap.t T) key k :
  LWWMap.data (LWWMap.delete m key) !! k
  = if decide (k = key)
    then (fun register => LWWRegister.set register None) <$> LWWMap.data m !! key
    else LWWMap.data m !! k.
Proof.
  unfold LWWMap.delete. destruct (decide (k = key)) as [->|Hne].
  - destruct (LWWMap.data m !! key) as [register|] eqn:Hkey; cbn.
    + by rewrite lookup_insert_eq.
    + by rewrite Hkey.
  - destruct (LWWMap.data m !! key); cbn; [by rewrite lookup_insert_ne|done].
Qed.

(** [value()] under [set] and [delete]. The own properties of [value()]
    behave as a plain map under insertion and deletion, for every key but
    [__proto__]: that key is never an own property of [value()], so
    [set("__proto__", v)] does not show there. *)
Theorem LWWMap_value_set_delete {T} (m : LWWMap.t T) (key : string) (v : T) :
  LWWMap.get_value (LWWMap.set m key v)
  = (if decide (key = "__proto__"%string) then LWWMap.get_value m
     else <[key := v]> (LWWMap.get_value m))
  /\ LWWMap.get_value (LWWMap.delete m key) = base.delete key (LWWMap.get_value m)
  /\ LWWMap.get_value m !! "__proto__"%string = None.
Proof.
  split; [|split].
  - apply map_eq. intros k. unfold LWWMap.get_value, LWWMap.own_properties.
    destruct (decide (key = "__proto__"%string)) as [->|Hkey].
    + rewrite !lookup_omap.
      destruct (decide (k = "__proto__"%string)) as [->|Hk].
      * by rewrite !lookup_delete_eq.
      * by rewrite !lookup_delete_ne, set_data_ne.
    + destruct (decide (k = key)) as [->|Hne].
      * rewrite lookup_insert_eq, lookup_omap, lookup_delete_ne by done.
        destruct (set_lookup m key v) as (register & Hr & Hv). by rewrite Hr.
      * rewrite lookup_insert_ne, !lookup_omap by done.
        destruct (decide (k = "__proto__"%string)) as [->|Hk].
        -- by rewrite !lookup_delete_eq.
        -- by rewrite !lookup_delete_ne, set_data_ne.
  - apply map_eq. intros k. unfold LWWMap.get_value, LWWMap.own_properties.
    rewrite lookup_omap.
    destruct (decide (k = "__proto__"%string)) as [->|Hk].
    + rewrite lookup_delete_eq. cbn. symmetry. apply lookup_delete_None.
      right. by rewrite lookup_omap, lookup_delete_eq.
    + rewrite lookup_delete_ne, delete_data by done.
      destruct (decide (k = key)) as [->|Hne].
      * rewrite lookup_delete_eq. by destruct (LWWMap.data m !! key).
      * by rewrite lookup_delete_ne, lookup_omap, lookup_delete_ne.
  - unfold LWWMap.get_value, LWWMap.own_properties.
    by rewrite lookup_omap, lookup_delete_eq.
Qed.

(** Keys are never removed and registers stay signed: the constructor signs
    every register with the id of the map, and [set], [delete] and [merge]
    keep every key and every signature. *)
Theorem LWWMap_keys_and_ids_kept {T} :
  (forall id (state : gmap string (IState (option T))),
      registers_signed (LWWMap.new id state))
  /\ (forall (m : LWWMap.t T) key (v : T) k,
         (registers_signed m -> registers_signed (LWWMap.set m key v))
         /\ (is_Some (LWWMap.data m !! k)
             -> is_Some (LWWMap.data (LWWMap.set m key v) !! k)))
  /\ (forall (m : LWWMap.t T) key k,
         (registers_signed m -> registers_signed (LWWMap.delete m key))
         /\ (is_Some (LWWMap.data m !! k)
             -> is_Some (LWWMap.data (LWWMap.delete m key) !! k)))
  /\ (forall (m : LWWMap.t T) (state : gmap string (IState (option T))) k,
         (registers_signed m -> registers_signed (LWWMap.merge m state))
         /\ (is_Some (LWWMap.data m !! k)
             -> is_Some (LWWMap.data (LWWMap.merge m state) !! k))).
Proof.
  split; [|split; [|split]].
  - intros id state key register. unfold LWWMap.new. cbn. rewrite lookup_fmap.
    destruct (state !! key); cbn; [|done]. by intros [= <-].
  - intros m key v k. unfold LWWMap.set. split.
    + intros Hsigned k' register.
      destruct (LWWMap.data m !! key) as [old|] eqn:Hkey; cbn;
        (destruct (decide (k' = key)) as [->|Hne];
         [rewrite lookup_insert_eq; intros [= <-]; cbn; eauto
         |rewrite lookup_insert_ne by done; apply Hsigned]).
    + destruct (LWWMap.data m !! key) as [old|] eqn:Hkey; cbn;
        (destruct (decide (k = key)) as [->|Hne];
         [rewrite lookup_insert_eq; eauto|by rewrite lookup_insert_ne]).
  - intros m key k. unfold LWWMap.delete. split.
    + intros Hsigned k' register.
      destruct (LWWMap.data m !! key) as [old|] eqn:Hkey; cbn; [|apply Hsigned].
      destruct (decide (k' = key)) as [->|Hne].
      * rewrite lookup_insert_eq. intros [= <-]. cbn. eauto.
      * rewrite lookup_insert_ne by done. apply Hsigned.
    + destruct (LWWMap.data m !! key) as [old|] eqn:Hkey; cbn; [|done].
      destruct (decide (k = key)) as [->|Hne];
        [rewrite lookup_insert_eq; eauto|by rewrite lookup_insert_ne].
  - intros m state k. split.
    + intros Hsigned k' register. rewrite lookup_data_merge.
      destruct (LWWMap.data m !! k') as [l|] eqn:Hl, (state !! k') as [remote|];
        try done; intros [= <-]; cbn; try done.
      * rewrite merge_id. by eapply Hsigned.
      * by eapply Hsigned.
    + rewrite lookup_data_merge. intros [l ->]. destruct (state !! k); eauto.
Qed.

Lemma lookup_get_state {T} (m : LWWMap.t T) key :
  LWWMap.get_state m !! key
  = if decide (key = "__proto__"%string) then None
    else LWWRegister.state <$> LWWMap.data m !! key.
Proof.
  unfold LWWMap.get_state, LWWMap.own_properties. rewrite lookup_fmap.
  destruct (decide (key = "__proto__"%string)) as [->|Hne].
  - by rewrite lookup_delete_eq.
  - by rewrite lookup_delete_ne.
Qed.

(** Transfer of a state. A map built from a state, and a fresh map that
    merged a state, give that state back, without the key [__proto__]; a
    map built from the state of another shows the same values. *)
Theorem LWWMap_state_round_trip {T} (id : string)
    (state : gmap string (IState (option T))) (m : LWWMap.t T) :
  LWWMap.get_state (LWWMap.new id state) = LWWMap.own_properties state
  /\ LWWMap.get_state (LWWMap.merge (LWWMap.new id ∅) state) = LWWMap.own_properties state
  /\ LWWMap.get_value (LWWMap.new id (LWWMap.get_state m)) = LWWMap.get_value m.
Proof.
  assert (forall s : gmap string (IState (option T)),
             LWWMap.get_state (LWWMap.new id s) = LWWMap.own_properties s) as Hnew.
  { intros s. apply map_eq. intros key. rewrite lookup_get_state.
    unfold LWWMap.own_properties, LWWMap.new. cbn.
    destruct (decide (key = "__proto__"%string)) as [->|Hne].
    - by rewrite lookup_delete_eq.
    - rewrite lookup_delete_ne, !lookup_fmap by done. by destruct (s !! key). }
  split; [apply Hnew|]. split.
  - apply map_eq. intros key. rewrite lookup_get_state, lookup_data_merge.
    unfold LWWMap.own_properties, LWWMap.new. cbn.
    rewrite fmap_empty, lookup_empty.
    destruct (decide (key = "__proto__"%string)) as [->|Hne].
    + by rewrite lookup_delete_eq.
    + rewrite lookup_delete_ne by done. by destruct (state !! key).
  - rewrite (get_value_of_state (LWWMap.new _ _)), Hnew, get_value_of_state.
    f_equal. unfold LWWMap.get_state, LWWMap.own_properties.
    apply delete_id. by rewrite lookup_fmap, lookup_delete_eq.
Qed.

(** Idempotence of the merge of maps: merging the same state twice is
    merging it once, and merging a map's own state changes nothing. *)
Theorem LWWMap_merge_idempotent {T} (m : LWWMap.t T)
    (state : gmap string (IState (option T))) :
  LWWMap.merge (LWWMap.merge m state) state = LWWMap.merge m state
  /\ LWWMap.merge m (LWWMap.get_state m) = m.
Proof.
  split.
  - unfold LWWMap.merge. cbn. f_equal.
    apply map_eq. intros key. rewrite !lookup_merge.
    destruct (LWWMap.data m !! key) as [l|], (state !! key) as [remote|]; cbn;
      try done.
    + by rewrite merge_merge.
    + f_equal. rewrite merge_adopts; [done|by right].
  - destruct m as [id data]. unfold LWWMap.merge. cbn [LWWMap.id LWWMap.data]. f_equal.
    apply map_eq. intros key. rewrite lookup_merge, lookup_get_state. cbn.
    destruct (decide (key = "__proto__"%string)) as [->|Hne].
    + by destruct (data !! "__proto__"%string).
    + destruct (data !! key) as [l|]; cbn; [|done].
      by rewrite merge_own_state.
Qed.

(** Convergence of maps. Two maps whose registers, key by key, carry
    different timestamps or the same state hold the same state, and show
    the same values, after each merged the state of the other. *)
Theorem LWWMap_merge_converges {T} (m1 m2 : LWWMap.t T) :
  (forall key r1 r2,
      LWWMap.data m1 !! key = Some r1 -> LWWMap.data m2 !! key = Some r2 ->
      timestamp (LWWRegister.state r1) <> timestamp (LWWRegister.state r2)
      \/ LWWRegister.state r1 = LWWRegister.state r2) ->
  let m1' := LWWMap.merge m1 (LWWMap.get_state m2) in
  let m2' := LWWMap.merge m2 (LWWMap.get_state m1) in
  LWWMap.get_state m1' = LWWMap.get_state m2'
  /\ LWWMap.get_value m1' = LWWMap.get_value m2'.
Proof.
  intros Hkeys. cbv zeta.
  assert (LWWMap.get_state (LWWMap.merge m1 (LWWMap.get_state m2))
          = LWWMap.get_state (LWWMap.merge m2 (LWWMap.get_state m1))) as Hstate.
  { apply map_eq. intros key. rewrite !lookup_get_state.
    destruct (decide (key = "__proto__"%string)) as [->|Hne]; [done|].
    rewrite !lookup_data_merge, !lookup_get_state, !decide_False by done.
    destruct (LWWMap.data m1 !! key) as [r1|] eqn:H1,
             (LWWMap.data m2 !! key) as [r2|] eqn:H2; cbn; try done.
    f_equal. apply merge_swap_state. by eapply Hkeys. }
  split; [done|]. by rewrite !get_value_of_state, Hstate.
Qed.

Lemma LWWMap_merge_converges_witness :
  let m1 := LWWMap.set (LWWMap.set (LWWMap.new (T:=Z) "alice" ∅) "x" 1%Z) "x" 2%Z in
  let m2 := LWWMap.set (LWWMap.set (LWWMap.new (T:=Z) "bob" ∅) "x" 3%Z) "y" 4%Z in
  let m1' := LWWMap.merge m1 (LWWMap.get_state m2) in
  let m2' := LWWMap.merge m2 (LWWMap.get_state m1) in
  LWWMap.get_state m1' = LWWMap.get_state m2'
  /\ LWWMap.get_value m1' = LWWMap.get_value m2'.
Proof.
  apply (LWWMap_merge_converges
           (LWWMap.set (LWWMap.set (LWWMap.new (T:=Z) "alice" ∅) "x" 1%Z) "x" 2%Z)
           (LWWMap.set (LWWMap.set (LWWMap.new (T:=Z) "bob" ∅) "x" 3%Z) "y" 4%Z)).
  intros key r1 r2 H1 H2. left.
  destruct (decide (key = "x")) as [->|Hne].
  - vm_compute in H1, H2. injection H1 as <-. injection H2 as <-. discriminate.
  - unfold LWWMap.set in H1. cbn in H1.
    rewrite fmap_empty, lookup_empty in H1. cbn in H1.
    rewrite lookup_insert_eq in H1. cbn in H1.
    rewrite insert_insert_eq, lookup_insert_ne in H1 by done.
    by rewrite lookup_empty in H1.
Defined.

(* --------------------------------------------------------------------- *)
(** ** The store over its life *)
(* --------------------------------------------------------------------- *)

Lemma store_eq (aw aw' : Awareness) :
  clientID aw = clientID aw' -> states aw = states aw' -> meta aw = meta aw' ->
  aw = aw'.
Proof. destruct aw, aw'; cbn; congruence. Qed.

Lemma grows_refl aw : grows aw aw.
Proof. split; [done|]. intros id. split; [done|lia]. Qed.

Lemma grows_trans aw1 aw2 aw3 : grows aw1 aw2 -> grows aw2 aw3 -> grows aw1 aw3.
Proof.
  intros [Hid12 H12] [Hid23 H23]. split; [congruence|]. intros id.
  destruct (H12 id) as [Hm12 Hc12], (H23 id) as [Hm23 Hc23]. split; [auto|lia].
Qed.

(** A store grows when one [meta] entry is rewritten with a clock that is
    not lower. *)
Lemma grows_insert aw aw' id m :
  clientID aw' = clientID aw ->
  meta aw' = <[id := m]> (meta aw) ->
  localClock aw id <= clock m ->
  grows aw aw'.
Proof.
  intros Hid Hmeta Hle. split; [done|]. intros id'. unfold localClock. rewrite Hmeta.
  destruct (decide (id' = id)) as [->|Hne].
  - rewrite lookup_insert_eq. split; [eauto|done].
  - rewrite lookup_insert_ne by done. split; [done|lia].
Qed.

Lemma setLocalState_grows aw state now : grows aw (fst (setLocalState aw state now)).
Proof.
  eapply grows_insert; [done|done|]. unfold localClock. cbn.
  destruct (meta aw !! clientID aw) as [m|]; cbn; [apply Double_succ_le|lia].
Qed.

Lemma applyAwarenessUpdate_entry_grows timestamp aw c entry :
  grows aw (fst (applyAwarenessUpdate_entry timestamp aw c entry)).
Proof.
  destruct entry as [[id remoteClock] remoteState].
  destruct (decide (accepts aw (id, remoteClock, remoteState))) as [Hacc|Hrej].
  2:{ rewrite applyAwarenessUpdate_entry_rejected by done. apply grows_refl. }
  pose proof (accepts_clock_le _ _ _ _ Hacc) as Hle.
  destruct (decide (remoteState = JNull)) as [->|Hstate].
  - destruct (decide (id = clientID aw /\ getLocalState aw <> JNull)) as [[-> Hlocal]|Hno].
    + rewrite applyAwarenessUpdate_entry_protected by done.
      eapply grows_insert; [done|done|]. cbn.
      pose proof (Double_succ_le remoteClock). lia.
    + rewrite applyAwarenessUpdate_entry_removed; [by eapply grows_insert|done|].
      destruct (decide (id = clientID aw)); [|by left].
      destruct (decide (getLocalState aw = JNull)); [by right|]. by destruct Hno.
  - rewrite applyAwarenessUpdate_entry_state by done. by eapply grows_insert.
Qed.

Lemma applyEntries_grows timestamp aw c entries :
  grows aw (fst (applyEntries timestamp aw c entries)).
Proof.
  revert aw c. induction entries as [|entry entries IH]; intros aw c; [apply grows_refl|].
  rewrite applyEntries_cons.
  eapply grows_trans; [apply applyAwarenessUpdate_entry_grows|apply IH].
Qed.

Lemma applyAwarenessUpdate_grows aw update origin timestamp :
  grows aw (fst (applyAwarenessUpdate aw update origin timestamp)).
Proof.
  rewrite applyAwarenessUpdate_store.
  destruct (readVarUint update) as [[len decoder]|e]; [|apply grows_refl].
  apply applyEntries_grows.
Qed.

Lemma removeAwarenessStates_loop_grows aw clients now removed :
  grows aw (fst (removeAwarenessStates_loop aw clients now removed)).
Proof.
  revert aw removed. induction clients as [|id rest IH]; intros aw removed; cbn.
  { apply grows_refl. }
  destruct (Map_has (states aw) id); [|apply IH].
  destruct (N.eqb_spec id (clientID aw)) as [->|Hne]; cbn.
  - destruct (meta aw !! clientID aw) as [curMeta|] eqn:Hmeta; cbn.
    + eapply grows_trans; [|apply IH].
      eapply grows_insert; [done|done|]. unfold localClock. rewrite Hmeta. cbn.
      apply Double_succ_le.
    + split; [done|]. intros id'. split; [done|]. unfold localClock. cbn. lia.
  - eapply grows_trans; [|apply IH].
    split; [done|]. intros id'. split; [done|]. unfold localClock. cbn. lia.
Qed.

Lemma removeAwarenessStates_grows aw clients origin now :
  grows aw (fst (removeAwarenessStates aw clients origin now)).
Proof.
  pose proof (removeAwarenessStates_loop_grows aw clients now []) as Hloop.
  unfold removeAwarenessStates.
  by destruct (removeAwarenessStates_loop aw clients now []) as [aw' [removed|e]].
Qed.

Lemma checkInterval_grows aw order now :
  grows aw (fst (checkInterval aw order now)).
Proof.
  unfold checkInterval.
  destruct (if negb (is_null (getLocalState aw)) then _ else _) as [renew|e];
    [|apply grows_refl].
  assert (grows aw (if renew then setLocalState aw (getLocalState aw) now
                    else (aw, [])).1) as Hrenew.
  { destruct renew; [apply setLocalState_grows|apply grows_refl]. }
  destruct (if renew then _ else _) as [aw1 renewed]. cbn [fst] in Hrenew.
  destruct (nonempty _); [|done].
  pose proof (removeAwarenessStates_grows aw1 (List.filter (outdated aw1 now) order)
                "timeout" now) as Hremove.
  destruct (removeAwarenessStates aw1 _ "timeout" now) as [aw2 [evicted|e]];
    by eapply grows_trans.
Qed.

Lemma destroy_store aw now :
  fst (destroy aw now) = fst (setLocalState aw JNull now).
Proof. done. Qed.

(** A call of [setLocalStateField] does nothing or is a call of
    [setLocalState]. *)
Lemma setLocalStateField_Some aw field value now result :
  setLocalStateField aw field value now = Some result ->
  (getLocalState aw = JNull /\ result = (aw, []))
  \/ (getLocalState aw <> JNull
      /\ exists literal,
          object_literal (getLocalState aw) field value = Some literal
          /\ result = setLocalState aw literal now).
Proof.
  unfold setLocalStateField.
  destruct (is_null (getLocalState aw)) eqn:Hnull; cbn.
  - intros [= <-]. left. by apply is_null_true in Hnull.
  - apply is_null_false in Hnull.
    destruct (object_literal (getLocalState aw) field value) as [literal|]; cbn; [|done].
    intros [= <-]. right. eauto.
Qed.

Lemma step_grows aw aw' : step aw aw' -> grows aw aw'.
Proof.
  intros [state now|field value now result Hfield|now|order now|clients origin now
         |update origin timestamp].
  - apply setLocalState_grows.
  - apply setLocalStateField_Some in Hfield as [[_ ->]|(_ & literal & _ & ->)];
      [apply grows_refl|apply setLocalState_grows].
  - rewrite destroy_store. apply setLocalState_grows.
  - apply checkInterval_grows.
  - apply removeAwarenessStates_grows.
  - apply applyAwarenessUpdate_grows.
Qed.

(** Clocks only go up. Whatever operations are run on a store, and however
    they end, the local client stays the same, a peer that had a [meta]
    entry keeps one, and the clock the store knows for a peer never
    decreases. *)
Theorem clocks_never_decrease (aw aw' : Awareness) :
  rtc step aw aw' ->
  clientID aw' = clientID aw
  /\ forall id,
      (is_Some (meta aw !! id) -> is_Some (meta aw' !! id))
      /\ localClock aw id <= localClock aw' id.
Proof.
  induction 1 as [aw|aw aw1 aw2 Hstep _ IH]; [apply grows_refl|].
  eapply grows_trans; [by apply step_grows|exact IH].
Qed.

Lemma clocks_never_decrease_witness :
  let aw' := fst (applyAwarenessUpdate
                    (fst (setLocalState sample_store (JObj []) 20))
                    [x01; x02; x05; x04; x6e; x75; x6c; x6c]%byte "remote" 30) in
  clientID aw' = clientID sample_store
  /\ forall id,
      (is_Some (meta sample_store !! id) -> is_Some (meta aw' !! id))
      /\ localClock sample_store id <= localClock aw' id.
Proof.
  apply (clocks_never_decrease sample_store).
  eapply rtc_l; [apply (step_setLocalState _ (JObj []) 20)|].
  apply rtc_once, step_applyAwarenessUpdate.
Defined.

(** *** The timer callback, in a store in lockstep *)

Lemma elem_of_filter {A} (f : A -> bool) (l : list A) (x : A) :
  x ∈ List.filter f l <-> x ∈ l /\ f x = true.
Proof. by rewrite !list_elem_of_In, filter_In. Qed.

Lemma removeAwarenessStates_loop_meta_remote aw clients now removed :
  clientID aw ∉ clients ->
  meta (fst (removeAwarenessStates_loop aw clients now removed)) = meta aw.
Proof.
  revert aw removed. induction clients as [|id rest IH]; intros aw removed Hnot; cbn.
  { done. }
  apply not_elem_of_cons in Hnot as [Hne Hrest].
  destruct (Map_has (states aw) id); [|by apply IH].
  rewrite (proj2 (N.eqb_neq id (clientID aw))) by done.
  by rewrite IH.
Qed.

(** A renewal leaves [states] as it is. *)
Lemma renewal_states aw now :
  getLocalState aw <> JNull ->
  states (fst (setLocalState aw (getLocalState aw) now)) = states aw.
Proof.
  intros Hlocal. cbn. rewrite (proj2 (is_null_false _) Hlocal).
  apply insert_id. unfold getLocalState, or_null in *.
  destruct (states aw !! clientID aw) as [v|]; [|done].
  by destruct (truthy v).
Qed.

Lemma outdated_local aw now : outdated aw now (clientID aw) = false.
Proof. unfold outdated. destruct (meta aw !! clientID aw); [|done]. by rewrite N.eqb_refl. Qed.

Lemma checkInterval_spec aw order now :
  lockstep aw ->
  exists aw' evicted,
    checkInterval aw order now
    = (aw', Normal ((if renewal_due aw now
                     then snd (setLocalState aw (getLocalState aw) now) else [])
                    ++ evicted))
    /\ clientID aw' = clientID aw
    /\ lockstep aw'
    /\ (forall id, states aw' !! id
                   = if decide (id ∈ order /\ outdated aw now id = true) then None
                     else states aw !! id)
    /\ meta aw' = if renewal_due aw now
                  then meta (fst (setLocalState aw (getLocalState aw) now))
                  else meta aw.
Proof.
  intros Hinv. unfold checkInterval.
  assert ((if negb (is_null (getLocalState aw)) then
             match meta aw !! clientID aw with
             | Some meta =>
                 Normal (Z.of_N outdatedTimeout / 2
                         <=? Z.of_N now - Z.of_N (lastUpdated meta))%Z
             | None => Throw TypeError
             end
           else Normal false) = Normal (renewal_due aw now)) as ->.
  { unfold renewal_due. destruct (is_null (getLocalState aw)) eqn:Hlocal; cbn; [done|].
    apply is_null_false, getLocalState_online in Hlocal.
    by destruct (Hinv _ Hlocal) as [m' ->]. }
  set (run := if renewal_due aw now then setLocalState aw (getLocalState aw) now
              else (aw, [])).
  assert (clientID run.1 = clientID aw /\ lockstep run.1 /\ states run.1 = states aw
          /\ meta run.1 = (if renewal_due aw now
                           then meta (fst (setLocalState aw (getLocalState aw) now))
                           else meta aw)
          /\ run.2 = (if renewal_due aw now
                      then snd (setLocalState aw (getLocalState aw) now) else []))
    as (Hid1 & Hinv1 & Hst1 & Hm1 & Hev1).
  { subst run. destruct (renewal_due aw now) eqn:Hdue; [|done].
    split; [done|]. split; [by apply setLocalState_lockstep|]. split; [|done].
    apply renewal_states. apply is_null_false.
    unfold renewal_due in Hdue. by destruct (is_null (getLocalState aw)). }
  destruct run as [aw1 renewed]. cbn [fst snd] in *. subst renewed.
  assert (forall id, outdated aw1 now id = outdated aw now id) as Hsame.
  { intros id. destruct (decide (id = clientID aw)) as [->|Hne].
    - rewrite outdated_local. rewrite <- Hid1. apply outdated_local.
    - unfold outdated. rewrite Hid1, Hst1, Hm1.
      destruct (renewal_due aw now); [|done].
      by destruct (setLocalState_frame aw (getLocalState aw) now id Hne) as [_ ->]. }
  rewrite (List.filter_ext _ _ Hsame).
  assert (forall id, id ∈ List.filter (outdated aw now) order
                     <-> id ∈ order /\ outdated aw now id = true) as Hfilter.
  { intros id. apply elem_of_filter. }
  destruct (List.filter (outdated aw now) order) as [|id0 remove] eqn:Hremove.
  { cbn [nonempty]. exists aw1, []. rewrite app_nil_r.
    split; [done|]. split; [done|]. split; [done|]. split; [|done].
    intros id. rewrite Hst1. destruct (decide _) as [Hin|]; [|done].
    apply Hfilter in Hin. by apply elem_of_nil in Hin. }
  cbn [nonempty]. unfold removeAwarenessStates.
  assert (clientID aw1 ∉ id0 :: remove) as Hlocal.
  { rewrite Hid1. intros [_ Hout]%Hfilter. by rewrite outdated_local in Hout. }
  pose proof (removeAwarenessStates_loop_meta_remote aw1 (id0 :: remove) now [] Hlocal)
    as Hm2.
  destruct (removeAwarenessStates_loop_spec aw1 (id0 :: remove) now [] Hinv1)
    as (aw2 & removed & Hloop & Hid2 & Hinv2 & Hst2 & _ & _).
  rewrite Hloop in Hm2 |- *. cbn [fst] in Hm2.
  eexists aw2, _. split; [done|]. split; [congruence|]. split; [done|].
  split; [|congruence].
  intros id. rewrite Hst2, Hst1.
  destruct (decide (id ∈ id0 :: remove)) as [Hin|Hnin].
  - by rewrite decide_True by by apply Hfilter.
  - rewrite decide_False; [done|]. by intros Hin%Hfilter.
Qed.

Lemma checkInterval_lockstep aw order now :
  lockstep aw -> lockstep (fst (checkInterval aw order now)).
Proof.
  intros Hinv.
  destruct (checkInterval_spec aw order now Hinv) as (aw' & evicted & -> & _ & Hinv' & _).
  done.
Qed.

Lemma step_lockstep aw aw' : lockstep aw -> step aw aw' -> lockstep aw'.
Proof.
  intros Hinv [state now|field value now result Hfield|now|order now|clients origin now
              |update origin timestamp].
  - by apply setLocalState_lockstep.
  - apply setLocalStateField_Some in Hfield as [[_ ->]|(_ & literal & _ & ->)];
      [done|by apply setLocalState_lockstep].
  - rewrite destroy_store. by apply setLocalState_lockstep.
  - by apply checkInterval_lockstep.
  - destruct (removeAwarenessStates_loop_spec aw clients now [] Hinv)
      as (aw2 & removed' & Hloop & _ & Hinv' & _).
    unfold removeAwarenessStates. by rewrite Hloop.
  - rewrite applyAwarenessUpdate_store.
    destruct (readVarUint update) as [[len decoder]|e]; [|done].
    by apply applyEntries_lockstep.
Qed.

Lemma reachable_lockstep aw : reachable aw -> lockstep aw.
Proof.
  induction 1 as [docClientID now|aw aw' _ IH Hstep].
  - apply newAwareness_lockstep.
  - by eapply step_lockstep.
Qed.

Lemma reachable_local_meta aw : reachable aw -> is_Some (meta aw !! clientID aw).
Proof.
  induction 1 as [docClientID now|aw aw' _ IH Hstep].
  - unfold newAwareness. cbn. rewrite lookup_insert_eq. eauto.
  - destruct (step_grows _ _ Hstep) as [-> Hgrows]. by apply Hgrows.
Qed.

(** No [TypeError] in a store that a program can hold. In every store that
    comes from the constructor through any operations, the two maps are in
    lockstep and the local client has a [meta] entry; so
    [removeAwarenessStates] and the timer callback return normally, whatever
    their arguments, and [encodeAwarenessUpdate] returns a buffer for every
    list of peers that are Online or the local client. *)
Theorem reachable_never_throws (aw : Awareness) :
  reachable aw ->
  lockstep aw
  /\ is_Some (meta aw !! clientID aw)
  /\ (forall clients origin now,
         exists events, snd (removeAwarenessStates aw clients origin now) = Normal events)
  /\ (forall order now,
         exists events, snd (checkInterval aw order now) = Normal events)
  /\ (forall clients,
         Forall (fun id => online aw id \/ id = clientID aw) clients ->
         exists update, encodeAwarenessUpdate_default aw clients = Normal update).
Proof.
  intros Hreach.
  pose proof (reachable_lockstep aw Hreach) as Hinv.
  pose proof (reachable_local_meta aw Hreach) as Hlocal.
  split; [done|]. split; [done|]. split; [|split].
  - intros clients origin now.
    destruct (removeAwarenessStates_loop_spec aw clients now [] Hinv)
      as (aw' & removed' & Hloop & _).
    unfold removeAwarenessStates. rewrite Hloop. cbn. eauto.
  - intros order now.
    destruct (checkInterval_spec aw order now Hinv) as (aw' & evicted & -> & _).
    cbn. eauto.
  - intros clients Hclients.
    destruct (decodeAwarenessUpdate_encoded aw clients (states aw)) as (update & Henc & _).
    + eapply Forall_impl; [exact Hclients|]. intros id [Hon| ->]; [by apply Hinv|done].
    + by exists update.
Qed.

Lemma reachable_never_throws_witness :
  let aw := fst (setLocalState (newAwareness 1 0) (JObj [("x"%string, JNum 1)]) 5) in
  lockstep aw
  /\ is_Some (meta aw !! clientID aw)
  /\ (forall clients origin now,
         exists events, snd (removeAwarenessStates aw clients origin now) = Normal events)
  /\ (forall order now,
         exists events, snd (checkInterval aw order now) = Normal events)
  /\ (forall clients,
         Forall (fun id => online aw id \/ id = clientID aw) clients ->
         exists update, encodeAwarenessUpdate_default aw clients = Normal update).
Proof.
  apply (reachable_never_throws
           (fst (setLocalState (newAwareness 1 0) (JObj [("x"%string, JNum 1)]) 5))).
  apply (reachable_step (newAwareness 1 0)); [apply reachable_new|].
  apply step_setLocalState.
Defined.

(** The sweep spares the local client and the peers heard of recently. In a
    store in lockstep, a run of the timer callback leaves the [states] entry
    of the local client, of a peer that the iteration does not visit, and of
    a peer whose [lastUpdated] is less than [outdatedTimeout] behind the
    current time; when such a peer is remote its [meta] entry stays as it
    is too. *)
Theorem checkInterval_keeps_fresh_peers
    (aw : Awareness) (order : list N) (now : N) (id : N) :
  lockstep aw ->
  id = clientID aw
  \/ id ∉ order
  \/ (exists m, meta aw !! id = Some m
                /\ (Z.of_N now - Z.of_N (lastUpdated m) < Z.of_N outdatedTimeout)%Z) ->
  let aw' := fst (checkInterval aw order now) in
  getStates aw' !! id = getStates aw !! id
  /\ (id <> clientID aw -> meta aw' !! id = meta aw !! id).
Proof.
  intros Hinv Hcase. cbv zeta.
  destruct (checkInterval_spec aw order now Hinv)
    as (aw' & evicted & -> & _ & _ & Hst & Hm).
  cbn [fst]. unfold getStates. split.
  - rewrite Hst. rewrite decide_False; [done|]. intros [Hin Hout].
    destruct Hcase as [->|[Hnin|(m & Hmeta & Hfresh)]].
    + by rewrite outdated_local in Hout.
    + done.
    + unfold outdated in Hout. rewrite Hmeta in Hout.
      rewrite (proj2 (Z.leb_gt _ _) Hfresh), andb_false_r in Hout. done.
  - intros Hne. rewrite Hm. destruct (renewal_due aw now); [|done].
    by destruct (setLocalState_frame aw (getLocalState aw) now id Hne) as [_ ->].
Qed.

Lemma checkInterval_keeps_fresh_peers_witness :
  let aw' := fst (checkInterval sample_store [1; 2; 3] 20000) in
  getStates aw' !! 2 = getStates sample_store !! 2
  /\ (2 <> clientID sample_store -> meta aw' !! 2 = meta sample_store !! 2).
Proof.
  apply (checkInterval_keeps_fresh_peers sample_store [1; 2; 3] 20000 2).
  - apply applyEntries_lockstep, newAwareness_lockstep.
  - right. right. exists (mkMeta 4 9). split; [vm_compute; reflexivity|].
    vm_compute. reflexivity.
Defined.

(** The update event of a call of [setLocalState] that replaces a state. *)
Lemma setLocalState_update_event aw prev state now :
  states aw !! clientID aw = Some prev -> prev <> JNull -> state <> JNull ->
  snd (setLocalState aw state now)
  = (if equalityDeep prev state then []
     else [Change (mkChanges [] [clientID aw] []) "local"])
    ++ [Update (mkChanges [] [clientID aw] []) "local"].
Proof.
  intros Hprev Hnn Hstate. unfold setLocalState. cbn [snd].
  rewrite Hprev, (proj2 (is_null_false _) Hstate).
  destruct prev; try done; by destruct (equalityDeep _ state).
Qed.

(** The heartbeat. In a store in lockstep whose local state is not [null],
    a run of the timer callback keeps the local state; when the local
    [lastUpdated] is half of [outdatedTimeout] or more behind the current
    time it stores the double sum of the local clock and 1 (the clock plus 1
    while the clock is below 2^53), stamps the current time and emits an
    [update] event with origin [local] that lists the local client under
    [updated]; before that it leaves the local [meta] entry alone. *)
Theorem checkInterval_heartbeat
    (aw : Awareness) (order : list N) (now : N) (m : MetaClientState) :
  lockstep aw ->
  getLocalState aw <> JNull ->
  meta aw !! clientID aw = Some m ->
  let aw' := fst (checkInterval aw order now) in
  getLocalState aw' = getLocalState aw
  /\ ((Z.of_N outdatedTimeout / 2 <= Z.of_N now - Z.of_N (lastUpdated m))%Z ->
      meta aw' !! clientID aw = Some (mkMeta (Double.succ (clock m)) now)
      /\ (clock m < Double.limit ->
          meta aw' !! clientID aw = Some (mkMeta (clock m + 1) now))
      /\ exists events,
          snd (checkInterval aw order now) = Normal events
          /\ Update (mkChanges [] [clientID aw] []) "local" ∈ events)
  /\ ((Z.of_N now - Z.of_N (lastUpdated m) < Z.of_N outdatedTimeout / 2)%Z ->
      meta aw' !! clientID aw = Some m).
Proof.
  intros Hinv Hlocal Hmeta. cbv zeta.
  destruct (checkInterval_spec aw order now Hinv)
    as (aw' & evicted & -> & Hid & _ & Hst & Hm).
  cbn [fst snd].
  assert (renewal_due aw now
          = (Z.of_N outdatedTimeout / 2 <=? Z.of_N now - Z.of_N (lastUpdated m))%Z)
    as Hdue.
  { unfold renewal_due. by rewrite Hmeta, (proj2 (is_null_false _) Hlocal). }
  split; [|split].
  - unfold getLocalState. rewrite Hid, Hst.
    rewrite decide_False; [done|]. intros [_ Hout]. by rewrite outdated_local in Hout.
  - intros Hlate. rewrite Hm, Hdue, (proj2 (Z.leb_le _ _) Hlate).
    split; [by rewrite setLocalState_meta, Hmeta|].
    split; [intros Hlt; by rewrite setLocalState_meta, Hmeta, Double_succ_exact|].
    eexists. split; [done|].
    unfold getLocalState, or_null in *.
    destruct (states aw !! clientID aw) as [v|] eqn:Hv; [|done].
    destruct (truthy v); [|done].
    rewrite (setLocalState_update_event aw v v now) by done.
    apply elem_of_app. left. apply elem_of_app. right. by apply list_elem_of_singleton.
  - intros Hearly. by rewrite Hm, Hdue, (proj2 (Z.leb_gt _ _) Hearly).
Qed.

Lemma checkInterval_heartbeat_witness :
  let aw' := fst (checkInterval sample_store [1; 2; 3] 15000) in
  getLocalState aw' = getLocalState sample_store
  /\ ((Z.of_N outdatedTimeout / 2 <= Z.of_N 15000 - Z.of_N (lastUpdated (mkMeta 0 0)))%Z ->
      meta aw' !! clientID sample_store
      = Some (mkMeta (Double.succ (clock (mkMeta 0 0))) 15000)
      /\ (clock (mkMeta 0 0) < Double.limit ->
          meta aw' !! clientID sample_store = Some (mkMeta (clock (mkMeta 0 0) + 1) 15000))
      /\ exists events,
          snd (checkInterval sample_store [1; 2; 3] 15000) = Normal events
          /\ Update (mkChanges [] [clientID sample_store] []) "local" ∈ events)
  /\ ((Z.of_N 15000 - Z.of_N (lastUpdated (mkMeta 0 0)) < Z.of_N outdatedTimeout / 2)%Z ->
      meta aw' !! clientID sample_store = Some (mkMeta 0 0)).
Proof.
  apply (checkInterval_heartbeat sample_store [1; 2; 3] 15000 (mkMeta 0 0)).
  - apply applyEntries_lockstep, newAwareness_lockstep.
  - vm_compute. discriminate.
  - vm_compute. reflexivity.
Defined.

(** *** The local state *)

Lemma find_unique_key (fields : list (string * json)) key v :
  NoDup (map fst fields) -> (key, v) ∈ fields ->
  List.find (fun kv => String.eqb (fst kv) key) fields = Some (key, v).
Proof.
  induction fields as [|[k' v'] fields IH]; cbn; intros Hnodup Hin.
  { by apply elem_of_nil in Hin. }
  apply NoDup_cons in Hnodup as [Hfresh Hnodup].
  apply elem_of_cons in Hin as [[= <- <-]|Hin].
  { by rewrite String.eqb_refl. }
  destruct (String.eqb_spec k' key) as [->|Hne]; [|by apply IH].
  destruct Hfresh. apply list_elem_of_fmap. by exists (key, v).
Qed.

(** [equalityDeep] holds between a value and itself. *)
Lemma equalityDeep_refl v : unique_keys v -> equalityDeep v v = true.
Proof.
  induction v as [ | b | n | s | items IH | fields IH ] using json_ind; cbn.
  - done.
  - intros _. by destruct b.
  - intros _. apply Z.eqb_refl.
  - intros _. apply String.eqb_refl.
  - intros Hall. induction IH as [|item items Hitem _ IHitems]; [done|].
    destruct Hall as [Huniq Hall]. rewrite (Hitem Huniq). cbn. by apply IHitems.
  - intros [Hnodup Hall]. rewrite Nat.eqb_refl. cbn.
    assert (forall kv, kv ∈ fields -> kv ∈ fields) as Hsub by done.
    set (part := fields) in Hall at 1, Hsub at 1 |- * at 2. clearbody part.
    revert Hsub Hall. induction part as [|[key v] part IHpart]; [done|].
    intros Hsub [Huniq Hall]. cbn.
    rewrite (find_unique_key fields key v Hnodup) by (apply Hsub, elem_of_cons; by left).
    apply Forall_forall with (x := (key, v)) in IH;
      [|apply Hsub, elem_of_cons; by left].
    cbn in IH. rewrite (IH Huniq). cbn. apply IHpart; [|done].
    intros kv Hin. apply Hsub, elem_of_cons. by right.
Qed.

(** Setting the state that is already there. When the local client sets the
    state it already has (an object whose keys are unique, at every depth),
    [states] stays as it is, no [change] event is emitted, and the one
    [update] event lists the local client under [updated]. *)
Theorem setLocalState_same_state_no_change
    (aw : Awareness) (state : json) (now : N) :
  getStates aw !! clientID aw = Some state ->
  state <> JNull ->
  unique_keys state ->
  snd (setLocalState aw state now) = [Update (mkChanges [] [clientID aw] []) "local"]
  /\ getStates (fst (setLocalState aw state now)) = getStates aw.
Proof.
  unfold getStates. intros Hprev Hstate Huniq. split.
  - rewrite (setLocalState_update_event aw state state now) by done.
    by rewrite equalityDeep_refl.
  - cbn. rewrite (proj2 (is_null_false _) Hstate). by apply insert_id.
Qed.

Lemma setLocalState_same_state_no_change_witness :
  let state := JObj [("a"%string, JObj [("b"%string, JArr [JNum 1; JNull])])] in
  let aw := fst (setLocalState sample_store state 10) in
  snd (setLocalState aw state 20) = [Update (mkChanges [] [clientID aw] []) "local"]
  /\ getStates (fst (setLocalState aw state 20)) = getStates aw.
Proof.
  apply (setLocalState_same_state_no_change
           (fst (setLocalState sample_store
                   (JObj [("a"%string, JObj [("b"%string, JArr [JNum 1; JNull])])]) 10))
           (JObj [("a"%string, JObj [("b"%string, JArr [JNum 1; JNull])])]) 20).
  - vm_compute. reflexivity.
  - discriminate.
  - cbn. repeat split; repeat constructor; cbn; intros Hin;
      repeat (apply elem_of_cons in Hin as [Hin|Hin]; [discriminate|]);
      by apply elem_of_nil in Hin.
Defined.

(** Reading the local state back. After [setLocalState(state)],
    [getLocalState()] returns [state] when it is truthy and [null] when it
    is not ([null] itself, but also [0], [false] and the empty string, which
    do have a [states] entry); the entries of the other peers are untouched. *)
Theorem setLocalState_getLocalState (aw : Awareness) (state : json) (now : N) :
  let aw' := fst (setLocalState aw state now) in
  getLocalState aw' = (if truthy state then state else JNull)
  /\ getStates aw' !! clientID aw = (if is_null state then None else Some state)
  /\ forall id, id <> clientID aw ->
       getStates aw' !! id = getStates aw !! id /\ meta aw' !! id = meta aw !! id.
Proof.
  cbv zeta. split; [|split].
  - unfold getLocalState. cbn. destruct (is_null state) eqn:Hnull.
    + apply is_null_true in Hnull as ->. by rewrite lookup_delete_eq.
    + by rewrite lookup_insert_eq.
  - unfold getStates. cbn.
    destruct (is_null state); [by rewrite lookup_delete_eq|by rewrite lookup_insert_eq].
  - intros id Hne. by apply setLocalState_frame.
Qed.

(** *** The object literal of [setLocalStateField] *)

Lemma has_property_spec props key :
  has_property props key = true <-> key ∈ map fst props.
Proof.
  unfold has_property. rewrite existsb_exists, list_elem_of_fmap. split.
  - intros (kv & Hin & Heq). exists kv. apply String.eqb_eq in Heq.
    split; [done|by apply list_elem_of_In].
  - intros (kv & -> & Hin). exists kv. split; [by apply list_elem_of_In|].
    apply String.eqb_refl.
Qed.

Lemma replace_property_keys props key v :
  map fst (replace_property props key v) = map fst props.
Proof.
  induction props as [|[k x] props IH]; [done|]. cbn.
  destruct (String.eqb_spec k key) as [->|Hne]; cbn; [done|by rewrite IH].
Qed.

Lemma replace_property_spec props key v k x :
  NoDup (map fst props) -> key ∈ map fst props ->
  (k, x) ∈ replace_property props key v
  <-> (k = key /\ x = v) \/ (k <> key /\ (k, x) ∈ props).
Proof.
  induction props as [|[k' x'] props IH]; cbn; intros Hnodup Hkey.
  { by apply elem_of_nil in Hkey. }
  apply NoDup_cons in Hnodup as [Hfresh Hnodup].
  destruct (String.eqb_spec k' key) as [->|Hne].
  - rewrite !elem_of_cons. split.
    + intros [[= -> ->]|Hin]; [by left|]. right. split; [|by right].
      intros ->. apply Hfresh, list_elem_of_fmap. by exists (key, x).
    + intros [[-> ->]|[Hk [[= ? ?]|Hin]]]; [by left|done|by right].
  - apply elem_of_cons in Hkey as [?|Hkey]; [done|].
    rewrite !elem_of_cons, IH by done. split.
    + intros [[= -> ->]|[?|[? ?]]]; [right; split; [done|by left]|by left|].
      right. split; [done|by right].
    + intros [?|[Hk [[= -> ->]|Hin]]]; [by right; left|by left|].
      right. right. done.
Qed.

Lemma insert_index_Permutation props i key v :
  insert_index props i key v ≡ₚ (key, v) :: props.
Proof.
  induction props as [|[k x] props IH]; [done|]. cbn.
  destruct (array_index k) as [j|]; [|done].
  destruct (j <? i); [|done]. rewrite IH. apply perm_swap.
Qed.

(** A key that the object does not have is added. *)
Lemma CreateDataProperty_new props key v :
  key ∉ map fst props -> CreateDataProperty props key v ≡ₚ (key, v) :: props.
Proof.
  intros Hnew. unfold CreateDataProperty.
  destruct (has_property props key) eqn:Hhas.
  { by apply has_property_spec in Hhas. }
  destruct (array_index key) as [i|]; [apply insert_index_Permutation|].
  by rewrite Permutation_app_comm.
Qed.

(** The object after [CreateDataProperty] has unique keys, the property
    [key] with the value [v], and the other properties it had. *)
Lemma CreateDataProperty_spec props key v :
  NoDup (map fst props) ->
  NoDup (map fst (CreateDataProperty props key v))
  /\ forall k x, (k, x) ∈ CreateDataProperty props key v
                 <-> (k = key /\ x = v) \/ (k <> key /\ (k, x) ∈ props).
Proof.
  intros Hnodup. destruct (decide (key ∈ map fst props)) as [Hold|Hnew].
  - unfold CreateDataProperty. rewrite (proj2 (has_property_spec props key) Hold).
    split; [by rewrite replace_property_keys|].
    intros k x. by apply replace_property_spec.
  - pose proof (CreateDataProperty_new props key v Hnew) as Hperm. split.
    + rewrite Hperm. cbn. by apply NoDup_cons.
    + intros k x. rewrite Hperm, elem_of_cons. split.
      * intros [[= -> ->]|Hin]; [by left|]. right. split; [|done].
        intros ->. apply Hnew, list_elem_of_fmap. by exists (key, x).
      * intros [[-> ->]|[_ Hin]]; [by left|by right].
Qed.

(** The spread of properties with unique keys into an object that has none
    of them. *)
Lemma spread_Permutation source target :
  NoDup (map fst (target ++ source)) ->
  fold_left (fun obj '(key, v) => CreateDataProperty obj key v) source target
  ≡ₚ target ++ source.
Proof.
  revert target. induction source as [|[k x] source IH]; intros target Hnodup; cbn.
  { by rewrite app_nil_r. }
  assert (k ∉ map fst target) as Hnew.
  { rewrite map_app in Hnodup. apply NoDup_app in Hnodup as (_ & Hdisjoint & _).
    intros Hin. apply (Hdisjoint k Hin). cbn. apply elem_of_cons. by left. }
  pose proof (CreateDataProperty_new target k x Hnew) as Hperm.
  rewrite IH.
  - rewrite Hperm. cbn. by rewrite Permutation_middle.
  - rewrite Hperm. cbn. by rewrite <- Permutation_middle in Hnodup.
Qed.

Lemma setLocalStateField_object aw field value now fields :
  getLocalState aw = JObj fields ->
  setLocalStateField aw field value now
  = Some (setLocalState aw
            (JObj (CreateDataProperty
                     (fold_left (fun obj '(key, v) => CreateDataProperty obj key v)
                                fields [])
                     field value)) now).
Proof. intros Hlocal. unfold setLocalStateField. by rewrite Hlocal. Qed.

(** [setLocalStateField] needs a local state. While [getLocalState()] is
    [null] the call changes nothing and emits nothing. When the local state
    is an object (with unique keys), the new local state is an object with
    unique keys that has the property [field] with the value [value] and,
    for every other key, exactly the properties of the old state; the local
    [meta] entry gets the double sum of the clock and 1 (0 when there was
    no entry) and the current time, and an [update] event with origin
    [local] lists the local client under [updated]. *)
Theorem setLocalStateField_needs_local_state
    (aw : Awareness) (field : string) (value : json) (now : N) :
  (getLocalState aw = JNull ->
   setLocalStateField aw field value now = Some (aw, []))
  /\ (forall fields,
         getLocalState aw = JObj fields -> NoDup (map fst fields) ->
         exists fields',
           setLocalStateField aw field value now
           = Some (setLocalState aw (JObj fields') now)
           /\ NoDup (map fst fields')
           /\ (forall k x, (k, x) ∈ fields'
                           <-> (k = field /\ x = value) \/ (k <> field /\ (k, x) ∈ fields))
           /\ getLocalState (fst (setLocalState aw (JObj fields') now)) = JObj fields'
           /\ meta (fst (setLocalState aw (JObj fields') now)) !! clientID aw
              = Some (mkMeta (match meta aw !! clientID aw with
                              | None => 0
                              | Some m => Double.succ (clock m)
                              end) now)
           /\ Update (mkChanges [] [clientID aw] []) "local"
              ∈ snd (setLocalState aw (JObj fields') now)).
Proof.
  split.
  - intros Hlocal. unfold setLocalStateField. by rewrite Hlocal.
  - intros fields Hlocal Hnodup. rewrite (setLocalStateField_object _ _ _ _ _ Hlocal).
    set (spread := fold_left (fun obj '(key, v) => CreateDataProperty obj key v) fields []).
    assert (spread ≡ₚ fields) as Hspread by by apply spread_Permutation.
    assert (NoDup (map fst spread)) as Hnodup' by by rewrite Hspread.
    destruct (CreateDataProperty_spec spread field value Hnodup') as [Hunique Hprops].
    eexists. split; [done|]. split; [done|]. split; [|split; [|split]].
    + intros k x. rewrite Hprops. by rewrite Hspread.
    + by destruct (setLocalState_getLocalState
                     aw (JObj (CreateDataProperty spread field value)) now) as [-> _].
    + apply setLocalState_meta.
    + unfold getLocalState, or_null in Hlocal.
      destruct (states aw !! clientID aw) as [prev|] eqn:Hprev; [|done].
      rewrite (setLocalState_update_event aw prev) by (done || by destruct prev).
      apply elem_of_app. right. by apply list_elem_of_singleton.
Qed.

(** The order of the properties of the literal: a property that the state
    has keeps its place, a new array index goes among the array indices in
    ascending order, any other new key goes last; the characters of a
    string and the items of an array are spread by index. *)
Example object_literal_samples :
  let state := JObj [("1"%string, JNum 1); ("b"%string, JNum 2); ("a"%string, JNum 3)] in
  object_literal state "b" JNull
  = Some (JObj [("1"%string, JNum 1); ("b"%string, JNull); ("a"%string, JNum 3)])
  /\ object_literal state "c" JNull
     = Some (JObj [("1"%string, JNum 1); ("b"%string, JNum 2); ("a"%string, JNum 3);
                   ("c"%string, JNull)])
  /\ object_literal state "0" JNull
     = Some (JObj [("0"%string, JNull); ("1"%string, JNum 1); ("b"%string, JNum 2);
                   ("a"%string, JNum 3)])
  /\ object_literal state "01" JNull
     = Some (JObj [("1"%string, JNum 1); ("b"%string, JNum 2); ("a"%string, JNum 3);
                   ("01"%string, JNull)])
  /\ object_literal state "__proto__" JNull
     = Some (JObj [("1"%string, JNum 1); ("b"%string, JNum 2); ("a"%string, JNum 3);
                   ("__proto__"%string, JNull)])
  /\ object_literal (JStr "hi") "x" (JNum 0)
     = Some (JObj [("0"%string, JStr "h"); ("1"%string, JStr "i"); ("x"%string, JNum 0)])
  /\ object_literal (JArr [JNull; JBool true]) "1" (JNum 0)
     = Some (JObj [("0"%string, JNull); ("1"%string, JNum 0)])
  /\ object_literal (JNum 7) "x" (JNum 0) = Some (JObj [("x"%string, JNum 0)]).
Proof. by vm_compute. Qed.

(** [destroy()]. The call emits [destroy], then the [change] and the
    [update] event of a removal of the local client, whether or not the
    client had a state; afterwards the local client has no [states] entry,
    its clock is the double sum of the old clock and 1, the timer callback
    renews nothing, and [setLocalStateField] does nothing. *)
Theorem destroy_goes_offline (aw : Awareness) (now : N) :
  let aw' := fst (destroy aw now) in
  snd (destroy aw now)
  = [Destroyed;
     Notified (Change (mkChanges [] [] [clientID aw]) "local");
     Notified (Update (mkChanges [] [] [clientID aw]) "local")]
  /\ getStates aw' = delete (clientID aw) (getStates aw)
  /\ getLocalState aw' = JNull
  /\ meta aw' !! clientID aw
     = Some (mkMeta (match meta aw !! clientID aw with
                     | None => 0
                     | Some m => Double.succ (clock m)
                     end) now)
  /\ (forall now', renewal_due aw' now' = false)
  /\ (forall field value now',
         setLocalStateField aw' field value now' = Some (aw', [])).
Proof.
  cbv zeta.
  assert (getLocalState (fst (destroy aw now)) = JNull) as Hlocal.
  { unfold getLocalState. cbn. by rewrite lookup_delete_eq. }
  split; [done|]. split; [done|]. split; [done|].
  split; [apply setLocalState_meta|]. split.
  - intros now'. unfold renewal_due. by rewrite Hlocal.
  - intros field value now'. unfold setLocalStateField. by rewrite Hlocal.
Qed.

(* --------------------------------------------------------------------- *)
(** ** Updates on the wire *)
(* --------------------------------------------------------------------- *)

Lemma readEntry_writeEntry entry rest :
  readEntry (writeEntry entry ++ rest) = Normal (entry, rest).
Proof.
  destruct entry as [[id remoteClock] remoteState]. unfold writeEntry.
  rewrite <- !app_assoc. apply readEntry_written.
Qed.

Lemma decodeAwarenessUpdate_loop_written entries rest :
  decodeAwarenessUpdate_loop (length entries) (flat_map writeEntry entries ++ rest)
  = Normal entries.
Proof.
  induction entries as [|entry entries IH]; [done|].
  cbn [length flat_map decodeAwarenessUpdate_loop].
  rewrite <- app_assoc, readEntry_writeEntry. cbn. by rewrite IH.
Qed.

Lemma decodeAwarenessUpdate_writeUpdate entries :
  decodeAwarenessUpdate (writeUpdate entries) = Normal entries.
Proof.
  unfold decodeAwarenessUpdate, writeUpdate. rewrite readVarUint_writeVarUint. cbn.
  rewrite Nat2N.id, <- (app_nil_r (flat_map _ _)). apply decodeAwarenessUpdate_loop_written.
Qed.

Lemma entries_read_written entries len :
  (length entries < len)%nat ->
  entries_read len (flat_map writeEntry entries) = entries.
Proof.
  revert len. induction entries as [|entry entries IH]; intros [|len] Hlen;
    cbn [length flat_map entries_read] in *; try lia; [done|].
  rewrite readEntry_writeEntry. f_equal. apply IH. lia.
Qed.

Lemma encodeAwarenessUpdate_loop_written aw states clients :
  Forall (fun id => is_Some (meta aw !! id)) clients ->
  encodeAwarenessUpdate_loop aw states clients
  = Normal (flat_map writeEntry (map (wire_entry aw states) clients)).
Proof.
  induction 1 as [|id clients [m Hm] _ IH]; cbn; [done|].
  rewrite Hm, IH. cbn. unfold localClock. rewrite Hm. cbn. by rewrite <- !app_assoc.
Qed.

Lemma encodeAwarenessUpdate_loop_throws aw states clients :
  ~ Forall (fun id => is_Some (meta aw !! id)) clients ->
  encodeAwarenessUpdate_loop aw states clients = Throw TypeError.
Proof.
  induction clients as [|id clients IH]; cbn; intros Hnot.
  { destruct Hnot. constructor. }
  destruct (meta aw !! id) as [m|] eqn:Hm; [|done].
  rewrite IH; [done|]. intros Hall. apply Hnot. constructor; [eauto|done].
Qed.

(** [encodeAwarenessUpdate] and the [meta] entries. The call returns a
    buffer exactly when every listed peer has a [meta] entry, whatever its
    [states] entry; the buffer is then the count followed by one entry per
    listed peer, in list order; otherwise the call throws a [TypeError]. *)
Theorem encodeAwarenessUpdate_needs_meta
    (aw : Awareness) (clients : list N) (states : gmap N json) :
  encodeAwarenessUpdate aw clients states
  = if decide (Forall (fun id => is_Some (meta aw !! id)) clients)
    then Normal (writeUpdate (map (wire_entry aw states) clients))
    else Throw TypeError.
Proof.
  unfold encodeAwarenessUpdate. destruct (decide _) as [Hall|Hnot].
  - rewrite encodeAwarenessUpdate_loop_written by done. cbn.
    unfold writeUpdate. by rewrite length_map.
  - by rewrite encodeAwarenessUpdate_loop_throws.
Qed.

(** An update cut short. When an update announces more entries than it
    carries, [applyAwarenessUpdate] merges the entries it carries, then
    throws; no event is emitted for what was merged. *)
Theorem applyAwarenessUpdate_truncated
    (aw : Awareness) (entries : list (N * N * json)) (missing : nat)
    (origin : string) (timestamp : N) :
  applyAwarenessUpdate aw
    (writeVarUint (N.of_nat (length entries + S missing))
     ++ flat_map writeEntry entries) origin timestamp
  = (fst (applyEntries timestamp aw no_changes entries), Throw UnexpectedEndOfArray).
Proof.
  unfold applyAwarenessUpdate. rewrite readVarUint_writeVarUint, Nat2N.id.
  generalize no_changes as c. revert aw.
  induction entries as [|entry entries IH]; intros aw c;
    cbn [length flat_map Nat.add applyAwarenessUpdate_loop].
  { done. }
  rewrite readEntry_writeEntry, applyEntries_cons.
  destruct (applyAwarenessUpdate_entry timestamp aw c entry) as [aw' c'].
  cbn [fst snd]. specialize (IH aw' c').
  destruct (applyAwarenessUpdate_loop _ _ _ _ _) as [aw2 [c2|e]]; [done|].
  by injection IH as -> ->.
Qed.

Lemma applyAwarenessUpdate_writeUpdate aw entries origin timestamp :
  applyAwarenessUpdate aw (writeUpdate entries) origin timestamp
  = (fst (applyEntries timestamp aw no_changes entries),
     Normal (applyAwarenessUpdate_emit
               (snd (applyEntries timestamp aw no_changes entries)) origin)).
Proof. apply applyAwarenessUpdate_decode, decodeAwarenessUpdate_writeUpdate. Qed.

Lemma encodeAwarenessUpdate_default_written aw clients :
  Forall (fun id => is_Some (meta aw !! id)) clients ->
  encodeAwarenessUpdate_default aw clients
  = Normal (writeUpdate (map (wire_entry aw (states aw)) clients)).
Proof.
  intros Hall. unfold encodeAwarenessUpdate_default, encodeAwarenessUpdate.
  rewrite encodeAwarenessUpdate_loop_written by done. cbn.
  unfold writeUpdate. by rewrite length_map.
Qed.

Lemma applyEntries_single timestamp aw c entry :
  applyEntries timestamp aw c [entry] = applyAwarenessUpdate_entry timestamp aw c entry.
Proof. unfold applyEntries. cbn. by destruct (applyAwarenessUpdate_entry _ _ _ _). Qed.

Lemma truthy_not_null v : truthy v = true -> v <> JNull.
Proof. by destruct v. Qed.

(** How an accepted entry is classified. *)
Lemma applyAwarenessUpdate_entry_report timestamp aw id remoteClock remoteState origin :
  accepts aw (id, remoteClock, remoteState) ->
  applyAwarenessUpdate_emit
    (snd (applyAwarenessUpdate_entry timestamp aw no_changes (id, remoteClock, remoteState)))
    origin
  =   match meta aw !! id, is_null remoteState with
      | None, true => []
      | Some _, true => [Change (mkChanges [] [] [id]) origin;
                         Update (mkChanges [] [] [id]) origin]
      | None, false => [Change (mkChanges [id] [] []) origin;
                        Update (mkChanges [id] [] []) origin]
      | Some _, false =>
          (if equalityDeep_get remoteState (states aw !! id) then []
           else [Change (mkChanges [] [id] []) origin])
          ++ [Update (mkChanges [] [id] []) origin]
      end.
Proof.
  intros Hacc. apply accept_test_spec in Hacc.
  unfold applyAwarenessUpdate_entry. rewrite Hacc.
  destruct (meta aw !! id) as [m|], (is_null remoteState) eqn:Hnull; cbn.
  - by destruct ((id =? clientID aw) && _).
  - by destruct (equalityDeep_get _ _).
  - by destruct ((id =? clientID aw) && _).
  - done.
Qed.

(** The echo of an update. A store that applies an update it encoded itself
    (every listed peer with a [meta] entry, every listed [states] entry
    truthy) stays as it is and emits nothing. *)
Theorem encodeAwarenessUpdate_echo
    (aw : Awareness) (clients : list N) (origin : string) (timestamp : N) :
  Forall (fun id => is_Some (meta aw !! id)) clients ->
  Forall (fun id => forall state, states aw !! id = Some state -> truthy state = true)
         clients ->
  exists update,
    encodeAwarenessUpdate_default aw clients = Normal update
    /\ applyAwarenessUpdate aw update origin timestamp = (aw, Normal []).
Proof.
  intros Hmeta Htruthy. eexists. split; [by apply encodeAwarenessUpdate_default_written|].
  rewrite applyAwarenessUpdate_writeUpdate, applyEntries_rejected; [done|].
  apply Forall_map. eapply Forall_impl; [exact Htruthy|].
  intros id Hid. cbn. unfold accepts, wire_entry, online.
  intros [Hlt|(_ & Hnull & [v Hv])]; [lia|].
  rewrite Hv in Hnull. cbn in Hnull. rewrite (Hid v Hv) in Hnull.
  by apply (truthy_not_null v (Hid v Hv)).
Qed.

Lemma encodeAwarenessUpdate_echo_witness :
  exists update,
    encodeAwarenessUpdate_default sample_store [2; 1; 3] = Normal update
    /\ applyAwarenessUpdate sample_store update "echo" 77 = (sample_store, Normal []).
Proof.
  apply (encodeAwarenessUpdate_echo sample_store [2; 1; 3] "echo" 77).
  - repeat constructor; eexists; vm_compute; reflexivity.
  - repeat constructor; intros state Hstate; vm_compute in Hstate;
      injection Hstate as <- || discriminate Hstate; reflexivity.
Defined.

(** The state of the constructor does not travel. The constructor sets the
    local state [{}] with clock 0, and no store accepts an entry with clock
    0 that carries a state: the update that a new store encodes for itself
    changes no receiver and raises no event there. *)
Theorem newAwareness_state_never_accepted
    (docClientID now : N) (receiver : Awareness) (origin : string) (timestamp : N) :
  exists update,
    encodeAwarenessUpdate_default (newAwareness docClientID now) [docClientID]
    = Normal update
    /\ decodeAwarenessUpdate update = Normal [(docClientID, 0, JObj [])]
    /\ applyAwarenessUpdate receiver update origin timestamp = (receiver, Normal []).
Proof.
  assert (map (wire_entry (newAwareness docClientID now)
                 (states (newAwareness docClientID now))) [docClientID]
          = [(docClientID, 0, JObj [])]) as Hentries.
  { cbn. unfold wire_entry, localClock. cbn. by rewrite !lookup_insert_eq. }
  eexists. split; [|split].
  - apply encodeAwarenessUpdate_default_written. repeat constructor.
    unfold newAwareness. cbn. rewrite lookup_insert_eq. eauto.
  - by rewrite decodeAwarenessUpdate_writeUpdate, Hentries.
  - rewrite applyAwarenessUpdate_writeUpdate, Hentries, applyEntries_rejected; [done|].
    repeat constructor. intros [Hlt|(_ & Hnull & _)]; [lia|done].
Qed.

(** *** From one store to another *)

Lemma applyAwarenessUpdate_single aw update origin timestamp entry :
  decodeAwarenessUpdate update = Normal [entry] ->
  applyAwarenessUpdate aw update origin timestamp
  = (fst (applyAwarenessUpdate_entry timestamp aw no_changes entry),
     Normal (applyAwarenessUpdate_emit
               (snd (applyAwarenessUpdate_entry timestamp aw no_changes entry)) origin)).
Proof.
  intros Hdec. by rewrite (applyAwarenessUpdate_decode _ _ _ _ _ Hdec), applyEntries_single.
Qed.

(** The update that a store encodes for one peer with a [meta] entry. *)
Lemma encodeAwarenessUpdate_default_single sender id m :
  meta sender !! id = Some m ->
  exists update,
    encodeAwarenessUpdate_default sender [id] = Normal update
    /\ decodeAwarenessUpdate update
       = Normal [(id, clock m, or_null (states sender !! id))].
Proof.
  intros Hm. eexists. split.
  - apply encodeAwarenessUpdate_default_written. repeat constructor. eauto.
  - rewrite decodeAwarenessUpdate_writeUpdate. cbn. unfold wire_entry, localClock.
    by rewrite Hm.
Qed.

(** What the listeners are told about an update of one entry. A rejected
    entry raises no event. An accepted entry reports the peer as added only
    when the store had no [meta] entry for it: a peer that went Offline and
    comes back is reported as updated. A removal is reported whenever the
    store had a [meta] entry, also for a peer that was Offline already and
    for the local client whose state the store keeps, and is not reported
    for a peer the store never heard of. *)
Theorem applyAwarenessUpdate_reports
    (aw : Awareness) (update : list byte) (origin : string) (timestamp : N)
    (id remoteClock : N) (remoteState : json) :
  decodeAwarenessUpdate update = Normal [(id, remoteClock, remoteState)] ->
  snd (applyAwarenessUpdate aw update origin timestamp)
  = Normal
      (if decide (accepts aw (id, remoteClock, remoteState)) then
         match meta aw !! id, is_null remoteState with
         | None, true => []
         | Some _, true => [Change (mkChanges [] [] [id]) origin;
                            Update (mkChanges [] [] [id]) origin]
         | None, false => [Change (mkChanges [id] [] []) origin;
                           Update (mkChanges [id] [] []) origin]
         | Some _, false =>
             (if equalityDeep_get remoteState (states aw !! id) then []
              else [Change (mkChanges [] [id] []) origin])
             ++ [Update (mkChanges [] [id] []) origin]
         end
       else []).
Proof.
  intros Hdec. rewrite (applyAwarenessUpdate_single _ _ _ _ _ Hdec). cbn [snd].
  f_equal. destruct (decide _) as [Hacc|Hrej].
  - by apply applyAwarenessUpdate_entry_report.
  - by rewrite applyAwarenessUpdate_entry_rejected.
Qed.

Lemma applyAwarenessUpdate_reports_witness :
  snd (applyAwarenessUpdate sample_store
         [x01; x03; x03; x02; x7b; x7d]%byte "remote" 40)
  = Normal
      (if decide (accepts sample_store (3, 3, JObj [])) then
         match meta sample_store !! 3, is_null (JObj []) with
         | None, true => []
         | Some _, true => [Change (mkChanges [] [] [3]) "remote";
                            Update (mkChanges [] [] [3]) "remote"]
         | None, false => [Change (mkChanges [3] [] []) "remote";
                           Update (mkChanges [3] [] []) "remote"]
         | Some _, false =>
             (if equalityDeep_get (JObj []) (states sample_store !! 3) then []
              else [Change (mkChanges [] [3] []) "remote"])
             ++ [Update (mkChanges [] [3] []) "remote"]
         end
       else []).
Proof.
  apply (applyAwarenessUpdate_reports sample_store
           [x01; x03; x03; x02; x7b; x7d]%byte "remote" 40 3 3 (JObj [])).
  vm_compute. reflexivity.
Defined.

(** A new state reaches a peer. When a client with a [meta] entry sets a
    truthy state and encodes the update for itself, the update carries the
    clock [Double.succ (clock m)] that [setLocalState] stored, and every
    store whose clock for that client is below it accepts the update: the
    store takes the state and that clock, stamps its own time of arrival,
    leaves every other peer alone, and emits an [update] event that lists
    the client under [added] when it had no [meta] entry for it and under
    [updated] otherwise. Below [Double.limit] the clock carried is
    [clock m + 1], and the stores that accept are those that know no clock
    newer than [clock m]. *)
Theorem setLocalState_propagates
    (sender receiver : Awareness) (state : json) (now timestamp : N)
    (origin : string) (m : MetaClientState) :
  meta sender !! clientID sender = Some m ->
  truthy state = true ->
  localClock receiver (clientID sender) < Double.succ (clock m) ->
  exists update,
    encodeAwarenessUpdate_default (fst (setLocalState sender state now)) [clientID sender]
    = Normal update
    /\ decodeAwarenessUpdate update
       = Normal [(clientID sender, Double.succ (clock m), state)]
    /\ (clock m < Double.limit -> Double.succ (clock m) = clock m + 1)
    /\ let receiver' := fst (applyAwarenessUpdate receiver update origin timestamp) in
       getStates receiver' !! clientID sender = Some state
       /\ meta receiver' !! clientID sender
          = Some (mkMeta (Double.succ (clock m)) timestamp)
       /\ (forall id, id <> clientID sender ->
             getStates receiver' !! id = getStates receiver !! id
             /\ meta receiver' !! id = meta receiver !! id)
       /\ exists events,
           snd (applyAwarenessUpdate receiver update origin timestamp) = Normal events
           /\ Update (match meta receiver !! clientID sender with
                      | None => mkChanges [clientID sender] [] []
                      | Some _ => mkChanges [] [clientID sender] []
                      end) origin ∈ events.
Proof.
  intros Hm Htruthy Hlt.
  pose proof (truthy_not_null _ Htruthy) as Hstate.
  set (sender' := fst (setLocalState sender state now)).
  assert (meta sender' !! clientID sender
          = Some (mkMeta (Double.succ (clock m)) now)) as Hm'.
  { subst sender'. by rewrite setLocalState_meta, Hm. }
  assert (or_null (states sender' !! clientID sender) = state) as Hst'.
  { subst sender'. rewrite setLocalState_online by done. cbn. by rewrite Htruthy. }
  destruct (encodeAwarenessUpdate_default_single sender' _ _ Hm') as (update & Henc & Hdec).
  rewrite Hst' in Hdec. cbn [clock] in Hdec.
  exists update. split; [done|]. split; [done|].
  split; [apply Double_succ_exact|]. cbv zeta.
  assert (accepts receiver (clientID sender, Double.succ (clock m), state)) as Hacc.
  { by left. }
  rewrite (applyAwarenessUpdate_single _ _ _ _ _ Hdec). cbn [fst snd].
  rewrite applyAwarenessUpdate_entry_report by done. unfold getStates.
  split; [|split; [|split]].
  - rewrite applyAwarenessUpdate_entry_state by done. cbn. by rewrite lookup_insert_eq.
  - rewrite applyAwarenessUpdate_entry_state by done. cbn. by rewrite lookup_insert_eq.
  - intros id Hne. by apply applyAwarenessUpdate_entry_frame.
  - eexists. split; [done|]. rewrite (proj2 (is_null_false _) Hstate).
    destruct (meta receiver !! clientID sender).
    + apply elem_of_app. right. by apply list_elem_of_singleton.
    + apply elem_of_cons. right. by apply list_elem_of_singleton.
Qed.

Lemma setLocalState_propagates_witness :
  exists update,
    encodeAwarenessUpdate_default
      (fst (setLocalState sample_store (JObj [("x"%string, JNum 1)]) 50))
      [clientID sample_store]
    = Normal update
    /\ decodeAwarenessUpdate update
       = Normal [(clientID sample_store, Double.succ (clock (mkMeta 0 0)),
                  JObj [("x"%string, JNum 1)])]
    /\ (clock (mkMeta 0 0) < Double.limit
        -> Double.succ (clock (mkMeta 0 0)) = clock (mkMeta 0 0) + 1)
    /\ let receiver' := fst (applyAwarenessUpdate (newAwareness 9 0) update "remote" 60) in
       getStates receiver' !! clientID sample_store = Some (JObj [("x"%string, JNum 1)])
       /\ meta receiver' !! clientID sample_store
          = Some (mkMeta (Double.succ (clock (mkMeta 0 0))) 60)
       /\ (forall id, id <> clientID sample_store ->
             getStates receiver' !! id = getStates (newAwareness 9 0) !! id
             /\ meta receiver' !! id = meta (newAwareness 9 0) !! id)
       /\ exists events,
           snd (applyAwarenessUpdate (newAwareness 9 0) update "remote" 60)
           = Normal events
           /\ Update (match meta (newAwareness 9 0) !! clientID sample_store with
                      | None => mkChanges [clientID sample_store] [] []
                      | Some _ => mkChanges [] [clientID sample_store] []
                      end) "remote" ∈ events.
Proof.
  apply (setLocalState_propagates sample_store (newAwareness 9 0)
           (JObj [("x"%string, JNum 1)]) 50 60 "remote" (mkMeta 0 0)).
  - vm_compute. reflexivity.
  - reflexivity.
  - vm_compute. reflexivity.
Defined.

(** A departure reaches a peer. When a client with a [meta] entry calls
    [destroy] and encodes the update for itself, the update carries [null]
    with the clock [Double.succ (clock m)] that [destroy] stored, and every
    store whose clock for that client is below it, and which is not that
    client with a local state, accepts the removal: it drops the [states]
    entry, takes that clock, and reports the client as removed when it had
    a [meta] entry for it (and reports nothing when it never heard of the
    client). Below [Double.limit] the clock carried is [clock m + 1]. *)
Theorem destroy_propagates
    (sender receiver : Awareness) (now timestamp : N)
    (origin : string) (m : MetaClientState) :
  meta sender !! clientID sender = Some m ->
  localClock receiver (clientID sender) < Double.succ (clock m) ->
  clientID sender <> clientID receiver \/ getLocalState receiver = JNull ->
  exists update,
    encodeAwarenessUpdate_default (fst (destroy sender now)) [clientID sender]
    = Normal update
    /\ decodeAwarenessUpdate update
       = Normal [(clientID sender, Double.succ (clock m), JNull)]
    /\ (clock m < Double.limit -> Double.succ (clock m) = clock m + 1)
    /\ let receiver' := fst (applyAwarenessUpdate receiver update origin timestamp) in
       getStates receiver' !! clientID sender = None
       /\ meta receiver' !! clientID sender
          = Some (mkMeta (Double.succ (clock m)) timestamp)
       /\ (forall id, id <> clientID sender ->
             getStates receiver' !! id = getStates receiver !! id
             /\ meta receiver' !! id = meta receiver !! id)
       /\ snd (applyAwarenessUpdate receiver update origin timestamp)
          = Normal (match meta receiver !! clientID sender with
                    | None => []
                    | Some _ => [Change (mkChanges [] [] [clientID sender]) origin;
                                 Update (mkChanges [] [] [clientID sender]) origin]
                    end).
Proof.
  intros Hm Hlt Hother.
  set (sender' := fst (destroy sender now)).
  assert (meta sender' !! clientID sender
          = Some (mkMeta (Double.succ (clock m)) now)) as Hm'.
  { subst sender'. by rewrite destroy_store, setLocalState_meta, Hm. }
  assert (or_null (states sender' !! clientID sender) = JNull) as Hst'.
  { subst sender'. by rewrite destroy_store, setLocalState_null_offline. }
  destruct (encodeAwarenessUpdate_default_single sender' _ _ Hm') as (update & Henc & Hdec).
  rewrite Hst' in Hdec. cbn [clock] in Hdec.
  exists update. split; [done|]. split; [done|].
  split; [apply Double_succ_exact|]. cbv zeta.
  assert (accepts receiver (clientID sender, Double.succ (clock m), JNull)) as Hacc.
  { by left. }
  rewrite (applyAwarenessUpdate_single _ _ _ _ _ Hdec). cbn [fst snd].
  rewrite applyAwarenessUpdate_entry_report by done. unfold getStates.
  rewrite applyAwarenessUpdate_entry_removed by done. cbn.
  split; [by rewrite lookup_delete_eq|]. split; [by rewrite lookup_insert_eq|].
  split; [|by destruct (meta receiver !! clientID sender)].
  intros id Hne. by rewrite lookup_delete_ne, lookup_insert_ne.
Qed.

Lemma destroy_propagates_witness :
  let sender := mkAwareness 2 {[2 := JObj []]} {[2 := mkMeta 4 0]} in
  exists update,
    encodeAwarenessUpdate_default (fst (destroy sender 50)) [clientID sender]
    = Normal update
    /\ decodeAwarenessUpdate update
       = Normal [(clientID sender, Double.succ (clock (mkMeta 4 0)), JNull)]
    /\ (clock (mkMeta 4 0) < Double.limit
        -> Double.succ (clock (mkMeta 4 0)) = clock (mkMeta 4 0) + 1)
    /\ let receiver' := fst (applyAwarenessUpdate sample_store update "remote" 60) in
       getStates receiver' !! clientID sender = None
       /\ meta receiver' !! clientID sender
          = Some (mkMeta (Double.succ (clock (mkMeta 4 0))) 60)
       /\ (forall id, id <> clientID sender ->
             getStates receiver' !! id = getStates sample_store !! id
             /\ meta receiver' !! id = meta sample_store !! id)
       /\ snd (applyAwarenessUpdate sample_store update "remote" 60)
          = Normal (match meta sample_store !! clientID sender with
                    | None => []
                    | Some _ => [Change (mkChanges [] [] [clientID sender]) "remote";
                                 Update (mkChanges [] [] [clientID sender]) "remote"]
                    end).
Proof.
  intros sender.
  apply (destroy_propagates sender sample_store 50 60 "remote" (mkMeta 4 0)).
  - vm_compute. reflexivity.
  - vm_compute. reflexivity.
  - left. discriminate.
Defined.

(** A wrongly removed client comes back. When a client with a local state
    accepts a removal of itself, the update it then encodes for itself
    carries its state with the clock [Double.succ remoteClock], the sum in
    double arithmetic of the clock of the removal and 1, and every store
    whose clock for the client is below that clock takes the state back.
    Below [Double.limit] the reply carries [remoteClock + 1], and the
    stores that take the state back are those that know no clock beyond
    that of the removal. *)
Theorem self_protection_reply
    (aw : Awareness) (update : list byte) (origin : string) (timestamp : N)
    (remoteClock : N) :
  getLocalState aw <> JNull ->
  decodeAwarenessUpdate update = Normal [(clientID aw, remoteClock, JNull)] ->
  accepts aw (clientID aw, remoteClock, JNull) ->
  let aw' := fst (applyAwarenessUpdate aw update origin timestamp) in
  exists reply,
    encodeAwarenessUpdate_default aw' [clientID aw] = Normal reply
    /\ decodeAwarenessUpdate reply
       = Normal [(clientID aw, Double.succ remoteClock, getLocalState aw)]
    /\ (remoteClock < Double.limit -> Double.succ remoteClock = remoteClock + 1)
    /\ forall receiver origin' timestamp',
        localClock receiver (clientID aw) < Double.succ remoteClock ->
        let receiver' := fst (applyAwarenessUpdate receiver reply origin' timestamp') in
        getStates receiver' !! clientID aw = Some (getLocalState aw)
        /\ meta receiver' !! clientID aw
           = Some (mkMeta (Double.succ remoteClock) timestamp').
Proof.
  intros Hlocal Hdec Hacc. cbv zeta.
  rewrite (applyAwarenessUpdate_single _ _ _ _ _ Hdec). cbn [fst].
  rewrite applyAwarenessUpdate_entry_protected by done.
  set (aw' := mkAwareness _ _ _).
  assert (meta aw' !! clientID aw
          = Some (mkMeta (Double.succ remoteClock) timestamp)) as Hm'.
  { subst aw'. cbn. by rewrite lookup_insert_eq. }
  destruct (encodeAwarenessUpdate_default_single aw' _ _ Hm') as (reply & Henc & Hreply).
  change (or_null (states aw' !! clientID aw)) with (getLocalState aw) in Hreply.
  cbn [clock] in Hreply.
  exists reply. split; [done|]. split; [done|].
  split; [apply Double_succ_exact|].
  intros receiver origin' timestamp' Hlt. cbv zeta.
  rewrite (applyAwarenessUpdate_single _ _ _ _ _ Hreply). cbn [fst].
  rewrite applyAwarenessUpdate_entry_state; [|by left|done].
  unfold getStates. cbn. by rewrite !lookup_insert_eq.
Qed.

Lemma self_protection_reply_witness :
  let aw' := fst (applyAwarenessUpdate sample_store
                    [x01; x01; x07; x04; x6e; x75; x6c; x6c]%byte "remote" 40) in
  exists reply,
    encodeAwarenessUpdate_default aw' [clientID sample_store] = Normal reply
    /\ decodeAwarenessUpdate reply
       = Normal [(clientID sample_store, Double.succ 7, getLocalState sample_store)]
    /\ (7 < Double.limit -> Double.succ 7 = 7 + 1)
    /\ forall receiver origin' timestamp',
        localClock receiver (clientID sample_store) < Double.succ 7 ->
        let receiver' := fst (applyAwarenessUpdate receiver reply origin' timestamp') in
        getStates receiver' !! clientID sample_store = Some (getLocalState sample_store)
        /\ meta receiver' !! clientID sample_store
           = Some (mkMeta (Double.succ 7) timestamp').
Proof.
  apply (self_protection_reply sample_store
           [x01; x01; x07; x04; x6e; x75; x6c; x6c]%byte "remote" 40 7).
  - vm_compute. discriminate.
  - vm_compute. reflexivity.
  - left. vm_compute. reflexivity.
Defined.

(** Self-protection guards against removal only. An update that carries a
    state for the local client with a newer clock replaces the local state:
    the store takes the remote state and the remote clock as they are. *)
Theorem applyAwarenessUpdate_overwrites_local_state
    (aw : Awareness) (update : list byte) (origin : string) (timestamp : N)
    (remoteClock : N) (remoteState : json) :
  decodeAwarenessUpdate update = Normal [(clientID aw, remoteClock, remoteState)] ->
  remoteState <> JNull ->
  localClock aw (clientID aw) < remoteClock ->
  let aw' := fst (applyAwarenessUpdate aw update origin timestamp) in
  getStates aw' !! clientID aw = Some remoteState
  /\ getLocalState aw' = (if truthy remoteState then remoteState else JNull)
  /\ meta aw' !! clientID aw = Some (mkMeta remoteClock timestamp).
Proof.
  intros Hdec Hstate Hlt. cbv zeta.
  rewrite (applyAwarenessUpdate_single _ _ _ _ _ Hdec). cbn [fst].
  rewrite applyAwarenessUpdate_entry_state; [|by left|done].
  unfold getStates, getLocalState. cbn. by rewrite !lookup_insert_eq.
Qed.

Lemma applyAwarenessUpdate_overwrites_local_state_witness :
  let aw' := fst (applyAwarenessUpdate sample_store
                    [x01; x01; x01; x07; x7b; x22; x78; x22; x3a; x31; x7d]%byte
                    "remote" 40) in
  getStates aw' !! clientID sample_store = Some (JObj [("x"%string, JNum 1)])
  /\ getLocalState aw'
     = (if truthy (JObj [("x"%string, JNum 1)]) then JObj [("x"%string, JNum 1)]
        else JNull)
  /\ meta aw' !! clientID sample_store = Some (mkMeta 1 40).
Proof.
  apply (applyAwarenessUpdate_overwrites_local_state sample_store
           [x01; x01; x01; x07; x7b; x22; x78; x22; x3a; x31; x7d]%byte "remote" 40 1
           (JObj [("x"%string, JNum 1)])).
  - vm_compute. reflexivity.
  - discriminate.
  - vm_compute. reflexivity.
Defined.

(** *** What [removeAwarenessStates] reports *)





(** *** [modifyAwarenessUpdate] *)

Lemma modifyAwarenessUpdate_loop_written len decoder modify entries :
  decodeAwarenessUpdate_loop len decoder = Normal entries ->
  modifyAwarenessUpdate_loop len decoder modify
  = Normal (flat_map writeEntry
              (map (fun '(clientID, clock, state) => (clientID, clock, modify state))
                   entries))
  /\ length entries = len.
Proof.
  revert decoder entries. induction len as [|len IH]; intros decoder entries; cbn.
  { by intros [= <-]. }
  destruct (readEntry decoder) as [[[[clientID clock] state] decoder']|e]; cbn; [|done].
  destruct (decodeAwarenessUpdate_loop len decoder') as [entries'|e] eqn:Hrest; cbn; [|done].
  intros [= <-]. destruct (IH _ _ Hrest) as [-> Hlen]. cbn.
  by rewrite <- !app_assoc, Hlen.
Qed.

Lemma modifyAwarenessUpdate_written update modify entries :
  decodeAwarenessUpdate update = Normal entries ->
  modifyAwarenessUpdate update modify
  = Normal (writeUpdate
              (map (fun '(clientID, clock, state) => (clientID, clock, modify state))
                   entries)).
Proof.
  unfold decodeAwarenessUpdate, modifyAwarenessUpdate.
  destruct (readVarUint update) as [[len decoder]|e]; cbn; [|done].
  intros Hdec.
  destruct (modifyAwarenessUpdate_loop_written _ _ modify _ Hdec) as [-> Hlen]. cbn.
  unfold writeUpdate. by rewrite length_map, Hlen, N2Nat.id.
Qed.

(** [modifyAwarenessUpdate] composes, and the identity gives an encoded
    update back. On an update that decodes, rewriting with [modify] and
    then with [modify'] returns the buffer that rewriting once with their
    composition returns; rewriting an update that [encodeAwarenessUpdate]
    returned with the identity returns the same bytes. *)
Theorem modifyAwarenessUpdate_compose
    (update : list byte) (entries : list (N * N * json)) (modify modify' : json -> json) :
  decodeAwarenessUpdate update = Normal entries ->
  (rewritten ← modifyAwarenessUpdate update modify;
   modifyAwarenessUpdate rewritten modify')
  = modifyAwarenessUpdate update (fun state => modify' (modify state))
  /\ forall aw clients states,
      encodeAwarenessUpdate aw clients states = Normal update ->
      modifyAwarenessUpdate update (fun state => state) = Normal update.
Proof.
  intros Hdec. split.
  - rewrite !(modifyAwarenessUpdate_written update _ entries Hdec). cbn.
    rewrite (modifyAwarenessUpdate_written _ modify' _
               (decodeAwarenessUpdate_writeUpdate _)).
    rewrite map_map. do 2 f_equal. apply map_ext. by intros [[clientID clock] state].
  - intros aw clients states Henc.
    rewrite (modifyAwarenessUpdate_written update _ entries Hdec).
    assert (map (fun '(clientID, clock, state) => (clientID, clock, state)) entries
            = entries) as ->.
    { rewrite <- (map_id entries) at 2. apply map_ext. by intros [[clientID clock] state]. }
    unfold encodeAwarenessUpdate in Henc.
    destruct (decide (Forall (fun id => is_Some (meta aw !! id)) clients)) as [Hall|Hnot].
    + rewrite encodeAwarenessUpdate_loop_written in Henc by done. cbn in Henc.
      injection Henc as <-.
      assert (writeVarUint (N.of_nat (length clients))
              ++ flat_map writeEntry (map (wire_entry aw states) clients)
              = writeUpdate (map (wire_entry aw states) clients)) as Hwritten.
      { unfold writeUpdate. by rewrite length_map. }
      rewrite Hwritten in Hdec |- *. rewrite decodeAwarenessUpdate_writeUpdate in Hdec.
      by injection Hdec as <-.
    + by rewrite encodeAwarenessUpdate_loop_throws in Henc.
Qed.

Lemma modifyAwarenessUpdate_compose_witness :
  (rewritten ← modifyAwarenessUpdate
                 [x01; x07; x01; x07; x7b; x22; x78; x22; x3a; x31; x7d]%byte
                 (fun state => JArr [state]);
   modifyAwarenessUpdate rewritten (fun state => JArr [state; JNull]))
  = modifyAwarenessUpdate
      [x01; x07; x01; x07; x7b; x22; x78; x22; x3a; x31; x7d]%byte
      (fun state => JArr [JArr [state]; JNull])
  /\ forall aw clients states,
      encodeAwarenessUpdate aw clients states
      = Normal [x01; x07; x01; x07; x7b; x22; x78; x22; x3a; x31; x7d]%byte ->
      modifyAwarenessUpdate
        [x01; x07; x01; x07; x7b; x22; x78; x22; x3a; x31; x7d]%byte (fun state => state)
      = Normal [x01; x07; x01; x07; x7b; x22; x78; x22; x3a; x31; x7d]%byte.
Proof.
  apply (modifyAwarenessUpdate_compose
           [x01; x07; x01; x07; x7b; x22; x78; x22; x3a; x31; x7d]%byte
           [(7, 1, JObj [("x"%string, JNum 1)])]
           (fun state => JArr [state]) (fun state => JArr [state; JNull])).
  vm_compute. reflexivity.
Defined.

(* --------------------------------------------------------------------- *)
(** ** The order of arrival *)
(* --------------------------------------------------------------------- *)

Lemma Map_has_bool_decide {V} (m : gmap N V) key :
  Map_has m key = bool_decide (is_Some (m !! key)).
Proof.
  unfold Map_has. destruct (m !! key) as [v|].
  - by rewrite bool_decide_eq_true_2.
  - rewrite bool_decide_eq_false_2; [done|]. by intros [v Hv].
Qed.

(** An entry for a remote peer rewrites the two map entries of that peer by
    [cell_merge] and leaves the others. *)
Lemma applyAwarenessUpdate_entry_cell timestamp aw c id remoteClock remoteState k :
  id <> clientID aw ->
  cell (fst (applyAwarenessUpdate_entry timestamp aw c (id, remoteClock, remoteState))) k
  = if decide (k = id) then cell_merge timestamp (cell aw id) remoteClock remoteState
    else cell aw k.
Proof.
  intros Hne. unfold applyAwarenessUpdate_entry, cell_merge, cell. cbn [fst snd].
  rewrite Map_has_bool_decide, (proj2 (N.eqb_neq _ _) Hne). cbn [andb].
  destruct (_ || _); cbn [fst].
  - destruct (is_null remoteState); cbn; destruct (decide (k = id)) as [->|Hk];
      rewrite ?lookup_insert_eq, ?lookup_delete_eq, ?lookup_insert_ne, ?lookup_delete_ne
        by done; done.
  - by destruct (decide (k = id)) as [->|Hk].
Qed.

Lemma store_eq_cells aw aw' :
  clientID aw = clientID aw' -> (forall k, cell aw k = cell aw' k) -> aw = aw'.
Proof.
  intros Hid Hcells.
  apply store_eq; [done| |]; apply map_eq; intros k; specialize (Hcells k);
    unfold cell in Hcells; congruence.
Qed.

Lemma cell_merge_accepted timestamp c remoteClock remoteState :
  cell_accepts c remoteClock remoteState ->
  cell_merge timestamp c remoteClock remoteState
  = (if is_null remoteState then None else Some remoteState,
     Some (mkMeta remoteClock timestamp)).
Proof.
  intros Hacc. unfold cell_merge.
  destruct (_ || _) eqn:Htest; [done|].
  apply orb_false_iff in Htest as [Hlt%N.ltb_ge Hrest].
  destruct Hacc as [Hacc|(Heq & -> & Hsome)]; [lia|].
  by rewrite (proj2 (N.eqb_eq _ _) Heq), bool_decide_eq_true_2 in Hrest.
Qed.

Lemma cell_merge_rejected timestamp c remoteClock remoteState :
  ~ cell_accepts c remoteClock remoteState ->
  cell_merge timestamp c remoteClock remoteState = c.
Proof.
  intros Hrej. unfold cell_merge.
  destruct (_ || _) eqn:Htest; [|done]. destruct Hrej.
  apply orb_true_iff in Htest as [Hlt%N.ltb_lt|Hrest]; [by left|]. right.
  apply andb_true_iff in Hrest as [[Heq%N.eqb_eq Hnull%is_null_true]%andb_true_iff Hsome].
  by apply bool_decide_eq_true in Hsome.
Qed.

Lemma cell_merge_comm_lt timestamp c clock1 state1 clock2 state2 :
  clock1 < clock2 ->
  cell_merge timestamp (cell_merge timestamp c clock1 state1) clock2 state2
  = cell_merge timestamp (cell_merge timestamp c clock2 state2) clock1 state1.
Proof.
  intros Hlt.
  destruct (decide (cell_accepts c clock2 state2)) as [Hacc2|Hrej2].
  - rewrite (cell_merge_accepted timestamp c clock2) by done.
    rewrite (cell_merge_rejected timestamp (_, _) clock1)
      by (intros [?|[? _]]; cbn in *; lia).
    destruct (decide (cell_accepts c clock1 state1)) as [Hacc1|Hrej1].
    + rewrite (cell_merge_accepted timestamp c clock1) by done.
      apply cell_merge_accepted. left. cbn. lia.
    + rewrite (cell_merge_rejected timestamp c clock1) by done.
      by apply cell_merge_accepted.
  - rewrite (cell_merge_rejected timestamp c clock2) by done.
    assert (~ cell_accepts c clock1 state1) as Hrej1.
    { intros [?|[? _]]; apply Hrej2; left; lia. }
    rewrite (cell_merge_rejected timestamp c clock1) by done.
    by apply cell_merge_rejected.
Qed.

(** Two versions with different clocks merge into a cell in either order. *)
Lemma cell_merge_comm timestamp c clock1 state1 clock2 state2 :
  clock1 <> clock2 ->
  cell_merge timestamp (cell_merge timestamp c clock1 state1) clock2 state2
  = cell_merge timestamp (cell_merge timestamp c clock2 state2) clock1 state1.
Proof.
  intros Hne. destruct (N.lt_total clock1 clock2) as [Hlt|[Heq|Hgt]]; [|done|].
  - by apply cell_merge_comm_lt.
  - symmetry. by apply cell_merge_comm_lt.
Qed.

(** The store after an entry does not depend on what was classified before. *)
Lemma applyAwarenessUpdate_entry_store timestamp aw c c' entry :
  fst (applyAwarenessUpdate_entry timestamp aw c entry)
  = fst (applyAwarenessUpdate_entry timestamp aw c' entry).
Proof.
  destruct entry as [[id remoteClock] remoteState]. unfold applyAwarenessUpdate_entry.
  destruct (_ || _); [|done].
  destruct (is_null remoteState); [|done].
  by destruct ((id =? clientID aw) && _).
Qed.

Lemma applyEntries_store timestamp aw c c' entries :
  fst (applyEntries timestamp aw c entries) = fst (applyEntries timestamp aw c' entries).
Proof.
  revert aw c c'. induction entries as [|entry entries IH]; intros aw c c'; [done|].
  rewrite !applyEntries_cons.
  rewrite (applyAwarenessUpdate_entry_store timestamp aw c c'). apply IH.
Qed.

Lemma applyEntries_app timestamp aw c entries1 entries2 :
  applyEntries timestamp aw c (entries1 ++ entries2)
  = applyEntries timestamp (fst (applyEntries timestamp aw c entries1))
      (snd (applyEntries timestamp aw c entries1)) entries2.
Proof.
  unfold applyEntries. rewrite fold_left_app.
  by destruct (fold_left _ entries1 (aw, c)).
Qed.

Lemma applyEntries_clientID timestamp aw c entries :
  clientID (fst (applyEntries timestamp aw c entries)) = clientID aw.
Proof. apply applyEntries_grows. Qed.

(** Two entries for remote peers, the same or versions of different
    things, merge into a store in either order. *)
Lemma applyAwarenessUpdate_entry_comm timestamp aw c1 c2 c3 c4 e1 e2 :
  e1.1.1 <> clientID aw -> e2.1.1 <> clientID aw ->
  e1 = e2 \/ distinct_versions e1 e2 ->
  fst (applyAwarenessUpdate_entry timestamp
         (fst (applyAwarenessUpdate_entry timestamp aw c1 e1)) c2 e2)
  = fst (applyAwarenessUpdate_entry timestamp
           (fst (applyAwarenessUpdate_entry timestamp aw c3 e2)) c4 e1).
Proof.
  intros Hne1 Hne2 [<-|Hdistinct].
  { by rewrite (applyAwarenessUpdate_entry_store timestamp aw c1 c3),
      (applyAwarenessUpdate_entry_store timestamp _ c2 c4). }
  destruct e1 as [[id1 clock1] state1], e2 as [[id2 clock2] state2].
  unfold distinct_versions in Hdistinct. cbn in Hne1, Hne2, Hdistinct.
  apply store_eq_cells.
  { by rewrite !applyAwarenessUpdate_entry_clientID. }
  intros k.
  rewrite !applyAwarenessUpdate_entry_cell
    by (by rewrite ?applyAwarenessUpdate_entry_clientID).
  destruct (decide (id1 = id2)) as [<-|Hids].
  - destruct Hdistinct as [?|Hclocks]; [done|].
    destruct (decide (k = id1)) as [->|Hk]; [|done].
    rewrite decide_True by done. by apply cell_merge_comm.
  - destruct (decide (k = id2)) as [->|Hk2].
    + by rewrite !(decide_False (P := id2 = id1)) by done.
    + by destruct (decide (k = id1)) as [->|Hk1].
Qed.

Lemma remote_versions_clientID aw aw' entries :
  clientID aw' = clientID aw -> remote_versions aw entries -> remote_versions aw' entries.
Proof. intros Hid [Hremote Hversions]. split; [|done]. intros e He. rewrite Hid. auto. Qed.

Lemma remote_versions_cons aw e entries :
  remote_versions aw (e :: entries) -> remote_versions aw entries.
Proof.
  intros [Hremote Hversions]. split.
  - intros e' He'. apply Hremote, elem_of_cons. by right.
  - intros e1 e2 H1 H2. apply Hversions; apply elem_of_cons; by right.
Qed.

Lemma remote_versions_Permutation aw entries entries' :
  entries ≡ₚ entries' -> remote_versions aw entries -> remote_versions aw entries'.
Proof.
  intros Hperm [Hremote Hversions]. split.
  - intros e He. apply Hremote. by rewrite Hperm.
  - intros e1 e2 H1 H2. apply Hversions; by rewrite Hperm.
Qed.

(** The entries of an update merge into a store in any order. *)
Lemma applyEntries_Permutation timestamp aw c c' entries entries' :
  entries ≡ₚ entries' ->
  remote_versions aw entries ->
  fst (applyEntries timestamp aw c entries) = fst (applyEntries timestamp aw c' entries').
Proof.
  intros Hperm. revert aw c c'.
  induction Hperm as [|e l l' _ IH|e1 e2 l|l l' l'' Hperm1 IH1 Hperm2 IH2];
    intros aw c c' Hremote.
  - done.
  - rewrite !applyEntries_cons.
    rewrite (applyAwarenessUpdate_entry_store timestamp aw c' c).
    apply IH. eapply remote_versions_clientID, remote_versions_cons, Hremote.
    apply applyAwarenessUpdate_entry_clientID.
  - rewrite !applyEntries_cons.
    destruct Hremote as [Hremote Hversions].
    rewrite (applyAwarenessUpdate_entry_comm timestamp aw c
               (snd (applyAwarenessUpdate_entry timestamp aw c e2))
               c' (snd (applyAwarenessUpdate_entry timestamp aw c' e1)) e2 e1).
    + apply applyEntries_store.
    + apply Hremote. set_solver.
    + apply Hremote. set_solver.
    + apply Hversions; set_solver.
  - rewrite (IH1 aw c c) by done. apply IH2.
    by eapply remote_versions_Permutation.
Qed.

(** The view after an entry depends on the view before it only. *)
Lemma applyAwarenessUpdate_entry_view timestamp timestamp' aw aw' c c' entry :
  same_view aw aw' ->
  same_view (fst (applyAwarenessUpdate_entry timestamp aw c entry))
            (fst (applyAwarenessUpdate_entry timestamp' aw' c' entry)).
Proof.
  destruct entry as [[id remoteClock] remoteState].
  destruct aw as [self st m], aw' as [self' st' m'].
  intros (Hid & Hst & Hm). cbn in Hid, Hst. unfold clocks in Hm. cbn [meta] in Hm.
  subst self' st'.
  assert (clock_or_zero (m !! id) = clock_or_zero (m' !! id)) as Hclock.
  { assert ((clock <$> m) !! id = (clock <$> m') !! id) as Hlookup by by rewrite Hm.
    rewrite !lookup_fmap in Hlookup.
    destruct (m !! id), (m' !! id); cbn in *; congruence. }
  unfold applyAwarenessUpdate_entry, getLocalState. cbn [clientID states meta].
  rewrite Hclock. destruct (_ || _); [|done].
  destruct (is_null remoteState); [destruct ((id =? self) && _)|];
    cbn [fst]; (split; [done|]; split; [done|]);
    unfold clocks; cbn [meta]; by rewrite !fmap_insert, Hm.
Qed.

Lemma applyEntries_view timestamp timestamp' aw aw' c c' entries :
  same_view aw aw' ->
  same_view (fst (applyEntries timestamp aw c entries))
            (fst (applyEntries timestamp' aw' c' entries)).
Proof.
  revert aw aw' c c'. induction entries as [|entry entries IH]; intros aw aw' c c' Hview.
  { done. }
  rewrite !applyEntries_cons. by apply IH, applyAwarenessUpdate_entry_view.
Qed.

(** Two updates merged one after the other show what their entries show
    when merged in one go. *)
Lemma applyEntries_twice_view t1 t2 t aw entries1 entries2 :
  same_view
    (fst (applyEntries t2 (fst (applyEntries t1 aw no_changes entries1))
            no_changes entries2))
    (fst (applyEntries t aw no_changes (entries1 ++ entries2))).
Proof.
  rewrite applyEntries_app. apply applyEntries_view, applyEntries_view, same_view_refl.
Qed.

(** The order of arrival of two updates does not show. When two updates
    decode, name remote peers only, and any two of their entries are the
    same entry or differ in peer or clock, a store that applies them in one
    order and a store that applies them in the other show the same: the
    same [states], and the same clock for every peer. Only the times of
    arrival may differ. *)
Theorem applyAwarenessUpdate_order_independent
    (aw : Awareness) (update1 update2 : list byte)
    (entries1 entries2 : list (N * N * json))
    (origin1 origin2 origin3 origin4 : string) (t1 t2 t3 t4 : N) :
  decodeAwarenessUpdate update1 = Normal entries1 ->
  decodeAwarenessUpdate update2 = Normal entries2 ->
  remote_versions aw (entries1 ++ entries2) ->
  let aw12 := fst (applyAwarenessUpdate
                     (fst (applyAwarenessUpdate aw update1 origin1 t1))
                     update2 origin2 t2) in
  let aw21 := fst (applyAwarenessUpdate
                     (fst (applyAwarenessUpdate aw update2 origin3 t3))
                     update1 origin4 t4) in
  getStates aw12 = getStates aw21
  /\ forall id, localClock aw12 id = localClock aw21 id.
Proof.
  intros Hdec1 Hdec2 Hremote. cbv zeta.
  rewrite !(applyAwarenessUpdate_decode _ _ _ _ _ Hdec1),
          !(applyAwarenessUpdate_decode _ _ _ _ _ Hdec2). cbn [fst].
  assert (same_view
            (fst (applyEntries t2 (fst (applyEntries t1 aw no_changes entries1))
                    no_changes entries2))
            (fst (applyEntries t4 (fst (applyEntries t3 aw no_changes entries2))
                    no_changes entries1))) as (_ & Hst & Hclocks).
  { eapply same_view_trans; [apply (applyEntries_twice_view t1 t2 0)|].
    eapply same_view_trans; [|apply same_view_sym, (applyEntries_twice_view t3 t4 0)].
    rewrite (applyEntries_Permutation 0 aw no_changes no_changes
               (entries1 ++ entries2) (entries2 ++ entries1));
      [apply same_view_refl|apply Permutation_app_comm|done]. }
  split; [done|]. intros id. unfold localClock.
  assert (clocks (fst (applyEntries t2 (fst (applyEntries t1 aw no_changes entries1))
                         no_changes entries2)) !! id
          = clocks (fst (applyEntries t4 (fst (applyEntries t3 aw no_changes entries2))
                           no_changes entries1)) !! id) as Hlookup by by rewrite Hclocks.
  unfold clocks in Hlookup. rewrite !lookup_fmap in Hlookup.
  destruct (meta _ !! id), (meta _ !! id); cbn in *; congruence.
Qed.

Lemma applyAwarenessUpdate_order_independent_witness :
  let update1 := [x01; x02; x01; x02; x7b; x7d]%byte in
  let update2 := [x02; x02; x02; x04; x6e; x75; x6c; x6c;
                  x03; x01; x02; x7b; x7d]%byte in
  let aw12 := fst (applyAwarenessUpdate
                     (fst (applyAwarenessUpdate (newAwareness 1 0) update1 "a" 10))
                     update2 "b" 20) in
  let aw21 := fst (applyAwarenessUpdate
                     (fst (applyAwarenessUpdate (newAwareness 1 0) update2 "c" 30))
                     update1 "d" 40) in
  getStates aw12 = getStates aw21
  /\ forall id, localClock aw12 id = localClock aw21 id.
Proof.
  apply (applyAwarenessUpdate_order_independent (newAwareness 1 0)
           [x01; x02; x01; x02; x7b; x7d]%byte
           [x02; x02; x02; x04; x6e; x75; x6c; x6c; x03; x01; x02; x7b; x7d]%byte
           [(2, 1, JObj [])] [(2, 2, JNull); (3, 1, JObj [])] "a" "b" "c" "d" 10 20 30 40).
  - vm_compute. reflexivity.
  - vm_compute. reflexivity.
  - split.
    + intros e He. repeat (apply elem_of_cons in He as [->|He]); try discriminate.
      by apply elem_of_nil in He.
    + intros e1 e2 H1 H2.
      repeat (apply elem_of_cons in H1 as [->|H1]); try (by apply elem_of_nil in H1);
        repeat (apply elem_of_cons in H2 as [->|H2]); try (by apply elem_of_nil in H2);
        try (by left); right; unfold distinct_versions; cbn;
        (left; discriminate) || (right; discriminate).
Defined.

(** On a clock tie the first to arrive wins. When two updates carry
    different states for the same peer with the same clock, newer than what
    the store knows, the store keeps the state of the update it applied
    first: the other is rejected, and two stores that saw the updates in
    different orders disagree. *)
Theorem applyAwarenessUpdate_clock_tie_first_wins
    (aw : Awareness) (update1 update2 : list byte) (id remoteClock : N)
    (state1 state2 : json) (origin1 origin2 origin3 origin4 : string) (t1 t2 t3 t4 : N) :
  decodeAwarenessUpdate update1 = Normal [(id, remoteClock, state1)] ->
  decodeAwarenessUpdate update2 = Normal [(id, remoteClock, state2)] ->
  state1 <> JNull -> state2 <> JNull ->
  localClock aw id < remoteClock ->
  let aw12 := fst (applyAwarenessUpdate
                     (fst (applyAwarenessUpdate aw update1 origin1 t1))
                     update2 origin2 t2) in
  let aw21 := fst (applyAwarenessUpdate
                     (fst (applyAwarenessUpdate aw update2 origin3 t3))
                     update1 origin4 t4) in
  getStates aw12 !! id = Some state1 /\ getStates aw21 !! id = Some state2.
Proof.
  intros Hdec1 Hdec2 Hstate1 Hstate2 Hlt. cbv zeta.
  assert (forall u u' s s' o o' t t',
             decodeAwarenessUpdate u = Normal [(id, remoteClock, s)] ->
             decodeAwarenessUpdate u' = Normal [(id, remoteClock, s')] ->
             s <> JNull -> s' <> JNull ->
             getStates (fst (applyAwarenessUpdate (fst (applyAwarenessUpdate aw u o t))
                               u' o' t')) !! id = Some s) as Hfirst.
  { intros u u' s s' o o' t t' Hu Hu' Hs Hs'.
    rewrite (applyAwarenessUpdate_single _ _ _ _ _ Hu'),
            (applyAwarenessUpdate_single _ _ _ _ _ Hu). cbn [fst].
    rewrite (applyAwarenessUpdate_entry_state _ aw) by (done || by left).
    rewrite applyAwarenessUpdate_entry_rejected.
    - unfold getStates. cbn. by rewrite lookup_insert_eq.
    - unfold accepts, localClock. cbn. rewrite lookup_insert_eq. cbn.
      intros [?|(_ & ? & _)]; [lia|done]. }
  split; by eapply Hfirst.
Qed.

Lemma applyAwarenessUpdate_clock_tie_first_wins_witness :
  let update1 := [x01; x02; x05; x02; x7b; x7d]%byte in
  let update2 := [x01; x02; x05; x01; x37]%byte in
  let aw12 := fst (applyAwarenessUpdate
                     (fst (applyAwarenessUpdate sample_store update1 "a" 10))
                     update2 "b" 20) in
  let aw21 := fst (applyAwarenessUpdate
                     (fst (applyAwarenessUpdate sample_store update2 "c" 30))
                     update1 "d" 40) in
  getStates aw12 !! 2 = Some (JObj []) /\ getStates aw21 !! 2 = Some (JNum 7).
Proof.
  apply (applyAwarenessUpdate_clock_tie_first_wins sample_store
           [x01; x02; x05; x02; x7b; x7d]%byte [x01; x02; x05; x01; x37]%byte
           2 5 (JObj []) (JNum 7) "a" "b" "c" "d" 10 20 30 40).
  - vm_compute. reflexivity.
  - vm_compute. reflexivity.
  - discriminate.
  - discriminate.
  - vm_compute. reflexivity.
Defined.
